(** * FP-growth frequent itemset mining: a shallow embedding of
      [fp_tree_mining.py] and the properties of its FP-tree core.

    The Python objects are modelled as follows.
    - An item is a Python value: an integer or a string ([item]).
    - A [frozenset] is the list of its elements in iteration order.
    - A [dict] is an association list in insertion order; assigning to a
      key that is present keeps the stored key object and its position.
    - [TreeNode] objects live in a store ([nodes]) and are referred to by
      their address, which is also their creation rank; [parent],
      [nodeLink] and [children] hold addresses.
    - Python exceptions are values of [exn]; a computation that may raise
      returns a [result]. *)

From Stdlib Require Import ZArith String.
From stdpp Require Import base decidable option numbers strings list.

Open Scope Z_scope.

(** ** Python values used as items *)

Inductive item : Type :=
| Int (z : Z)
| Str (s : string).

#[global] Instance item_eq_dec : EqDecision item.
Proof. solve_decision. Defined.

(** The address of an object in a store. *)
Abbreviation ref := nat (only parsing).

(** ** Exceptions and the error monad *)

Inductive exn : Type :=
| IndexError        (* [items[0]] on an empty list *)
| KeyError          (* [d[k]] with [k] absent *)
| RecursionError    (* the recursion budget of [mineTree] is exhausted *)
| Diverges          (* a [while] loop over links ran out of fuel *)
| Dangling.         (* an address outside the store *)

Inductive result (A : Type) : Type :=
| Ok (a : A)
| Raise (e : exn).
Arguments Ok {A} a.
Arguments Raise {A} e.

Definition bind {A B} (r : result A) (k : A → result B) : result B :=
  match r with
  | Ok a => k a
  | Raise e => Raise e
  end.

Notation "'do' x <- e ; k" := (bind e (fun x => k))
  (at level 10, x pattern, e at level 100, k at level 200).

Definition of_option {A} (e : exn) (o : option A) : result A :=
  match o with
  | Some a => Ok a
  | None => Raise e
  end.

(** [for x in l: st = body(st, x)], stopping at the first exception. *)
Fixpoint for_each {A S} (l : list A) (body : S → A → result S) (st : S) : result S :=
  match l with
  | [] => Ok st
  | x :: l' => do st' <- body st x; for_each l' body st'
  end.

(** ** Dictionaries *)

Section Dict.
Context {K V : Type} (eqb : K → K → bool).

Fixpoint dict_get (d : list (K * V)) (k : K) : option V :=
  match d with
  | [] => None
  | (k', v) :: d' => if eqb k' k then Some v else dict_get d' k
  end.

(** [d[k] = v] *)
Fixpoint dict_set (d : list (K * V)) (k : K) (v : V) : list (K * V) :=
  match d with
  | [] => [(k, v)]
  | (k', v') :: d' =>
      if eqb k' k then (k', v) :: d' else (k', v') :: dict_set d' k v
  end.

Definition dict_keys (d : list (K * V)) : list K := map fst d.
End Dict.

Definition item_eqb (a b : item) : bool := bool_decide (a = b).

(** [x in s] for a list, set or frozenset of items *)
Definition mem (x : item) (s : list item) : bool := bool_decide (x ∈ s).

Definition frozenset := list item.

(** [a == b] on frozensets *)
Definition fs_eqb (a b : frozenset) : bool :=
  forallb (fun x => mem x b) a && forallb (fun x => mem x a) b.

(** ** [sorted]: Python's sort is stable, also with [reverse=True] *)

Section Sorted.
Context {A : Type} (key : A → Z).

Fixpoint insert_asc (x : A) (l : list A) : list A :=
  match l with
  | [] => [x]
  | y :: l' => if key x <=? key y then x :: l else y :: insert_asc x l'
  end.

Fixpoint insert_desc (x : A) (l : list A) : list A :=
  match l with
  | [] => [x]
  | y :: l' => if key y <=? key x then x :: l else y :: insert_desc x l'
  end.

(** [sorted(l, key=key)] *)
Definition sorted (l : list A) : list A := foldr insert_asc [] l.
(** [sorted(l, key=key, reverse=True)] *)
Definition sorted_rev (l : list A) : list A := foldr insert_desc [] l.
End Sorted.

(** ** Tree nodes and the tree *)

Record TreeNode : Type := mkTreeNode {
  name : item;
  count : Z;
  nodeLink : option ref;
  parent : option ref;
  children : list (item * ref)
}.

(** [TreeNode(name, count, parentNode)] *)
Definition TreeNode_init (nm : item) (c : Z) (parentNode : option ref) : TreeNode :=
  mkTreeNode nm c None parentNode [].

(** [node.inc(count)] *)
Definition inc (n : TreeNode) (c : Z) : TreeNode :=
  mkTreeNode (name n) (count n + c) (nodeLink n) (parent n) (children n).

Definition set_nodeLink (n : TreeNode) (l : option ref) : TreeNode :=
  mkTreeNode (name n) (count n) l (parent n) (children n).

Definition set_child (n : TreeNode) (k : item) (c : ref) : TreeNode :=
  mkTreeNode (name n) (count n) (nodeLink n) (parent n)
             (dict_set item_eqb (children n) k c).

(** An [FPTree] object: its header table, its root and the store of the
    nodes it owns.  [calls] is a ghost field: the [items] argument of every
    invocation of [updateTree] so far, latest first. *)
Record FPTree : Type := mkFPTree {
  headerTable : list (item * (Z * option ref));
  root : ref;
  nodes : list TreeNode;
  calls : list (list item)
}.

Definition with_nodes (t : FPTree) (ns : list TreeNode) : FPTree :=
  mkFPTree (headerTable t) (root t) ns (calls t).
Definition log_call (t : FPTree) (items : list item) : FPTree :=
  mkFPTree (headerTable t) (root t) (nodes t) (items :: calls t).

Definition node_at (ns : list TreeNode) (r : ref) : result TreeNode :=
  of_option Dangling (ns !! r).

(** *** [FPTree.updateHeader] *)

(** The [while nodeToTest.nodeLink != None] loop: the last node of a chain. *)
Fixpoint chain_end (fuel : nat) (ns : list TreeNode) (nodeToTest : ref) : result ref :=
  match fuel with
  | O => Raise Diverges
  | S fuel' =>
      do n <- node_at ns nodeToTest;
      match nodeLink n with
      | None => Ok nodeToTest
      | Some nxt => chain_end fuel' ns nxt
      end
  end.

Definition updateHeader (ns : list TreeNode) (nodeToTest targetNode : ref)
  : result (list TreeNode) :=
  do last <- chain_end (length ns) ns nodeToTest;
  do n <- node_at ns last;
  Ok (<[last := set_nodeLink n (Some targetNode)]> ns).

(** *** [FPTree.updateTree] *)

Fixpoint updateTree (items : list item) (inNode : ref) (cnt : Z) (t : FPTree)
  : result FPTree :=
  let t := log_call t items in
  match items with
  | [] => Raise IndexError
  | i0 :: rest =>
      do n <- node_at (nodes t) inNode;
      do t1 <-
        match dict_get item_eqb (children n) i0 with
        | Some c =>
            do nc <- node_at (nodes t) c;
            Ok (with_nodes t (<[c := inc nc cnt]> (nodes t)))
        | None =>
            let c := length (nodes t) in
            let ns1 := nodes t ++ [TreeNode_init i0 cnt (Some inNode)] in
            let ns2 := <[inNode := set_child n i0 c]> ns1 in
            do e <- of_option KeyError (dict_get item_eqb (headerTable t) i0);
            match e.2 with
            | None =>
                Ok (mkFPTree (dict_set item_eqb (headerTable t) i0 (e.1, Some c))
                             (root t) ns2 (calls t))
            | Some hd =>
                do ns3 <- updateHeader ns2 hd c;
                Ok (with_nodes t ns3)
            end
        end;
      if (1 <? length items)%nat then
        do n' <- node_at (nodes t1) inNode;
        do c <- of_option KeyError (dict_get item_eqb (children n') i0);
        updateTree rest c cnt t1
      else Ok t1
  end.

(** *** [FPTree.__init__] *)

(** First loop: the aggregate count of every item. *)
Definition count_items (transactions : list (frozenset * Z)) : list (item * Z) :=
  fold_left
    (fun h '(trans, c) =>
       fold_left
         (fun h it => dict_set item_eqb h it (default 0 (dict_get item_eqb h it) + c))
         trans h)
    transactions [].

(** Second loop: [del] of every key whose count is below [minSup]. *)
Definition prune (minSup : Z) (h : list (item * Z)) : list (item * Z) :=
  filter (λ kv, ¬ (kv.2 < minSup)) h.

(** The [localD] of one transaction: its frequent items with their counts. *)
Definition localD_of (t : FPTree) (freqItemSet : list item) (trans : frozenset)
  : result (list (item * Z)) :=
  for_each trans
    (fun d it =>
       if mem it freqItemSet then
         do e <- of_option KeyError (dict_get item_eqb (headerTable t) it);
         Ok (dict_set item_eqb d it e.1)
       else Ok d)
    [].

Definition orderedItems_of (localD : list (item * Z)) : list item :=
  map fst (sorted_rev snd localD).

Definition FPTree_init (transactions : list (frozenset * Z)) (minSup : Z)
  : result FPTree :=
  let rootNode := TreeNode_init (Str "Null") 1 None in
  let h := prune minSup (count_items transactions) in
  let freqItemSet := dict_keys h in
  if (length freqItemSet =? 0)%nat then
    Ok (mkFPTree [] 0%nat [rootNode] [])
  else
    let t0 := mkFPTree (map (fun kv => (kv.1, (kv.2, None))) h) 0%nat [rootNode] [] in
    for_each transactions
      (fun t '(trans, cnt) =>
         do localD <- localD_of t freqItemSet trans;
         if (0 <? length localD)%nat then
           updateTree (orderedItems_of localD) (root t) cnt t
         else Ok t)
      t0.

(** ** Conditional pattern bases *)

(** [FPTree.ascendTree]: the names from [leafNode] up to, and excluding,
    the root are appended to [prefixPath]. *)
Fixpoint ascendTree (fuel : nat) (ns : list TreeNode) (leafNode : ref)
    (prefixPath : list item) : result (list item) :=
  match fuel with
  | O => Raise Diverges
  | S fuel' =>
      do n <- node_at ns leafNode;
      match parent n with
      | Some p => ascendTree fuel' ns p (prefixPath ++ [name n])
      | None => Ok prefixPath
      end
  end.

Section Mining.
(** [frozenset(l)]: the iteration order of the frozenset built from the
    list [l] is decided by the interpreter's hash table. *)
Variable frozenset_of : list item → frozenset.

(** The body of the [while treeNode != None] loop of [findPrefixPath]. *)
Definition findPrefixPath_step (ns : list TreeNode) (treeNode : ref)
    (condPats : list (frozenset * Z)) : result (list (frozenset * Z)) :=
  do prefixPath <- ascendTree (length ns) ns treeNode [];
  do n <- node_at ns treeNode;
  if (1 <? length prefixPath)%nat then
    Ok (dict_set fs_eqb condPats (frozenset_of (tail prefixPath)) (count n))
  else Ok condPats.

Fixpoint findPrefixPath_loop (fuel : nat) (ns : list TreeNode)
    (treeNode : option ref) (condPats : list (frozenset * Z))
  : result (list (frozenset * Z)) :=
  match treeNode with
  | None => Ok condPats
  | Some r =>
      match fuel with
      | O => Raise Diverges
      | S fuel' =>
          do condPats' <- findPrefixPath_step ns r condPats;
          do n <- node_at ns r;
          findPrefixPath_loop fuel' ns (nodeLink n) condPats'
      end
  end.

(** [FPTree.findPrefixPath] *)
Definition findPrefixPath (t : FPTree) (basePat : item)
  : result (list (frozenset * Z)) :=
  do e <- of_option KeyError (dict_get item_eqb (headerTable t) basePat);
  findPrefixPath_loop (length (nodes t)) (nodes t) e.2 [].

(** ** The mining driver *)

(** The mutable [set] objects of the driver live in a store of their
    own; [freqItemList] holds addresses into it. *)
Record MineState : Type := mkMineState {
  sets : list (list item);
  freqItemList : list ref
}.

(** [s.add(x)] on the contents of a set *)
Definition set_add (s : list item) (x : item) : list item :=
  if mem x s then s else s ++ [x].

Definition bigL_of (t : FPTree) : list item :=
  map fst (sorted (fun p => p.2.1) (headerTable t)).

(** [FPTree.mineTree]; [depth] bounds the nesting of the recursive
    calls below this one. *)
Fixpoint mineTree (depth : nat) (t : FPTree) (minSup : Z) (preFix : ref)
    (st : MineState) : result MineState :=
  for_each (bigL_of t)
    (fun st basePat =>
       do pre <- of_option Dangling (sets st !! preFix);
       (* newFreqSet = preFix.copy() *)
       let newFreqSet := length (sets st) in
       let st1 := mkMineState (sets st ++ [pre]) (freqItemList st) in
       (* newFreqSet.add(basePat) *)
       do s <- of_option Dangling (sets st1 !! newFreqSet);
       let st2 := mkMineState (<[newFreqSet := set_add s basePat]> (sets st1))
                              (freqItemList st1) in
       (* freqItemList.append(newFreqSet) *)
       let st3 := mkMineState (sets st2) (freqItemList st2 ++ [newFreqSet]) in
       do condPattBases <- findPrefixPath t basePat;
       do myCondTree <- FPTree_init condPattBases minSup;
       if bool_decide (headerTable myCondTree ≠ []) then
         match depth with
         | O => Raise RecursionError
         | S depth' => mineTree depth' myCondTree minSup newFreqSet st3
         end
       else Ok st3)
    st.

(** The driver as [main] runs it: build the tree, then mine it from the
    empty prefix into an empty list; the result is the contents of the
    emitted sets, in order. *)
Definition mine (depth : nat) (transactions : list (frozenset * Z)) (minSup : Z)
  : result (list (list item)) :=
  do myFPtree <- FPTree_init transactions minSup;
  do st <- mineTree depth myFPtree minSup 0%nat (mkMineState [[]] []);
  for_each (freqItemList st)
    (fun acc r => do s <- of_option Dangling (sets st !! r); Ok (acc ++ [s]))
    [].
End Mining.

(** ** The collaborators of the driver: [createInitSet], [writePatterns]
       and the body of the loop of [main] *)

Section Collaborators.
(** [frozenset(l)], as above. *)
Variable frozenset_of : list item → frozenset.
(** The order in which a [set] with the given contents is iterated over. *)
Variable set_order : list item → list item.
(** [int(item)]; [None] when it raises [ValueError]. *)
Variable int_of : item → option Z.

(** [createInitSet]: every transaction, as a frozenset, with the number of
    times it occurs. *)
Definition createInitSet (dataSet : list (list item)) : list (frozenset * Z) :=
  fold_left
    (fun retDict trans =>
       dict_set fs_eqb retDict (frozenset_of trans)
         (default 0 (dict_get fs_eqb retDict (frozenset_of trans)) + 1))
    dataSet [].

(** [sum([initSet.get(frozenset(item), 0) for item in initSet
          if itemset.issubset(item)])] *)
Definition supportCount (initSet : list (frozenset * Z)) (itemset : list item) : Z :=
  foldr Z.add 0
    ((fun item => default 0 (dict_get fs_eqb initSet item))
       <$> filter (fun item => itemset ⊆ item) (dict_keys initSet)).

(** The generator [vocab.get(int(item), dflt) for item in items
    if int(item) in vocab]; the code has ['UNKNOWN'] for [dflt]. *)
Fixpoint pattern_terms (vocab : list (Z * string)) (dflt : string)
    (items : list item) : option (list string) :=
  match items with
  | [] => Some []
  | it :: rest =>
      i ← int_of it;
      if bool_decide (is_Some (dict_get Z.eqb vocab i)) then
        j ← int_of it;
        terms ← pattern_terms vocab dflt rest;
        Some (default dflt (dict_get Z.eqb vocab j) :: terms)
      else pattern_terms vocab dflt rest
  end.

Definition pattern_of (vocab : list (Z * string)) (itemset : list item)
  : option string :=
  String.concat " " <$> pattern_terms vocab "UNKNOWN" (set_order itemset).

(** The loop that fills [patternDict]. *)
Fixpoint patternDict_of (vocab : list (Z * string)) (initSet : list (frozenset * Z))
    (freqItems : list (list item)) (patternDict : list (string * Z))
  : option (list (string * Z)) :=
  match freqItems with
  | [] => Some patternDict
  | itemset :: rest =>
      let supportCount := supportCount initSet itemset in
      pattern ← pattern_of vocab itemset;
      patternDict_of vocab initSet rest
        (dict_set String.eqb patternDict pattern supportCount)
  end.

(** [writePatterns]: the pairs of a pattern and its count, in the order in
    which their lines are written to the file. *)
Definition writePatterns (freqItems : list (list item)) (vocab : list (Z * string))
    (initSet : list (frozenset * Z)) : option (list (string * Z)) :=
  patternDict ← patternDict_of vocab initSet freqItems [];
  Some (sorted_rev snd patternDict).

(** One round of the loop of [main], from the data set and the vocabulary
    that were loaded to the lines that are written; [depth] is the budget of
    [mineTree]. *)
Definition main_round (depth : nat) (dataSet : list (list item))
    (vocab : list (Z * string)) : result (option (list (string * Z))) :=
  let initSet := createInitSet dataSet in
  do freqItems <- mine frozenset_of depth initSet 400;
  Ok (writePatterns freqItems vocab initSet).
End Collaborators.

(** * The vocabulary of the properties *)

Local Open Scope nat_scope.

(** ** The shape of a store of nodes

    The structural properties of a tree depend on the store only through
    the four projections [name], [parent], [nodeLink] and [children]. *)

Definition names (ns : list TreeNode) : list item := name <$> ns.
Definition parents (ns : list TreeNode) : list (option ref) := parent <$> ns.
Definition links (ns : list TreeNode) : list (option ref) := nodeLink <$> ns.
Definition kids (ns : list TreeNode) : list (list (item * ref)) := children <$> ns.

(** The labels met from a node up to the root, the root excluded. *)
Inductive above_root (nms : list item) (pts : list (option ref))
  : ref → list item → Prop :=
| above_root_top r :
    pts !! r = Some None → above_root nms pts r []
| above_root_step r p x l :
    pts !! r = Some (Some p) → nms !! r = Some x →
    above_root nms pts p l → above_root nms pts r (x :: l).

(** The nodes reached from a chain head by following [nodeLink]. *)
Inductive is_chain (lks : list (option ref)) : option ref → list ref → Prop :=
| is_chain_nil : is_chain lks None []
| is_chain_cons r nxt l :
    lks !! r = Some nxt → is_chain lks nxt l → is_chain lks (Some r) (r :: l).

(** The addresses of the nodes that carry the label [x], the root (at
    address 0) excluded, in order of creation. *)
Definition labelled (nms : list item) (x : item) : list ref :=
  filter (λ i, nms !! i = Some x) (seq 1 (length nms - 1)).

(** The nodes visited by [while treeNode != None: ...; treeNode =
    treeNode.nodeLink]. *)
Fixpoint follow_chain (fuel : nat) (ns : list TreeNode) (treeNode : option ref)
  : result (list ref) :=
  match treeNode with
  | None => Ok []
  | Some r =>
      match fuel with
      | O => Raise Diverges
      | S fuel' =>
          do n <- node_at ns r;
          do l <- follow_chain fuel' ns (nodeLink n);
          Ok (r :: l)
      end
  end.

(** Strictly increasing addresses: earlier created nodes come first. *)
Definition increasing (l : list ref) : Prop :=
  ∀ i j a b, i < j → l !! i = Some a → l !! j = Some b → a < b.

(** The invariant of tree construction: the root sits at address 0 and
    has no parent; every other node has an older node as its parent and an
    item of the header table as its label; the [children] dictionaries agree
    with the [parent] links; the chain of every header item is the list of
    the nodes that carry the item, oldest first; no label occurs twice on a
    path to the root. *)
Record wf (t : FPTree) : Prop := mk_wf {
  wf_root : root t = 0;
  wf_top : parents (nodes t) !! 0 = Some None;
  wf_parent : ∀ i, 0 < i < length (nodes t) →
    ∃ p, parents (nodes t) !! i = Some (Some p) ∧ p < i;
  wf_name : ∀ i x, i ≠ 0 → names (nodes t) !! i = Some x →
    is_Some (dict_get item_eqb (headerTable t) x);
  wf_children : ∀ i d x c,
    kids (nodes t) !! i = Some d → dict_get item_eqb d x = Some c →
    names (nodes t) !! c = Some x ∧ parents (nodes t) !! c = Some (Some i);
  wf_chain : ∀ x e, dict_get item_eqb (headerTable t) x = Some e →
    is_chain (links (nodes t)) e.2 (labelled (names (nodes t)) x);
  wf_path : ∀ i l,
    above_root (names (nodes t)) (parents (nodes t)) i l → NoDup l
}.

(** The header table without its chain heads: every item with its count. *)
Definition header_counts (t : FPTree) : list (item * Z) :=
  (λ kv, (kv.1, kv.2.1)) <$> headerTable t.

(** The first half of [updateTree]: bump the matching child of [inNode],
    or create it and link it into its chain. *)
Definition updateTree_first (i0 : item) (inNode : ref) (cnt : Z) (t : FPTree)
    (n : TreeNode) : result FPTree :=
  match dict_get item_eqb (children n) i0 with
  | Some c =>
      do nc <- node_at (nodes t) c;
      Ok (with_nodes t (<[c := inc nc cnt]> (nodes t)))
  | None =>
      let c := length (nodes t) in
      let ns1 := nodes t ++ [TreeNode_init i0 cnt (Some inNode)] in
      let ns2 := <[inNode := set_child n i0 c]> ns1 in
      do e <- of_option KeyError (dict_get item_eqb (headerTable t) i0);
      match e.2 with
      | None =>
          Ok (mkFPTree (dict_set item_eqb (headerTable t) i0 (e.1, Some c))
                       (root t) ns2 (calls t))
      | Some hd =>
          do ns3 <- updateHeader ns2 hd c;
          Ok (with_nodes t ns3)
      end
  end.

(** ** Orders *)

Section Order.
Context {A : Type} (key : A → Z).

Definition descending (l : list A) : Prop :=
  ∀ i j a b, i < j → l !! i = Some a → l !! j = Some b → (key b ≤ key a)%Z.

End Order.

(** [x] is a key of the dictionary [d] whose value has count [c]. *)
Definition has_count {V} (cnt : V → Z) (d : list (item * V)) (c : Z) (x : item) : Prop :=
  cnt <$> dict_get item_eqb d x = Some c.

#[global] Instance has_count_dec {V} (cnt : V → Z) d c x : Decision (has_count cnt d c x).
Proof. unfold has_count. apply _. Defined.



(** ** Counts, supports and vocabularies *)

(** The sum of the counts of the transactions that contain [x]. *)
Definition aggregate (transactions : list (frozenset * Z)) (x : item) : Z :=
  foldr (λ tc acc, if mem x tc.1 then (tc.2 + acc)%Z else acc) 0%Z transactions.

(** [x] occurs in some transaction. *)
Definition occurs (transactions : list (frozenset * Z)) (x : item) : Prop :=
  ∃ tc, tc ∈ transactions ∧ x ∈ tc.1.

(** The first loop of [FPTree.__init__], from a given table onwards. *)
Definition count_one (c : Z) (h : list (item * Z)) (it : item) : list (item * Z) :=
  dict_set item_eqb h it (default 0%Z (dict_get item_eqb h it) + c)%Z.

Definition count_from (h : list (item * Z)) (transactions : list (frozenset * Z))
  : list (item * Z) :=
  fold_left (fun h '(trans, c) => fold_left (count_one c) trans h) transactions h.

(** The distinct items of a transaction multiset. *)
Definition vocabulary (transactions : list (frozenset * Z)) : list item :=
  remove_dups (mjoin transactions.*1).

(** The weighted support of an itemset: the sum of the counts of the
    transactions that include it. *)
Definition support (transactions : list (frozenset * Z)) (s : list item) : Z :=
  foldr (λ tc acc, if forallb (λ x, mem x tc.1) s then (tc.2 + acc)%Z else acc)
        0%Z transactions.

(** [s] is one of the emitted itemsets, as a set. *)
Definition emitted (out : list (list item)) (s : list item) : bool :=
  existsb (fs_eqb s) out.

(** Input that the specification calls malformed. *)
Definition malformed (transactions : list (frozenset * Z)) (minSup : Z) : Prop :=
  (minSup ≤ 0)%Z ∨ Exists (λ tc, (tc.2 ≤ 0)%Z ∨ tc.1 = []) transactions.

(** ** The order of insertion and of emission *)





(** ** Conditional pattern bases and the accumulator *)

(** [k] is the frozenset of the labels above some node [r] of the chain of
    [basePat]: the labels met from the parent of [r] up to the root, the
    root excluded, of which there is at least one. *)
Definition from_chain_node (frozenset_of : list item → frozenset) (t : FPTree)
    (basePat : item) (k : frozenset) : Prop :=
  ∃ r p anc,
    r ∈ labelled (names (nodes t)) basePat ∧
    parents (nodes t) !! r = Some (Some p) ∧
    above_root (names (nodes t)) (parents (nodes t)) p anc ∧
    anc ≠ [] ∧ k = frozenset_of anc.

(** [anc] lists the labels met from the parent of the node [r] of the chain
    of [basePat] up to the root, the root excluded. *)
Definition ancestors_of (t : FPTree) (basePat : item) (r : ref)
    (anc : list item) : Prop :=
  r ∈ labelled (names (nodes t)) basePat ∧
  ∃ p, parents (nodes t) !! r = Some (Some p) ∧
       above_root (names (nodes t)) (parents (nodes t)) p anc.

(** Every address of [freqItemList] is the address of a set. *)
Definition heap_ok (st : MineState) : Prop :=
  Forall (λ r, r < length (sets st)) (freqItemList st).

(** What a run of the driver from [st] to [st'] may do to the store of
    sets and to [freqItemList]: the sets that existed are left as they
    were, new sets are allocated behind them, the list grows by the
    addresses of exactly these new sets, and every new set is the contents
    of an older set (the prefix, or a set emitted earlier in the run) plus
    one item. *)
Definition appended_only (preFix : ref) (st st' : MineState) : Prop :=
  ∃ news : list (list item),
    sets st' = sets st ++ news ∧
    freqItemList st' = freqItemList st ++ seq (length (sets st)) (length news) ∧
    ∀ k s, news !! k = Some s →
      ∃ r p x, r < length (sets st) + k ∧
               (r = preFix ∨ length (sets st) ≤ r) ∧
               sets st' !! r = Some p ∧ s = set_add p x.

(** ** Weights of the nodes *)

Definition Zsum (l : list Z) : Z := foldr Z.add 0%Z l.

Definition counts (ns : list TreeNode) : list Z := count <$> ns.

(** The labels met from the node [r] up to the root, the root excluded, as
    [ascendTree] collects them; [fuel] bounds the number of steps. *)
Fixpoint labels_above (fuel : nat) (nms : list item) (pts : list (option ref))
    (r : ref) : list item :=
  match fuel with
  | O => []
  | S fuel' =>
      match pts !! r, nms !! r with
      | Some (Some p), Some x => x :: labels_above fuel' nms pts p
      | _, _ => []
      end
  end.

(** The count of the node [r] if every item of [S] labels a node strictly
    above [r], and 0 otherwise. *)
Definition weight_at (ns : list TreeNode) (S : list item) (r : ref) : Z :=
  if decide (S ⊆ tail (labels_above (length ns) (names ns) (parents ns) r))
  then default 0%Z (counts ns !! r) else 0%Z.

(** The total count of the nodes labelled [b] that have all of [S] above
    them; with [S] empty, the total count of the chain of [b]. *)
Definition weight (ns : list TreeNode) (b : item) (S : list item) : Z :=
  Zsum (weight_at ns S <$> labelled (names ns) b).

(** The total count of the nodes labelled [b]. *)
Definition chain_total (ns : list TreeNode) (b : item) : Z :=
  Zsum ((λ r, default 0%Z (counts ns !! r)) <$> labelled (names ns) b).

(** What the insertion of the list [items] with count [cnt] below a node
    whose path to the root is [pth] adds to [weight _ b S]. *)
Fixpoint contribution (cnt : Z) (items pth : list item) (b : item) (S : list item) : Z :=
  match items with
  | [] => 0%Z
  | x :: rest =>
      ((if decide (b = x ∧ S ⊆ pth) then cnt else 0)
       + contribution cnt rest (x :: pth) b S)%Z
  end.

(** The trees built from the transactions [done]: the weights are the
    contributions of the ordered frequent items of each transaction. *)
Definition built_from (freqItemSet : list item) (done : list (frozenset * Z))
    (t : FPTree) : Prop :=
  ∃ ords : list (list item),
    Forall2 (λ tc items, NoDup items ∧
                         ∀ x, x ∈ items ↔ x ∈ tc.1 ∧ x ∈ freqItemSet) done ords ∧
    ∀ b S, weight (nodes t) b S =
           Zsum (zip_with (λ tc items, contribution tc.2 items [] b S) done ords).

(** ** Transaction multisets *)

(** No two of the frozensets [ks] are equal as sets. *)
Definition distinct_sets (ks : list frozenset) : Prop :=
  ∀ i j a b, i < j → ks !! i = Some a → ks !! j = Some b → fs_eqb a b = false.

(** A dictionary from non-empty frozensets, equal to one another only if
    they are the same key, to positive counts. *)
Definition is_multiset (T : list (frozenset * Z)) : Prop :=
  Forall (λ tc, NoDup tc.1 ∧ tc.1 ≠ [] ∧ (0 < tc.2)%Z) T ∧
  distinct_sets (dict_keys T).

(** The number of the transactions of [dataSet] that hold every item of
    [S]. *)
Definition count_lines (dataSet : list (list item)) (S : list item) : Z :=
  Z.of_nat (length (filter (λ line, S ⊆ line) dataSet)).

(** The number of the transactions of [dataSet] that are equal to [K] as
    sets. *)
Definition count_equal (dataSet : list (list item)) (K : list item) : Z :=
  Z.of_nat (length (filter (λ line, line ⊆ K ∧ K ⊆ line) dataSet)).

(** ** Example inputs *)

(** An iteration order for [frozenset(l)]: the order of [l]. *)
Definition frozenset_in_order (l : list item) : frozenset := remove_dups l.

(** The scenario of the specification:
    [{ {1,2,3}:2, {1,2}:1, {1,3}:1 }]. *)
Definition scenario : list (frozenset * Z) :=
  [ ([Int 1; Int 2; Int 3], 2%Z); ([Int 1; Int 2], 1%Z); ([Int 1; Int 3], 1%Z) ].

Definition scenario_tree : FPTree :=
  Eval vm_compute in
    match FPTree_init scenario 2 with
    | Ok t => t
    | Raise _ => mkFPTree [] 0 [] []
    end.

Definition scenario_mined : MineState :=
  Eval vm_compute in
    match mineTree frozenset_in_order 3 scenario_tree 2 0 (mkMineState [[]] []) with
    | Ok st => st
    | Raise _ => mkMineState [] []
    end.

(** [{ frozenset([8,1,2]):1, frozenset([1,2,8,16,17]):1, frozenset([8,1]):1 }]
    with each set in the order in which CPython iterates over it: small
    integers hash to themselves, a set filled from a list has eight slots
    up to four elements and thirty-two from the fifth on, so 8 falls into
    slot 0 of the small sets and into slot 8 of the large one.  The items 1 and 8 both have
    aggregate count 3, and the two sets that hold 2 list them in opposite
    orders. *)
Definition tied : list (frozenset * Z) :=
  [ ([Int 8; Int 1; Int 2], 1%Z);
    ([Int 1; Int 2; Int 8; Int 16; Int 17], 1%Z);
    ([Int 8; Int 1], 1%Z) ].

(** The tree of [tied] at threshold 2: the nodes 1, 2 and 3 carry 8, 1 and
    2 on one path, the nodes 4, 5 and 6 carry 1, 8 and 2 on another. *)
Definition tied_tree : FPTree :=
  Eval vm_compute in
    match FPTree_init tied 2 with
    | Ok t => t
    | Raise _ => mkFPTree [] 0 [] []
    end.

(** What the driver emits for the scenario, at threshold 2. *)
Definition scenario_out : list (list item) :=
  Eval vm_compute in
    match mine frozenset_in_order 3 scenario 2 with
    | Ok out => out
    | Raise _ => []
    end.

(** The conditional pattern base of the item 3 in the tree of the
    scenario. *)
Definition scenario_condPats : list (frozenset * Z) :=
  Eval vm_compute in
    match findPrefixPath frozenset_in_order scenario_tree (Int 3) with
    | Ok condPats => condPats
    | Raise _ => []
    end.

(** [int] on the items of the examples.  An integer is itself.  A string
    is read as [int(s)] reads it in base 10: the whitespace around it is
    dropped, a sign may come first, then come digits, which single
    underscores may separate; anything else is rejected.  (Only ASCII is
    covered: a string with another character is rejected here, while Python
    also accepts the digits and the spaces of Unicode; nor is the
    interpreter's limit on the number of digits modelled.) *)
Fixpoint codes (s : string) : list Z :=
  match s with
  | EmptyString => []
  | String c s' => Z.of_nat (Ascii.nat_of_ascii c) :: codes s'
  end.

Definition is_space (n : Z) : bool :=
  ((9 <=? n) && (n <=? 13) || (28 <=? n) && (n <=? 32))%Z.

Fixpoint lstrip (l : list Z) : list Z :=
  match l with
  | n :: l' => if is_space n then lstrip l' else l
  | [] => []
  end.

Definition strip (l : list Z) : list Z := reverse (lstrip (reverse (lstrip l))).

(** The digits after the sign; [after_digit] tells whether the character
    before was a digit. *)
Fixpoint digits_value (acc : Z) (after_digit : bool) (l : list Z) : option Z :=
  match l with
  | [] => if after_digit then Some acc else None
  | n :: l' =>
      if ((48 <=? n) && (n <=? 57))%Z
      then digits_value (10 * acc + (n - 48))%Z true l'
      else if (n =? 95)%Z && after_digit
           then digits_value acc false l'
           else None
  end.

Definition int_of_ascii (it : item) : option Z :=
  match it with
  | Int z => Some z
  | Str s =>
      match strip (codes s) with
      | 43%Z :: l => digits_value 0 false l
      | 45%Z :: l => Z.opp <$> digits_value 0 false l
      | l => digits_value 0 false l
      end
  end.

(** A data set as [loadDataSet] returns it, lines of tokens: four hundred
    lines [1 2], and the lines [2 3], the empty line and [2 2]. *)
Definition baskets : list (list item) :=
  replicate 400 [Str "1"; Str "2"] ++ [[Str "2"; Str "3"]; []; [Str "2"; Str "2"]].

Definition words : list (Z * string) := [(1%Z, "tea"); (2%Z, "milk")].

(** The lines written for [baskets] and [words], when every set is iterated
    over in the order in which it was filled. *)
Definition baskets_lines : list (string * Z) :=
  Eval vm_compute in
    match main_round frozenset_in_order id int_of_ascii 2 baskets words with
    | Ok (Some lines) => lines
    | _ => []
    end.

(** * Basic facts *)

Lemma bind_Ok {A B} (r : result A) (k : A → result B) (b : B) :
  bind r k = Ok b ↔ ∃ a, r = Ok a ∧ k a = Ok b.
Proof.
  destruct r as [a|e]; simpl; split.
  - eauto.
  - intros (a' & [= ->] & H). exact H.
  - discriminate.
  - intros (a' & [=] & _).
Qed.

Lemma of_option_Ok {A} (e : exn) (o : option A) (a : A) :
  of_option e o = Ok a ↔ o = Some a.
Proof. destruct o; simpl; split; congruence. Qed.

Lemma node_at_Ok ns r n : node_at ns r = Ok n ↔ ns !! r = Some n.
Proof. apply of_option_Ok. Qed.

(** Loops: an invariant that every iteration preserves, together with
    success of every iteration, gives success of the loop. *)
Lemma for_each_inv {A S} (I : S → Prop) (l : list A) (body : S → A → result S) :
  (∀ st x, x ∈ l → I st → ∃ st', body st x = Ok st' ∧ I st') →
  ∀ st, I st → ∃ st', for_each l body st = Ok st' ∧ I st'.
Proof.
  induction l as [|x l IH]; intros Hbody st Hst; simpl.
  - eauto.
  - destruct (Hbody st x) as (st1 & -> & H1); [left | done |]. simpl.
    apply IH; [|done]. intros st2 y Hy. apply Hbody. by right.
Qed.

(** The same for a loop that is only known to have succeeded. *)
Lemma for_each_post {A S} (I : S → Prop) (l : list A) (body : S → A → result S) :
  (∀ st x st', x ∈ l → I st → body st x = Ok st' → I st') →
  ∀ st st', I st → for_each l body st = Ok st' → I st'.
Proof.
  induction l as [|x l IH]; intros Hbody st st' Hst; simpl.
  - by intros [= <-].
  - intros (st1 & H1 & H2)%bind_Ok.
    eapply IH, H2; [|eapply Hbody, H1; [left | done]].
    intros st2 y st3 Hy. apply Hbody. by right.
Qed.

(** ** Dictionaries keyed by items *)

Lemma item_eqb_true a b : item_eqb a b = true ↔ a = b.
Proof. apply bool_decide_eq_true. Qed.

Lemma item_eqb_false a b : item_eqb a b = false ↔ a ≠ b.
Proof. apply bool_decide_eq_false. Qed.

Section DictItem.
Context {V : Type}.
Implicit Types (d : list (item * V)) (k : item) (v : V).

Lemma dict_get_set_eq d k v : dict_get item_eqb (dict_set item_eqb d k v) k = Some v.
Proof.
  induction d as [|[k' v'] d IH]; simpl.
  - by rewrite (proj2 (item_eqb_true k k)).
  - destruct (item_eqb k' k) eqn:E; simpl; rewrite E; done.
Qed.

Lemma dict_get_set_ne d k k' v :
  k ≠ k' → dict_get item_eqb (dict_set item_eqb d k v) k' = dict_get item_eqb d k'.
Proof.
  intros Hne. induction d as [|[k0 v0] d IH]; simpl.
  - by rewrite (proj2 (item_eqb_false k k')).
  - destruct (item_eqb k0 k) eqn:E; simpl.
    + apply item_eqb_true in E as ->.
      by rewrite (proj2 (item_eqb_false k k')).
    + by rewrite IH.
Qed.

Lemma dict_get_Some_keys d k v :
  dict_get item_eqb d k = Some v → k ∈ dict_keys d.
Proof.
  induction d as [|[k0 v0] d IH]; simpl; [done|].
  destruct (item_eqb k0 k) eqn:E.
  - apply item_eqb_true in E as ->. intros _. left.
  - intros H. right. by apply IH.
Qed.

Lemma dict_get_None_keys d k :
  dict_get item_eqb d k = None ↔ k ∉ dict_keys d.
Proof.
  induction d as [|[k0 v0] d IH]; simpl.
  - split; [intros _; apply not_elem_of_nil | done].
  - rewrite not_elem_of_cons. destruct (item_eqb k0 k) eqn:E.
    + apply item_eqb_true in E as ->. split; [done | intros [? _]; done].
    + apply item_eqb_false in E. rewrite IH. split; [by intros ?; split | by intros [_ ?]].
Qed.

Lemma dict_keys_is_Some d k :
  k ∈ dict_keys d ↔ is_Some (dict_get item_eqb d k).
Proof.
  destruct (dict_get item_eqb d k) eqn:E.
  - split; [eauto | intros _; by eapply dict_get_Some_keys].
  - split; [by intros ?%dict_get_None_keys | by intros [? ?]].
Qed.

Lemma dict_keys_set_present d k v :
  is_Some (dict_get item_eqb d k) →
  dict_keys (dict_set item_eqb d k v) = dict_keys d.
Proof.
  induction d as [|[k0 v0] d IH]; simpl; [by intros [? ?]|].
  destruct (item_eqb k0 k) eqn:E; simpl; [done|].
  intros H. by rewrite IH.
Qed.

Lemma dict_keys_set_absent d k v :
  dict_get item_eqb d k = None →
  dict_keys (dict_set item_eqb d k v) = dict_keys d ++ [k].
Proof.
  induction d as [|[k0 v0] d IH]; simpl; [done|].
  destruct (item_eqb k0 k) eqn:E; simpl; [done|].
  intros H. by rewrite IH.
Qed.

Lemma dict_keys_set_NoDup d k v :
  NoDup (dict_keys d) → NoDup (dict_keys (dict_set item_eqb d k v)).
Proof.
  intros Hd. destruct (dict_get item_eqb d k) eqn:E.
  - by rewrite dict_keys_set_present.
  - rewrite dict_keys_set_absent by done.
    apply NoDup_app. split_and!; [done | | apply NoDup_singleton].
    intros x Hx ->%list_elem_of_singleton. by apply dict_get_None_keys in E.
Qed.

Lemma dict_get_elem_of d k v :
  dict_get item_eqb d k = Some v → (k, v) ∈ d.
Proof.
  induction d as [|[k0 v0] d IH]; simpl; [done|].
  destruct (item_eqb k0 k) eqn:E.
  - apply item_eqb_true in E as ->. intros [= ->]. left.
  - intros H. right. by apply IH.
Qed.

Lemma dict_elem_of_get d k v :
  NoDup (dict_keys d) → (k, v) ∈ d → dict_get item_eqb d k = Some v.
Proof.
  induction d as [|[k0 v0] d IH]; simpl; [by intros _ ?%elem_of_nil|].
  intros [Hk Hd]%NoDup_cons [[= -> ->]|Hin]%elem_of_cons.
  - by rewrite (proj2 (item_eqb_true k0 k0)).
  - destruct (item_eqb k0 k) eqn:E; [|by apply IH].
    apply item_eqb_true in E as ->. destruct Hk.
    apply list_elem_of_fmap. by exists (k, v).
Qed.
End DictItem.

(** * The shape of a store of nodes *)

Lemma proj_insert {B} (f : TreeNode → B) (ns : list TreeNode) (k : nat) n n' :
  ns !! k = Some n → f n' = f n → f <$> <[k:=n']> ns = f <$> ns.
Proof.
  intros Hk Hf. rewrite list_fmap_insert, Hf.
  apply list_insert_id. by rewrite list_lookup_fmap, Hk.
Qed.

Lemma above_root_functional nms pts r l1 l2 :
  above_root nms pts r l1 → above_root nms pts r l2 → l1 = l2.
Proof.
  intros H1. revert l2. induction H1 as [r Hr | r p x l Hr Hx _ IH];
    intros l2 H2; inversion H2; simplify_eq; [done|].
  f_equal. by apply IH.
Qed.

Lemma above_root_app nms pts nms' pts' r l :
  length nms = length pts →
  above_root nms pts r l → above_root (nms ++ nms') (pts ++ pts') r l.
Proof.
  intros Hlen. induction 1 as [r Hr | r p x l Hr Hx _ IH].
  - apply above_root_top. by apply lookup_app_l_Some.
  - eapply above_root_step; [by apply lookup_app_l_Some ..| done].
Qed.

Lemma above_root_app_inv nms pts nms' pts' r l :
  length nms = length pts →
  (∀ i p, pts !! i = Some (Some p) → p < length pts) →
  r < length pts →
  above_root (nms ++ nms') (pts ++ pts') r l → above_root nms pts r l.
Proof.
  intros Hlen Hcl Hr H. induction H as [r Hr' | r p x l Hr' Hx _ IH].
  - apply above_root_top. by rewrite lookup_app_l in Hr'.
  - rewrite lookup_app_l in Hr' by done.
    rewrite lookup_app_l in Hx by lia.
    eapply above_root_step; [done.. |]. apply IH. by eapply Hcl.
Qed.

Lemma above_root_exists nms pts :
  length nms = length pts →
  pts !! 0 = Some None →
  (∀ i, 0 < i < length pts → ∃ p, pts !! i = Some (Some p) ∧ p < i) →
  ∀ r, r < length pts → ∃ l, above_root nms pts r l ∧ length l ≤ r.
Proof.
  intros Hlen H0 Hp r. induction (lt_wf r) as [r _ IH]. intros Hr.
  destruct (decide (r = 0)) as [->|Hne].
  - exists []. split; [by apply above_root_top | simpl; lia].
  - destruct (Hp r) as (p & Hrp & Hlt); [lia|].
    destruct (IH p) as (l & Hl & Hlen'); [lia.. |].
    destruct (lookup_lt_is_Some_2 nms r) as [x Hx]; [lia|].
    exists (x :: l). split; [by eapply above_root_step | simpl; lia].
Qed.

Lemma is_chain_lt lks o l i : is_chain lks o l → i ∈ l → i < length lks.
Proof.
  induction 1 as [|r nxt l Hr _ IH]; [by intros ?%elem_of_nil|].
  intros [->|Hi]%elem_of_cons; [by eapply lookup_lt_Some | by apply IH].
Qed.

Lemma is_chain_frame lks lks' o l :
  (∀ i, i ∈ l → lks' !! i = lks !! i) →
  is_chain lks o l → is_chain lks' o l.
Proof.
  intros Hsame H. induction H as [|r nxt l Hr _ IH]; [constructor|].
  econstructor.
  - rewrite Hsame; [done | left].
  - apply IH. intros i Hi. apply Hsame. by right.
Qed.

Lemma is_chain_functional lks o l1 l2 :
  is_chain lks o l1 → is_chain lks o l2 → l1 = l2.
Proof.
  intros H1. revert l2. induction H1 as [|r nxt l Hr _ IH];
    intros l2 H2; inversion H2; simplify_eq; [done|].
  f_equal. by apply IH.
Qed.

(** Linking a fresh node [c] behind the last node of a chain. *)
Lemma is_chain_snoc lks hd l z c :
  NoDup (l ++ [z]) → c = length lks →
  is_chain lks (Some hd) (l ++ [z]) →
  is_chain (<[z := Some c]> (lks ++ [None])) (Some hd) (l ++ [z; c]).
Proof.
  intros Hnd -> H. revert hd Hnd H.
  induction l as [|a l IH]; intros hd Hnd H; simpl in *.
  - inversion H as [|r nxt l' Hr Hnil]; subst. inversion Hnil; subst.
    pose proof (lookup_lt_Some _ _ _ Hr) as Hlt.
    econstructor.
    + apply list_lookup_insert_eq. rewrite length_app. simpl. lia.
    + econstructor; [|constructor].
      rewrite list_lookup_insert_ne by lia.
      by rewrite lookup_app_r, Nat.sub_diag.
  - inversion H as [|r nxt l' Hr Hrest]; subst.
    apply NoDup_cons in Hnd as [Ha Hnd].
    pose proof (lookup_lt_Some _ _ _ Hr) as Hlt.
    destruct nxt as [nx|]; [|destruct l; inversion Hrest].
    econstructor.
    + rewrite list_lookup_insert_ne.
      * by apply lookup_app_l_Some.
      * intros ->. apply Ha, elem_of_app. right. left.
    + by apply IH.
Qed.

Lemma filter_ext_elem {A} (P1 P2 : A → Prop)
    `{!∀ x, Decision (P1 x), !∀ x, Decision (P2 x)} (l : list A) :
  (∀ x, x ∈ l → P1 x ↔ P2 x) → filter P1 l = filter P2 l.
Proof.
  induction l as [|a l IH]; intros Hiff; [done|].
  assert (filter P1 l = filter P2 l) as Hl.
  { apply IH. intros x Hx. apply Hiff. by right. }
  destruct (decide (P1 a)) as [Ha|Ha].
  - rewrite !filter_cons_True, Hl; [done | | done]. apply Hiff; [left | done].
  - rewrite !filter_cons_False, Hl; [done | | done].
    intros Ha'. apply Ha, Hiff; [left | done].
Qed.

Lemma labelled_elem_of nms x i :
  i ∈ labelled nms x ↔ i ≠ 0 ∧ nms !! i = Some x.
Proof.
  unfold labelled. rewrite list_elem_of_filter, elem_of_seq. split.
  - intros [? ?]. split; [lia | done].
  - intros [? Hi]. split; [done|]. apply lookup_lt_Some in Hi. lia.
Qed.

Lemma labelled_NoDup nms x : NoDup (labelled nms x).
Proof. apply NoDup_filter, NoDup_seq. Qed.

Lemma labelled_snoc nms y x :
  nms ≠ [] →
  labelled (nms ++ [y]) x =
  labelled nms x ++ (if decide (y = x) then [length nms] else []).
Proof.
  intros Hne. unfold labelled. rewrite length_app. simpl.
  assert (length nms ≠ 0) by (by destruct nms).
  replace (length nms + 1 - 1) with (S (length nms - 1)) by lia.
  rewrite seq_S, filter_app. f_equal.
  - apply filter_ext_elem. intros i [_ Hi]%elem_of_seq.
    by rewrite lookup_app_l by lia.
  - replace (1 + (length nms - 1)) with (length nms) by lia.
    destruct (decide (y = x)) as [->|Hyx].
    + rewrite filter_cons_True; [done|]. by rewrite lookup_app_r, Nat.sub_diag.
    + rewrite filter_cons_False; [done|].
      rewrite lookup_app_r, Nat.sub_diag by lia. simpl. congruence.
Qed.

(** * Well-formed trees *)

Lemma names_length ns : length (names ns) = length ns.
Proof. apply length_fmap. Qed.
Lemma parents_length ns : length (parents ns) = length ns.
Proof. apply length_fmap. Qed.
Lemma links_length ns : length (links ns) = length ns.
Proof. apply length_fmap. Qed.
Lemma kids_length ns : length (kids ns) = length ns.
Proof. apply length_fmap. Qed.

Lemma wf_parent_closed t i p :
  wf t → parents (nodes t) !! i = Some (Some p) → p < length (parents (nodes t)).
Proof.
  intros Hwf Hi. pose proof (lookup_lt_Some _ _ _ Hi) as Hlt.
  rewrite parents_length in *.
  destruct (decide (i = 0)) as [->|Hne].
  - pose proof (wf_top _ Hwf) as H0. congruence.
  - destruct (wf_parent _ Hwf i) as (p' & Hp' & ?); [lia|]. simplify_eq. lia.
Qed.

Lemma wf_above_root t r :
  wf t → r < length (nodes t) →
  ∃ l, above_root (names (nodes t)) (parents (nodes t)) r l ∧ length l ≤ r.
Proof.
  intros Hwf Hr. apply above_root_exists.
  - by rewrite names_length, parents_length.
  - apply Hwf.
  - rewrite parents_length. apply Hwf.
  - by rewrite parents_length.
Qed.

(** A tree with the same header and the same shape is as well formed. *)
Lemma wf_same_shape t t' :
  wf t → root t' = root t → headerTable t' = headerTable t →
  names (nodes t') = names (nodes t) → parents (nodes t') = parents (nodes t) →
  links (nodes t') = links (nodes t) → kids (nodes t') = kids (nodes t) →
  wf t'.
Proof.
  intros [] Hr Hh Hn Hp Hl Hk.
  assert (length (nodes t') = length (nodes t)) as Hlen.
  { by rewrite <-!names_length, Hn. }
  constructor; rewrite ?Hr, ?Hh, ?Hn, ?Hp, ?Hl, ?Hk, ?Hlen; done.
Qed.

Lemma wf_inc t c nc cnt :
  wf t → nodes t !! c = Some nc →
  wf (with_nodes t (<[c := inc nc cnt]> (nodes t))).
Proof.
  intros Hwf Hc. eapply wf_same_shape; [done | done.. | | | |]; simpl;
    by eapply proj_insert.
Qed.

Lemma wf_log_call t items : wf t → wf (log_call t items).
Proof. intros Hwf. by eapply wf_same_shape. Qed.

(** The tree after a new child [i0] of [inNode] was created at the end of
    the store, whatever was done to link it into its chain. *)
Lemma wf_new_child t t' inNode n i0 pth :
  wf t → nodes t !! inNode = Some n →
  above_root (names (nodes t)) (parents (nodes t)) inNode pth → i0 ∉ pth →
  is_Some (dict_get item_eqb (headerTable t) i0) →
  root t' = root t →
  (∀ x, is_Some (dict_get item_eqb (headerTable t') x) ↔
        is_Some (dict_get item_eqb (headerTable t) x)) →
  names (nodes t') = names (nodes t) ++ [i0] →
  parents (nodes t') = parents (nodes t) ++ [Some inNode] →
  kids (nodes t') =
    <[inNode := dict_set item_eqb (children n) i0 (length (nodes t))]>
      (kids (nodes t) ++ [[]]) →
  (∀ x e, dict_get item_eqb (headerTable t') x = Some e →
     is_chain (links (nodes t')) e.2 (labelled (names (nodes t) ++ [i0]) x)) →
  wf t'.
Proof.
  intros Hwf Hn Hpth Hi0 Hkey Hr Hh Hnm Hpt Hkd Hch.
  pose proof (lookup_lt_Some _ _ _ Hn) as HinNode.
  assert (length (nodes t') = S (length (nodes t))) as Hlen.
  { rewrite <-!names_length, Hnm, length_app. simpl. lia. }
  assert (length (names (nodes t)) = length (parents (nodes t))) as Hnp.
  { by rewrite names_length, parents_length. }
  constructor.
  - rewrite Hr. apply Hwf.
  - rewrite Hpt. apply lookup_app_l_Some, Hwf.
  - intros i Hi. rewrite Hpt. destruct (decide (i = length (nodes t))) as [->|Hne].
    + exists inNode. split; [|done].
      by rewrite lookup_app_r, parents_length, Nat.sub_diag
        by (rewrite parents_length; lia).
    + destruct (wf_parent _ Hwf i) as (p & Hp & ?); [lia|].
      exists p. split; [by apply lookup_app_l_Some | done].
  - intros i x Hi. rewrite Hnm, Hh. intros Hx.
    apply lookup_app_Some in Hx as [Hx|[_ Hx]].
    + by eapply wf_name.
    + rewrite names_length in Hx.
      apply list_lookup_singleton_Some in Hx as [_ <-]. done.
  - intros i d x c. rewrite Hkd, Hnm, Hpt. intros Hd Hx.
    destruct (decide (i = inNode)) as [->|Hne].
    + rewrite list_lookup_insert_eq in Hd
        by (rewrite length_app, kids_length; simpl; lia).
      simplify_eq. destruct (decide (i0 = x)) as [->|Hx'].
      * rewrite dict_get_set_eq in Hx. simplify_eq.
        rewrite !lookup_app_r, names_length, parents_length, Nat.sub_diag
          by (rewrite ?names_length, ?parents_length; lia).
        done.
      * rewrite dict_get_set_ne in Hx by done.
        destruct (wf_children _ Hwf inNode (children n) x c) as [? ?];
          [by unfold kids; rewrite list_lookup_fmap, Hn | done |].
        split; by apply lookup_app_l_Some.
    + rewrite list_lookup_insert_ne in Hd by done.
      apply lookup_app_Some in Hd as [Hd|[_ Hd]].
      * destruct (wf_children _ Hwf i d x c) as [? ?]; [done.. |].
        split; by apply lookup_app_l_Some.
      * apply list_lookup_singleton_Some in Hd as [_ <-]. done.
  - intros x e He. rewrite Hnm. by apply Hch.
  - intros i l. rewrite Hnm, Hpt. intros Hl.
    destruct (decide (i < length (nodes t))) as [Hi|Hi].
    + eapply wf_path; [done|]. eapply above_root_app_inv, Hl; [done | |].
      * intros ??. by apply wf_parent_closed.
      * by rewrite parents_length.
    + inversion Hl as [r Hr' | r p x l' Hr' Hx Hl']; subst.
      * apply lookup_app_Some in Hr' as [Hr'|[_ Hr']].
        -- apply lookup_lt_Some in Hr'. rewrite parents_length in Hr'. lia.
        -- by apply list_lookup_singleton_Some in Hr' as [_ ?].
      * apply lookup_app_Some in Hr' as [Hr'|[_ Hr']].
        { apply lookup_lt_Some in Hr'. rewrite parents_length in Hr'. lia. }
        apply list_lookup_singleton_Some in Hr' as [Hieq [= <-]].
        rewrite parents_length in Hieq.
        assert (i = length (nodes t)) as -> by lia.
        rewrite lookup_app_r, names_length, Nat.sub_diag in Hx
          by (rewrite names_length; lia).
        simpl in Hx. simplify_eq.
        apply above_root_app_inv in Hl'; [| done | | by rewrite parents_length].
        2:{ intros ??. by apply wf_parent_closed. }
        rewrite (above_root_functional _ _ _ _ _ Hl' Hpth).
        apply NoDup_cons. split; [done|]. by eapply wf_path.
Qed.

(** * [updateHeader] and [updateTree] preserve well-formedness *)

Lemma lookup_proj {B} (f : TreeNode → B) (ns : list TreeNode) (i : nat) (b : B) :
  (f <$> ns) !! i = Some b ↔ ∃ n, ns !! i = Some n ∧ f n = b.
Proof.
  rewrite list_lookup_fmap, fmap_Some. split; intros (n & ? & ?); eauto.
Qed.

Lemma chain_end_spec ns fuel hd l z :
  is_chain (links ns) (Some hd) (l ++ [z]) → length l < fuel →
  chain_end fuel ns hd = Ok z.
Proof.
  revert hd l. induction fuel as [|fuel IH]; intros hd l H Hlen; [lia|].
  inversion H as [|r nxt l' Hr Hrest Heq]; subst.
  apply lookup_proj in Hr as (n & Hn & <-).
  simpl. unfold node_at. rewrite Hn. simpl.
  destruct l as [|a l]; simpl in *; simplify_eq.
  - inversion Hrest; subst. done.
  - inversion Hrest as [|r' nxt' l'' Hr' Hrest' Heq']; subst.
    + by destruct l.
    + apply (IH r' l); [|lia]. by rewrite Heq'.
Qed.

Lemma header_counts_keys t : dict_keys (headerTable t) = (header_counts t).*1.
Proof.
  unfold dict_keys, header_counts. rewrite <-list_fmap_compose.
  by apply list_fmap_ext.
Qed.

Lemma header_counts_set (h : list (item * (Z * option ref))) k e v :
  dict_get item_eqb h k = Some e → v.1 = e.1 →
  (λ kv, (kv.1, kv.2.1)) <$> dict_set item_eqb h k v =
  (λ kv : item * (Z * option ref), (kv.1, kv.2.1)) <$> h.
Proof.
  intros He Hv. induction h as [|[k0 v0] h IH]; simpl in He; [done|].
  simpl. destruct (item_eqb k0 k) eqn:E; csimpl.
  - simplify_eq. by rewrite Hv.
  - by rewrite IH.
Qed.

Lemma header_counts_is_Some t t' x :
  header_counts t' = header_counts t →
  is_Some (dict_get item_eqb (headerTable t') x) ↔
  is_Some (dict_get item_eqb (headerTable t) x).
Proof.
  intros H. by rewrite <-!dict_keys_is_Some, !header_counts_keys, H.
Qed.

Lemma updateTree_unfold i0 rest inNode cnt t :
  updateTree (i0 :: rest) inNode cnt t =
  let t := log_call t (i0 :: rest) in
  do n <- node_at (nodes t) inNode;
  do t1 <- updateTree_first i0 inNode cnt t n;
  if (1 <? length (i0 :: rest))%nat then
    do n' <- node_at (nodes t1) inNode;
    do c <- of_option KeyError (dict_get item_eqb (children n') i0);
    updateTree rest c cnt t1
  else Ok t1.
Proof. reflexivity. Qed.

Lemma new_child_projs (ns : list TreeNode) inNode n i0 cnt :
  ns !! inNode = Some n →
  let ns2 := <[inNode := set_child n i0 (length ns)]>
               (ns ++ [TreeNode_init i0 cnt (Some inNode)]) in
  names ns2 = names ns ++ [i0] ∧
  parents ns2 = parents ns ++ [Some inNode] ∧
  links ns2 = links ns ++ [None] ∧
  kids ns2 = <[inNode := dict_set item_eqb (children n) i0 (length ns)]>
               (kids ns ++ [[]]).
Proof.
  intros Hn ns2. subst ns2. unfold names, parents, links, kids.
  assert ((ns ++ [TreeNode_init i0 cnt (Some inNode)]) !! inNode = Some n) as Hn'
    by by apply lookup_app_l_Some.
  rewrite !(proj_insert _ _ _ _ _ Hn') by done.
  rewrite list_fmap_insert, !fmap_app. done.
Qed.

Lemma increasing_cons x l :
  increasing (x :: l) ↔ (∀ b, b ∈ l → x < b) ∧ increasing l.
Proof.
  split.
  - intros H. split.
    + intros b [j Hj]%list_elem_of_lookup. by apply (H 0 (S j)); [lia|..].
    + intros i j a b Hij Ha Hb. by apply (H (S i) (S j)); [lia|..].
  - intros [Hx Hl] i j a b Hij Ha Hb. destruct j as [|j]; [lia|].
    destruct i as [|i]; simpl in *.
    + simplify_eq. apply Hx. by eapply list_elem_of_lookup_2.
    + by apply (Hl i j); [lia|..].
Qed.

Lemma increasing_seq start len : increasing (seq start len).
Proof.
  intros i j a b Hij [-> _]%lookup_seq [-> _]%lookup_seq. lia.
Qed.

Lemma increasing_filter (P : nat → Prop) `{!∀ x, Decision (P x)} l :
  increasing l → increasing (filter P l).
Proof.
  induction l as [|x l IH]; [done|]. intros [Hx Hl]%increasing_cons.
  rewrite filter_cons. destruct (decide (P x)); [|by apply IH].
  apply increasing_cons. split; [|by apply IH].
  intros b [_ Hb]%list_elem_of_filter. by apply Hx.
Qed.

Lemma labelled_increasing nms x : increasing (labelled nms x).
Proof. apply increasing_filter, increasing_seq. Qed.

Lemma labelled_length nms x : length (labelled nms x) ≤ length nms - 1.
Proof.
  unfold labelled. etrans; [apply length_filter|]. by rewrite length_seq.
Qed.

Lemma new_child_reach (ns ns' : list TreeNode) inNode n i0 pth :
  names ns' = names ns ++ [i0] →
  parents ns' = parents ns ++ [Some inNode] →
  kids ns' = <[inNode := dict_set item_eqb (children n) i0 (length ns)]>
               (kids ns ++ [[]]) →
  ns !! inNode = Some n →
  above_root (names ns) (parents ns) inNode pth →
  ∃ n' c, ns' !! inNode = Some n' ∧
          dict_get item_eqb (children n') i0 = Some c ∧
          above_root (names ns') (parents ns') c (i0 :: pth).
Proof.
  intros En Ep Ek Hn Hpth.
  pose proof (lookup_lt_Some _ _ _ Hn) as Hlt.
  assert (kids ns' !! inNode =
          Some (dict_set item_eqb (children n) i0 (length ns))) as Hk.
  { rewrite Ek. apply list_lookup_insert_eq.
    rewrite length_app, kids_length. simpl. lia. }
  apply lookup_proj in Hk as (n' & Hn' & Hch).
  exists n', (length ns). split; [done|]. split.
  - rewrite Hch. apply dict_get_set_eq.
  - rewrite En, Ep. eapply above_root_step.
    + by rewrite lookup_app_r, parents_length, Nat.sub_diag
        by (rewrite parents_length; lia).
    + by rewrite lookup_app_r, names_length, Nat.sub_diag
        by (rewrite names_length; lia).
    + apply above_root_app; [|done]. by rewrite names_length, parents_length.
Qed.

Lemma updateTree_first_wf t inNode n i0 cnt pth :
  wf t → nodes t !! inNode = Some n →
  above_root (names (nodes t)) (parents (nodes t)) inNode pth → i0 ∉ pth →
  is_Some (dict_get item_eqb (headerTable t) i0) →
  ∃ t1, updateTree_first i0 inNode cnt t n = Ok t1 ∧ wf t1 ∧
        header_counts t1 = header_counts t ∧ calls t1 = calls t ∧
        ∃ n' c, nodes t1 !! inNode = Some n' ∧
                dict_get item_eqb (children n') i0 = Some c ∧
                above_root (names (nodes t1)) (parents (nodes t1)) c (i0 :: pth).
Proof.
  intros Hwf Hn Hpth Hi0 [e He]. unfold updateTree_first.
  destruct (dict_get item_eqb (children n) i0) as [c|] eqn:Hc.
  - (* the child exists: its count is bumped *)
    destruct (wf_children _ Hwf inNode (children n) i0 c) as [Hcn Hcp];
      [apply lookup_proj; eauto | done |].
    pose proof Hcn as Hcn'. apply lookup_proj in Hcn' as (nc & Hnc & Hname).
    unfold node_at. rewrite Hnc. simpl.
    assert (names (<[c:=inc nc cnt]> (nodes t)) = names (nodes t)) as En
      by by eapply proj_insert.
    assert (parents (<[c:=inc nc cnt]> (nodes t)) = parents (nodes t)) as Ep
      by by eapply proj_insert.
    assert (kids (<[c:=inc nc cnt]> (nodes t)) = kids (nodes t)) as Ek
      by by eapply proj_insert.
    eexists. split; [done|]. split; [by apply wf_inc|].
    split; [done|]. split; [done|]. simpl.
    assert (kids (<[c:=inc nc cnt]> (nodes t)) !! inNode = Some (children n))
      as (n' & Hn' & Hch)%lookup_proj.
    { rewrite Ek. apply lookup_proj. eauto. }
    exists n', c. split; [done|]. split; [by rewrite Hch|].
    rewrite En, Ep. by eapply above_root_step.
  - (* a new child is created at the end of the store *)
    rewrite He. simpl.
    destruct (new_child_projs (nodes t) inNode n i0 cnt Hn) as (En & Ep & El & Ek).
    set (ns2 := <[inNode := set_child n i0 (length (nodes t))]>
                  (nodes t ++ [TreeNode_init i0 cnt (Some inNode)])) in *.
    pose proof (wf_chain _ Hwf i0 e He) as Hchain.
    assert (names (nodes t) ≠ []) as Hne.
    { intros H0. apply lookup_lt_Some in Hn.
      rewrite <-names_length, H0 in Hn. simpl in Hn. lia. }
    assert (∀ x e', x ≠ i0 → dict_get item_eqb (headerTable t) x = Some e' →
              ∀ lks, (∀ i, i ∈ labelled (names (nodes t)) x →
                           lks !! i = links (nodes t) !! i) →
              is_chain lks e'.2 (labelled (names (nodes t) ++ [i0]) x)) as Hother.
    { intros x e' Hx He' lks Hlks. rewrite labelled_snoc by done.
      rewrite decide_False, app_nil_r by done.
      eapply is_chain_frame, wf_chain; done. }
    destruct (e.2) as [hd|] eqn:Ehd.
    + (* the chain exists: the new node is linked behind its last node *)
      destruct (exists_last (l:=labelled (names (nodes t)) i0)) as (l & z & Hlz).
      { intros E0. rewrite E0 in Hchain. inversion Hchain. }
      rewrite Hlz in Hchain.
      assert (z < length (nodes t)) as Hz.
      { rewrite <-links_length. eapply is_chain_lt; [done|].
        apply elem_of_app. right. left. }
      assert (names (nodes t) !! z = Some i0) as Hzname.
      { eapply labelled_elem_of. rewrite Hlz. apply elem_of_app. right. left. }
      assert (is_chain (links ns2) (Some hd) (l ++ [z])) as Hchain2.
      { eapply is_chain_frame, Hchain. intros i Hi. rewrite El.
        apply lookup_app_l. by eapply is_chain_lt. }
      unfold updateHeader.
      rewrite (chain_end_spec ns2 _ hd l z Hchain2).
      2:{ pose proof (labelled_length (names (nodes t)) i0) as Hll.
          rewrite Hlz, length_app, names_length in Hll. simpl in Hll.
          rewrite <-(names_length ns2), En, length_app, names_length.
          simpl. lia. }
      simpl.
      destruct (lookup_lt_is_Some_2 ns2 z) as [nz Hnz].
      { rewrite <-(names_length ns2), En, length_app, names_length. simpl. lia. }
      unfold node_at. rewrite Hnz. simpl.
      set (ns3 := <[z := set_nodeLink nz (Some (length (nodes t)))]> ns2).
      assert (names ns3 = names ns2) as En3 by by eapply proj_insert.
      assert (parents ns3 = parents ns2) as Ep3 by by eapply proj_insert.
      assert (kids ns3 = kids ns2) as Ek3 by by eapply proj_insert.
      assert (links ns3 = <[z := Some (length (nodes t))]> (links (nodes t) ++ [None]))
        as El3.
      { unfold ns3, links at 1. by rewrite list_fmap_insert, <-El. }
      rewrite <-En3 in En. rewrite <-Ep3 in Ep. rewrite <-Ek3 in Ek.
      eexists. split; [done|]. split; [|split; [done|split; [done|]]].
      * eapply (wf_new_child t (with_nodes t ns3)); try done.
        simpl. intros x e' He'. rewrite El3.
        destruct (decide (x = i0)) as [->|Hx].
        -- simplify_eq. rewrite Ehd. rewrite labelled_snoc by done.
           rewrite decide_True, Hlz, <-app_assoc, names_length by done. simpl.
           apply is_chain_snoc; [|by rewrite links_length|done].
           rewrite <-Hlz. apply labelled_NoDup.
        -- apply Hother; [done.. |]. intros i Hi.
           apply labelled_elem_of in Hi as [_ Hi].
           rewrite list_lookup_insert_ne by congruence.
           apply lookup_app_l. rewrite links_length.
           apply lookup_lt_Some in Hi. by rewrite names_length in Hi.
      * simpl. by eapply new_child_reach.
    + (* the chain is empty: the new node becomes its head *)
      assert (labelled (names (nodes t)) i0 = []) as Hl0 by by inversion Hchain.
      eexists. split; [done|]. split; [|split; [|split; [done|]]].
      * eapply (wf_new_child t (mkFPTree _ _ ns2 _)); try done.
        -- simpl. intros x. rewrite <-!dict_keys_is_Some.
           by rewrite dict_keys_set_present.
        -- simpl. intros x e' He'. rewrite El.
           destruct (decide (x = i0)) as [->|Hx].
           ++ rewrite dict_get_set_eq in He'. simplify_eq. simpl.
              rewrite labelled_snoc by done.
              rewrite decide_True, Hl0, names_length by done. simpl.
              econstructor; [|constructor].
              by rewrite lookup_app_r, links_length, Nat.sub_diag
                by (rewrite links_length; lia).
           ++ rewrite dict_get_set_ne in He' by done.
              apply Hother; [done.. |]. intros i Hi.
              apply labelled_elem_of in Hi as [_ Hi].
              apply lookup_app_l. rewrite links_length.
              apply lookup_lt_Some in Hi. by rewrite names_length in Hi.
      * unfold header_counts. simpl. by eapply header_counts_set.
      * simpl. by eapply new_child_reach.
Qed.

Lemma above_root_lt nms pts r l : above_root nms pts r l → r < length pts.
Proof. destruct 1; by eapply lookup_lt_Some. Qed.

Lemma updateTree_wf items : ∀ inNode cnt t pth,
  wf t →
  above_root (names (nodes t)) (parents (nodes t)) inNode pth →
  NoDup items →
  (∀ x, x ∈ items → is_Some (dict_get item_eqb (headerTable t) x) ∧ x ∉ pth) →
  items ≠ [] →
  ∃ t', updateTree items inNode cnt t = Ok t' ∧ wf t' ∧
        header_counts t' = header_counts t ∧
        ∃ cs, calls t' = cs ++ calls t ∧ Forall (λ c, c ≠ []) cs.
Proof.
  induction items as [|i0 rest IH]; intros inNode cnt t pth Hwf Hpth Hnd Hin Hne;
    [done|].
  rewrite updateTree_unfold. cbv zeta.
  destruct (lookup_lt_is_Some_2 (nodes t) inNode) as [n Hn].
  { rewrite <-parents_length. by eapply above_root_lt. }
  change (nodes (log_call t (i0 :: rest))) with (nodes t).
  unfold node_at at 1. rewrite Hn. simpl bind.
  destruct (Hin i0) as [Hkey Hfresh]; [left|].
  destruct (updateTree_first_wf (log_call t (i0 :: rest)) inNode n i0 cnt pth)
    as (t1 & -> & Hwf1 & Hhc & Hcalls & n' & c & Hn' & Hc & Hpth');
    [by apply wf_log_call | done.. |].
  simpl bind. apply NoDup_cons in Hnd as [Hi0 Hnd].
  destruct (1 <? S (length rest)) eqn:Hlen.
  - apply Nat.ltb_lt in Hlen.
    unfold node_at. rewrite Hn'. simpl bind. rewrite Hc. simpl bind.
    destruct (IH c cnt t1 (i0 :: pth)) as (t' & -> & Hwf' & Hhc' & cs & Hcs & Hall);
      [done.. | | |].
    + intros x Hx. destruct (Hin x) as [Hk Hp]; [by right|]. split.
      * by apply (header_counts_is_Some (log_call t (i0 :: rest))).
      * apply not_elem_of_cons. split; [|done]. intros ->. done.
    + intros ->. simpl in Hlen. lia.
    + exists t'. split; [done|]. split; [done|]. split; [by rewrite Hhc'|].
      exists (cs ++ [i0 :: rest]). rewrite Hcs, Hcalls, <-app_assoc.
      split; [done|]. apply Forall_app. split; [done|].
      by apply Forall_singleton.
  - exists t1. split; [done|]. split; [done|]. split; [done|].
    exists [i0 :: rest]. rewrite Hcalls. split; [done|].
    by apply Forall_singleton.
Qed.

(** * Sorting *)

Section SortedFacts.
Context {A : Type} (key : A → Z).

Lemma insert_asc_perm x l : insert_asc key x l ≡ₚ x :: l.
Proof.
  induction l as [|y l IH]; simpl; [done|].
  destruct (key x <=? key y)%Z; [done|]. by rewrite IH, Permutation_swap.
Qed.

Lemma insert_desc_perm x l : insert_desc key x l ≡ₚ x :: l.
Proof.
  induction l as [|y l IH]; simpl; [done|].
  destruct (key y <=? key x)%Z; [done|]. by rewrite IH, Permutation_swap.
Qed.

Lemma sorted_perm l : sorted key l ≡ₚ l.
Proof.
  induction l as [|x l IH]; simpl; [done|].
  by rewrite insert_asc_perm, IH.
Qed.

Lemma sorted_rev_perm l : sorted_rev key l ≡ₚ l.
Proof.
  induction l as [|x l IH]; simpl; [done|].
  by rewrite insert_desc_perm, IH.
Qed.






Lemma descending_cons x l :
  descending key (x :: l) ↔ (∀ b, b ∈ l → (key b ≤ key x)%Z) ∧ descending key l.
Proof.
  split.
  - intros H. split.
    + intros b [j Hj]%list_elem_of_lookup. by apply (H 0 (S j)); [lia|..].
    + intros i j a b Hij Ha Hb. by apply (H (S i) (S j)); [lia|..].
  - intros [Hx Hl] i j a b Hij Ha Hb. destruct j as [|j]; [lia|].
    destruct i as [|i]; simpl in *.
    + simplify_eq. apply Hx. by eapply list_elem_of_lookup_2.
    + by apply (Hl i j); [lia|..].
Qed.


Lemma insert_desc_descending x l : descending key l → descending key (insert_desc key x l).
Proof.
  induction l as [|y l IH]; simpl; intros Hl.
  - apply descending_cons. split; [by intros ? ?%elem_of_nil | done].
  - apply descending_cons in Hl as [Hy Hl].
    destruct (key y <=? key x)%Z eqn:E.
    + apply Z.leb_le in E. apply descending_cons. split.
      * intros b [->|Hb]%elem_of_cons; [done|]. specialize (Hy b Hb). lia.
      * by apply descending_cons.
    + apply Z.leb_gt in E. apply descending_cons. split; [|by apply IH].
      intros b Hb. rewrite insert_desc_perm in Hb.
      apply elem_of_cons in Hb as [->|Hb]; [lia | by apply Hy].
Qed.


Lemma sorted_rev_descending l : descending key (sorted_rev key l).
Proof.
  induction l as [|x l IH]; simpl; [by intros ???? _ ?|].
  by apply insert_desc_descending.
Qed.
End SortedFacts.

(** * [FPTree.__init__] always returns a well-formed tree *)

Lemma dict_keys_set_elem {V} (d : list (item * V)) k v x :
  x ∈ dict_keys (dict_set item_eqb d k v) ↔ x ∈ dict_keys d ∨ x = k.
Proof.
  destruct (dict_get item_eqb d k) eqn:E.
  - rewrite dict_keys_set_present by eauto. split; [by left|].
    intros [?| ->]; [done|]. by eapply dict_get_Some_keys.
  - rewrite dict_keys_set_absent, elem_of_app, list_elem_of_singleton by done.
    done.
Qed.

Lemma count_items_from_NoDup (T : list (frozenset * Z)) (h : list (item * Z)) :
  NoDup (dict_keys h) →
  NoDup (dict_keys (fold_left
    (fun h '(trans, c) =>
       fold_left
         (fun h it => dict_set item_eqb h it (default 0%Z (dict_get item_eqb h it) + c)%Z)
         trans h) T h)).
Proof.
  revert h. induction T as [|[trans c] T IH]; intros h Hh; simpl; [done|].
  apply IH. clear IH. revert h Hh.
  induction trans as [|it trans IH]; intros h Hh; simpl; [done|].
  by apply IH, dict_keys_set_NoDup.
Qed.

Lemma count_items_NoDup T : NoDup (dict_keys (count_items T)).
Proof. apply count_items_from_NoDup. constructor. Qed.

Lemma NoDup_filter_keys {V} (P : item * V → Prop) `{!∀ x, Decision (P x)}
    (d : list (item * V)) :
  NoDup (dict_keys d) → NoDup (dict_keys (filter P d)).
Proof.
  induction d as [|[k v] d IH]; [done|]. unfold dict_keys in *. csimpl.
  intros [Hk Hd]%NoDup_cons. rewrite filter_cons.
  destruct (decide (P (k, v))); [|by apply IH].
  csimpl. apply NoDup_cons. split; [|by apply IH].
  intros (kv & -> & [_ Hin]%list_elem_of_filter)%list_elem_of_fmap.
  apply Hk, list_elem_of_fmap. eauto.
Qed.

Lemma prune_NoDup minSup T : NoDup (dict_keys (prune minSup (count_items T))).
Proof. apply NoDup_filter_keys, count_items_NoDup. Qed.

(** A tree that only has its root is well formed when no chain has a head. *)
Lemma wf_initial (h : list (item * (Z * option ref))) rootNode cs :
  parent rootNode = None → children rootNode = [] →
  (∀ kv, kv ∈ h → kv.2.2 = None) →
  wf (mkFPTree h 0 [rootNode] cs).
Proof.
  intros Hp Hc Hh. constructor; simpl.
  - done.
  - by rewrite Hp.
  - intros i Hi. lia.
  - intros [|i] x Hi; [done|]. by destruct i.
  - intros [|[|i]] d x c Hd; simplify_eq/=. by rewrite Hc.
  - intros x e He%dict_get_elem_of. apply Hh in He. simpl in He.
    rewrite He. constructor.
  - intros i l Hl. inversion Hl as [|r p x l' Hr]; subst; [constructor|].
    destruct i as [|[|i]]; simplify_eq/=.
Qed.

Lemma localD_of_spec t freqItemSet trans :
  (∀ x, x ∈ freqItemSet → is_Some (dict_get item_eqb (headerTable t) x)) →
  ∃ d, localD_of t freqItemSet trans = Ok d ∧ NoDup (dict_keys d) ∧
       ∀ x, x ∈ dict_keys d → x ∈ freqItemSet.
Proof.
  intros Hfreq. unfold localD_of.
  apply (for_each_inv
           (λ d : list (item * Z), NoDup (dict_keys d) ∧
                  ∀ x, x ∈ dict_keys d → x ∈ freqItemSet)).
  - intros d it _ [Hnd Hsub]. unfold mem. case_bool_decide as Hin.
    + destruct (Hfreq it Hin) as [e He]. rewrite He. simpl.
      eexists. split; [done|]. split; [by apply dict_keys_set_NoDup|].
      intros x [?| ->]%dict_keys_set_elem; [by apply Hsub | done].
    + eauto.
  - split; [constructor | by intros ? ?%elem_of_nil].
Qed.

Lemma orderedItems_of_perm localD : orderedItems_of localD ≡ₚ dict_keys localD.
Proof. unfold orderedItems_of, dict_keys. by rewrite sorted_rev_perm. Qed.

Lemma FPTree_init_spec transactions minSup :
  ∃ t, FPTree_init transactions minSup = Ok t ∧ wf t ∧
       header_counts t = prune minSup (count_items transactions) ∧
       Forall (λ c, c ≠ []) (calls t).
Proof.
  unfold FPTree_init.
  set (h := prune minSup (count_items transactions)).
  destruct (length (dict_keys h) =? 0) eqn:Hlen.
  - apply Nat.eqb_eq in Hlen. unfold dict_keys in Hlen.
    rewrite length_fmap in Hlen. apply nil_length_inv in Hlen.
    eexists. split; [done|]. split; [|by rewrite Hlen].
    apply wf_initial; [done.. |]. by intros ? ?%elem_of_nil.
  - set (t0 := mkFPTree _ _ _ _).
    assert (header_counts t0 = h) as Hh0.
    { unfold header_counts, t0. simpl. rewrite <-list_fmap_compose.
      rewrite <-(list_fmap_id h) at 2. apply list_fmap_ext. by intros _ [??] _. }
    destruct (for_each_inv
      (λ t, wf t ∧ header_counts t = h ∧ Forall (λ c, c ≠ []) (calls t))
      transactions
      (fun t '(trans, cnt) =>
         do localD <- localD_of t (dict_keys h) trans;
         if (0 <? length localD)%nat then
           updateTree (orderedItems_of localD) (root t) cnt t
         else Ok t) ) with t0 as (t & Ht & Hwf & Hhc & Hcalls); [| |by eauto].
    + intros t [trans cnt] _ (Hwf & Hhc & Hcalls).
      assert (∀ x, x ∈ dict_keys h →
                is_Some (dict_get item_eqb (headerTable t) x)) as Hkeys.
      { intros x Hx. apply dict_keys_is_Some.
        by rewrite header_counts_keys, Hhc. }
      destruct (localD_of_spec t (dict_keys h) trans Hkeys)
        as (d & -> & Hnd & Hsub).
      simpl bind. destruct (0 <? length d) eqn:Hd; [|by eauto].
      apply Nat.ltb_lt in Hd.
      destruct (updateTree_wf (orderedItems_of d) (root t) cnt t [])
        as (t' & -> & Hwf' & Hhc' & cs & Hcs & Hall).
      * done.
      * rewrite (wf_root _ Hwf). apply above_root_top, Hwf.
      * by rewrite orderedItems_of_perm.
      * intros x Hx. rewrite orderedItems_of_perm in Hx.
        split; [by apply Hkeys, Hsub | apply not_elem_of_nil].
      * intros E. pose proof (Permutation_length (orderedItems_of_perm d)) as Hl.
        rewrite E in Hl. unfold dict_keys in Hl. rewrite length_fmap in Hl.
        simpl in Hl. lia.
      * exists t'. split; [done|]. split; [done|]. split; [congruence|].
        rewrite Hcs. by apply Forall_app.
    + split; [|done]. apply wf_initial; [done.. |].
      by intros kv (? & -> & _)%list_elem_of_fmap.
Qed.

(** * Aggregate counts *)

Lemma count_items_eq transactions : count_items transactions = count_from [] transactions.
Proof. reflexivity. Qed.

Lemma count_trans_keys c trans h x :
  x ∈ dict_keys (fold_left (count_one c) trans h) ↔ x ∈ dict_keys h ∨ x ∈ trans.
Proof.
  revert h. induction trans as [|it trans IH]; intros h; simpl.
  - split; [by left | by intros [?|?%elem_of_nil]].
  - rewrite IH. unfold count_one. rewrite dict_keys_set_elem, elem_of_cons.
    tauto.
Qed.

Lemma count_from_keys T h x :
  x ∈ dict_keys (count_from h T) ↔ x ∈ dict_keys h ∨ occurs T x.
Proof.
  revert h. induction T as [|[trans c] T IH]; intros h; simpl.
  - split; [by left | intros [?|(? & ?%elem_of_nil & _)]; done].
  - unfold count_from in *. simpl. rewrite IH, count_trans_keys. unfold occurs.
    split.
    + intros [[?|?]|(tc & ? & ?)]; [by left | right | right].
      * exists (trans, c). split; [left | done].
      * exists tc. split; [by right | done].
    + intros [?|(tc & [->|?]%elem_of_cons & ?)]; [by left; left | by left; right |].
      right. by exists tc.
Qed.

Lemma count_trans_value c trans h x :
  NoDup trans →
  default 0%Z (dict_get item_eqb (fold_left (count_one c) trans h) x) =
  (default 0 (dict_get item_eqb h x) + (if mem x trans then c else 0))%Z.
Proof.
  revert h. induction trans as [|it trans IH]; intros h Hnd; cbn [fold_left].
  - unfold mem. rewrite bool_decide_eq_false_2 by apply not_elem_of_nil. lia.
  - apply NoDup_cons in Hnd as [Hit Hnd]. rewrite IH by done.
    unfold count_one, mem. destruct (decide (it = x)) as [->|Hne].
    + rewrite dict_get_set_eq. simpl.
      rewrite bool_decide_eq_false_2 by done.
      rewrite bool_decide_eq_true_2 by left. lia.
    + rewrite dict_get_set_ne by done.
      destruct (decide (x ∈ trans)) as [Hx|Hx].
      * rewrite !bool_decide_eq_true_2; [done | by right | done].
      * rewrite !bool_decide_eq_false_2; [done | | done].
        intros [?|?]%elem_of_cons; congruence.
Qed.

Lemma count_from_value T h x :
  Forall (λ tc, NoDup tc.1) T →
  default 0%Z (dict_get item_eqb (count_from h T) x) =
  (default 0 (dict_get item_eqb h x) + aggregate T x)%Z.
Proof.
  revert h. induction T as [|[trans c] T IH]; intros h HT; simpl; [lia|].
  apply Forall_cons in HT as [Htr HT]. unfold count_from in *. simpl.
  rewrite IH, count_trans_value by done. destruct (mem x trans); lia.
Qed.

Lemma aggregate_nonzero_occurs T x : aggregate T x ≠ 0%Z → occurs T x.
Proof.
  induction T as [|[trans c] T IH]; simpl; [done|].
  unfold mem. case_bool_decide as Hx.
  - intros _. exists (trans, c). split; [left | done].
  - intros (tc & ? & ?)%IH. exists tc. split; [by right | done].
Qed.

(** The header table of the tree built from [transactions]. *)
Lemma header_entry_frequent T minSup x :
  Forall (λ tc, NoDup tc.1) T →
  x ∈ dict_keys (prune minSup (count_items T)) ↔
  occurs T x ∧ (minSup ≤ aggregate T x)%Z.
Proof.
  intros HT. unfold dict_keys, prune. rewrite list_elem_of_fmap.
  pose proof (count_from_value T [] x HT) as Hval. simpl in Hval.
  pose proof (count_from_keys T [] x) as Hkeys.
  rewrite <-count_items_eq in *. split.
  - intros ([k v] & -> & [Hv Hin]%list_elem_of_filter). simpl in *.
    apply dict_elem_of_get in Hin; [|apply count_items_NoDup].
    rewrite Hin in Hval. simpl in Hval. split; [|lia].
    destruct (proj1 Hkeys) as [?%elem_of_nil|?]; [|done..].
    by eapply dict_get_Some_keys.
  - intros [Hocc Hsup].
    destruct (proj1 (dict_keys_is_Some (count_items T) x)) as [v Hv].
    { apply Hkeys. by right. }
    rewrite Hv in Hval. simpl in Hval.
    exists (x, v). split; [done|]. apply list_elem_of_filter. simpl.
    split; [lia | by apply dict_get_elem_of].
Qed.

(** * Walking chains and ascending to the root *)

Lemma follow_chain_spec ns fuel o l :
  is_chain (links ns) o l → length l ≤ fuel → follow_chain fuel ns o = Ok l.
Proof.
  intros H. revert fuel. induction H as [|r nxt l Hr _ IH]; intros fuel Hlen.
  - by destruct fuel.
  - destruct fuel as [|fuel]; simpl in *; [lia|].
    apply lookup_proj in Hr as (n & Hn & <-).
    unfold node_at. rewrite Hn. simpl. rewrite IH by lia. done.
Qed.

Lemma ascendTree_spec ns fuel r l acc :
  above_root (names ns) (parents ns) r l → length l < fuel →
  ascendTree fuel ns r acc = Ok (acc ++ l).
Proof.
  intros H. revert fuel acc.
  induction H as [r Hr | r p x l Hr Hx _ IH]; intros fuel acc Hlen;
    (destruct fuel as [|fuel]; simpl in *; [lia|]).
  - apply lookup_proj in Hr as (n & Hn & Hp).
    unfold node_at. rewrite Hn. simpl. rewrite Hp. by rewrite app_nil_r.
  - apply lookup_proj in Hr as (n & Hn & Hp).
    apply lookup_proj in Hx as (n' & Hn' & Hx). simplify_eq.
    unfold node_at. rewrite Hn. simpl. rewrite Hp, IH by lia.
    by rewrite <-app_assoc.
Qed.

Lemma above_root_labels nms pts r l x :
  pts !! 0 = Some None →
  above_root nms pts r l → x ∈ l → ∃ i, i ≠ 0 ∧ nms !! i = Some x.
Proof.
  intros H0. induction 1 as [r Hr | r p y l Hr Hy _ IH];
    [by intros ?%elem_of_nil|].
  intros [->|Hx]%elem_of_cons; [|by apply IH].
  exists r. split; [|done]. intros ->. congruence.
Qed.

Section DictAny.
Context {K V : Type} (eqb : K → K → bool).

Lemma dict_set_elem_of (d : list (K * V)) k0 v0 k v :
  (k, v) ∈ dict_set eqb d k0 v0 →
  (k, v) ∈ d ∨ (v = v0 ∧ (k = k0 ∨ k ∈ dict_keys d)).
Proof.
  induction d as [|[k' v'] d IH]; simpl.
  - intros [= -> ->]%list_elem_of_singleton. right. by split; [|left].
  - destruct (eqb k' k0).
    + intros [[= -> ->]|Hin]%elem_of_cons.
      * right. split; [done|]. right. left.
      * left. by right.
    + intros [[= -> ->]|Hin]%elem_of_cons; [left; left|].
      destruct (IH Hin) as [?|[-> [->|?]]].
      * left. by right.
      * right. by split; [|left].
      * right. split; [done|]. right. by right.
Qed.
End DictAny.

Section PrefixPaths.
Variable frozenset_of : list item → frozenset.

Lemma findPrefixPath_loop_chain ns fuel o l cp :
  is_chain (links ns) o l → length l ≤ fuel →
  findPrefixPath_loop frozenset_of fuel ns o cp =
  for_each l (λ cp r, findPrefixPath_step frozenset_of ns r cp) cp.
Proof.
  intros H. revert fuel cp.
  induction H as [|r nxt l Hr _ IH]; intros fuel cp Hlen.
  - by destruct fuel.
  - destruct fuel as [|fuel]; simpl in *; [lia|].
    destruct (findPrefixPath_step frozenset_of ns r cp) as [cp'|]; [|done].
    simpl. apply lookup_proj in Hr as (n & Hn & <-).
    unfold node_at. rewrite Hn. simpl. apply IH. lia.
Qed.

(** One iteration of the loop, on a node other than the root. *)
Lemma findPrefixPath_step_spec t r cp :
  wf t → 0 < r < length (nodes t) →
  ∃ n p anc,
    nodes t !! r = Some n ∧ parent n = Some p ∧
    above_root (names (nodes t)) (parents (nodes t)) p anc ∧
    above_root (names (nodes t)) (parents (nodes t)) r (name n :: anc) ∧
    findPrefixPath_step frozenset_of (nodes t) r cp =
    Ok (if decide (anc = []) then cp
        else dict_set fs_eqb cp (frozenset_of anc) (count n)).
Proof.
  intros Hwf Hr.
  destruct (wf_parent _ Hwf r Hr) as (p & Hp & Hlt).
  pose proof Hp as (n & Hn & Hpn)%lookup_proj.
  destruct (wf_above_root t p Hwf) as (anc & Hanc & Hlen); [lia|].
  assert (above_root (names (nodes t)) (parents (nodes t)) r (name n :: anc))
    as Hpath.
  { eapply above_root_step; [done | | done]. apply lookup_proj. eauto. }
  exists n, p, anc. split_and!; [done.. |].
  unfold findPrefixPath_step.
  rewrite (ascendTree_spec _ _ _ _ _ Hpath) by (simpl; lia).
  simpl. unfold node_at. rewrite Hn. simpl.
  destruct anc; simpl; done.
Qed.

Lemma findPrefixPath_spec t basePat :
  wf t → is_Some (dict_get item_eqb (headerTable t) basePat) →
  ∃ cp, findPrefixPath frozenset_of t basePat = Ok cp ∧
        ∀ k, k ∈ dict_keys cp → from_chain_node frozenset_of t basePat k.
Proof.
  intros Hwf [e He]. unfold findPrefixPath. rewrite He. simpl.
  pose proof (wf_chain _ Hwf _ _ He) as Hchain.
  rewrite (findPrefixPath_loop_chain _ _ _ _ _ Hchain).
  2:{ pose proof (labelled_length (names (nodes t)) basePat).
      rewrite names_length in *. lia. }
  apply (for_each_inv (λ cp, ∀ k, k ∈ dict_keys cp → from_chain_node frozenset_of t basePat k)).
  - intros cp r Hr Hcp.
    pose proof Hr as [Hr0 Hrx]%labelled_elem_of.
    pose proof (lookup_lt_Some _ _ _ Hrx) as Hrlt. rewrite names_length in Hrlt.
    destruct (findPrefixPath_step_spec t r cp Hwf) as
      (n & p & anc & Hn & Hp & Hanc & _ & ->); [lia|].
    eexists. split; [done|]. destruct (decide (anc = [])) as [|Hne]; [done|].
    intros k ([k' v] & -> & Hin)%list_elem_of_fmap.
    apply dict_set_elem_of in Hin as [Hin|[_ [->|Hin]]].
    + apply Hcp, list_elem_of_fmap. by exists (k', v).
    + exists r, p, anc. split_and!; try done. apply lookup_proj. eauto.
    + by apply Hcp.
  - by intros k ?%elem_of_nil.
Qed.
End PrefixPaths.

(** * The mining recursion is bounded by the number of header entries *)

Lemma vocabulary_occurs T x : x ∈ vocabulary T ↔ occurs T x.
Proof.
  unfold vocabulary, occurs. rewrite elem_of_remove_dups, list_elem_of_join.
  split.
  - intros (l & Hx & ([tr c] & -> & Hin)%list_elem_of_fmap). by exists (tr, c).
  - intros ([tr c] & Hin & Hx). exists tr. split; [done|].
    apply list_elem_of_fmap. by exists (tr, c).
Qed.

Lemma NoDup_length_lt (l k : list item) b :
  NoDup l → (∀ x, x ∈ l → x ∈ k ∧ x ≠ b) → b ∈ k → length l < length k.
Proof.
  intros Hl Hsub Hb.
  assert (b :: l ⊆+ k) as Hlen%submseteq_length; [|simpl in Hlen; lia].
  apply NoDup_submseteq.
  - apply NoDup_cons. split; [|done]. intros Hbl. by destruct (Hsub b Hbl).
  - intros x [->|Hx]%elem_of_cons; [done|]. by apply Hsub.
Qed.

Lemma headerTable_length t : length (headerTable t) = length (header_counts t).
Proof. unfold header_counts. by rewrite length_fmap. Qed.

Lemma prune_keys_subset minSup h x :
  x ∈ dict_keys (prune minSup h) → x ∈ dict_keys h.
Proof.
  unfold dict_keys, prune.
  intros (kv & -> & [_ Hin]%list_elem_of_filter)%list_elem_of_fmap.
  apply list_elem_of_fmap. eauto.
Qed.

Lemma header_keys_occur T minSup t x :
  header_counts t = prune minSup (count_items T) →
  x ∈ dict_keys (headerTable t) → occurs T x.
Proof.
  intros Hhc. rewrite header_counts_keys, Hhc. intros Hx%prune_keys_subset.
  rewrite count_items_eq in Hx.
  by apply count_from_keys in Hx as [?%elem_of_nil|?].
Qed.

Lemma header_length_vocabulary T minSup t :
  header_counts t = prune minSup (count_items T) →
  length (headerTable t) ≤ length (vocabulary T).
Proof.
  intros Hhc. rewrite headerTable_length.
  rewrite <-(length_fmap fst (header_counts t)).
  apply submseteq_length, NoDup_submseteq.
  - rewrite Hhc. apply prune_NoDup.
  - intros x Hx. apply vocabulary_occurs. eapply header_keys_occur; [done|].
    by rewrite header_counts_keys.
Qed.

Section Termination.
Variable frozenset_of : list item → frozenset.
Hypothesis frozenset_of_sub : ∀ l x, x ∈ frozenset_of l → x ∈ l.

(** The conditional tree of [basePat] has fewer header entries. *)
Lemma cond_header_smaller t basePat cp minSup ct :
  wf t → is_Some (dict_get item_eqb (headerTable t) basePat) →
  (∀ k, k ∈ dict_keys cp → from_chain_node frozenset_of t basePat k) →
  header_counts ct = prune minSup (count_items cp) →
  length (headerTable ct) < length (headerTable t).
Proof.
  intros Hwf Hbase Hcp Hhc.
  rewrite <-(length_fmap fst (headerTable ct)), <-(length_fmap fst (headerTable t)).
  apply (NoDup_length_lt _ _ basePat).
  - change (NoDup (dict_keys (headerTable ct))).
    rewrite header_counts_keys, Hhc. apply prune_NoDup.
  - intros x Hx. eapply header_keys_occur in Hx as ([k v] & Hin & Hxk); [|done].
    destruct (Hcp k) as (r & p & anc & Hr & Hp & Hanc & _ & ->).
    { apply list_elem_of_fmap. by exists (k, v). }
    simpl in Hxk. apply frozenset_of_sub in Hxk.
    apply labelled_elem_of in Hr as [Hr0 Hr].
    assert (NoDup (basePat :: anc)) as [Hb _]%NoDup_cons.
    { eapply wf_path; [done|]. by eapply above_root_step. }
    split; [|by intros ->].
    destruct (above_root_labels _ _ _ _ x (wf_top _ Hwf) Hanc Hxk) as (i & Hi & Hix).
    apply dict_keys_is_Some. by eapply wf_name.
  - by apply dict_keys_is_Some.
Qed.

Lemma mineTree_unfold depth t minSup preFix st :
  mineTree frozenset_of depth t minSup preFix st =
  for_each (bigL_of t)
    (fun st basePat =>
       do pre <- of_option Dangling (sets st !! preFix);
       let newFreqSet := length (sets st) in
       let st1 := mkMineState (sets st ++ [pre]) (freqItemList st) in
       do s <- of_option Dangling (sets st1 !! newFreqSet);
       let st2 := mkMineState (<[newFreqSet := set_add s basePat]> (sets st1))
                              (freqItemList st1) in
       let st3 := mkMineState (sets st2) (freqItemList st2 ++ [newFreqSet]) in
       do condPattBases <- findPrefixPath frozenset_of t basePat;
       do myCondTree <- FPTree_init condPattBases minSup;
       if bool_decide (headerTable myCondTree ≠ []) then
         match depth with
         | O => Raise RecursionError
         | S depth' => mineTree frozenset_of depth' myCondTree minSup newFreqSet st3
         end
       else Ok st3)
    st.
Proof. by destruct depth. Qed.

Lemma bigL_of_keys t x : x ∈ bigL_of t ↔ x ∈ dict_keys (headerTable t).
Proof. unfold bigL_of, dict_keys. by rewrite sorted_perm. Qed.

Lemma mineTree_total depth : ∀ t minSup preFix st,
  wf t → length (headerTable t) ≤ S depth →
  preFix < length (sets st) → heap_ok st →
  ∃ st', mineTree frozenset_of depth t minSup preFix st = Ok st' ∧
         length (sets st) ≤ length (sets st') ∧ heap_ok st'.
Proof.
  induction depth as [|depth IH]; intros t minSup preFix st Hwf Hlen Hpre Hok;
    rewrite mineTree_unfold.
  all: apply (for_each_inv
                (λ s, length (sets st) ≤ length (sets s) ∧ heap_ok s));
    [|by split].
  all: intros s basePat Hbase%bigL_of_keys%dict_keys_is_Some [Hgrow Hoks].
  all: destruct (lookup_lt_is_Some_2 (sets s) preFix) as [pre Hp]; [lia|].
  all: rewrite Hp; simpl.
  all: rewrite lookup_app_r, Nat.sub_diag by lia; simpl.
  all: destruct (findPrefixPath_spec frozenset_of t basePat Hwf Hbase)
         as (cp & -> & Hcp); simpl.
  all: destruct (FPTree_init_spec cp minSup) as (ct & -> & Hwfc & Hhc & _); simpl.
  all: pose proof (cond_header_smaller t basePat cp minSup ct Hwf Hbase Hcp Hhc)
         as Hsmaller.
  all: assert (heap_ok
         {| sets := <[length (sets s):=set_add pre basePat]> (sets s ++ [pre]);
            freqItemList := freqItemList s ++ [length (sets s)] |}) as Hok3.
  1,3: unfold heap_ok in *; simpl;
       rewrite length_insert, length_app; simpl;
       apply Forall_app; split;
       [eapply Forall_impl; [done|]; simpl; lia
       |apply Forall_singleton; lia].
  all: case_bool_decide as Hne.
  - destruct (headerTable ct); [done|]. simpl in Hsmaller. lia.
  - eexists. split; [done|]. split; [|done]. simpl.
    rewrite length_insert, length_app. simpl. lia.
  - destruct (IH ct minSup (length (sets s))
                {| sets := <[length (sets s):=set_add pre basePat]> (sets s ++ [pre]);
                   freqItemList := freqItemList s ++ [length (sets s)] |})
      as (st' & -> & Hgrow' & Hok'); [done | lia | | done |].
    + simpl. rewrite length_insert, length_app. simpl. lia.
    + exists st'. split; [done|]. split; [|done]. simpl in Hgrow'.
      rewrite length_insert, length_app in Hgrow'. simpl in Hgrow'. lia.
  - eexists. split; [done|]. split; [|done]. simpl.
    rewrite length_insert, length_app. simpl. lia.
Qed.

Lemma mine_total depth T minSup :
  length (vocabulary T) ≤ S depth →
  ∃ out, mine frozenset_of depth T minSup = Ok out.
Proof.
  intros Hdepth. unfold mine.
  destruct (FPTree_init_spec T minSup) as (t & -> & Hwf & Hhc & _). simpl.
  destruct (mineTree_total depth t minSup 0 (mkMineState [[]] []))
    as (st & -> & _ & Hok); [done | | simpl; lia | by constructor |].
  { etrans; [by eapply header_length_vocabulary | done]. }
  simpl.
  destruct (for_each_inv (λ _ : list (list item), True) (freqItemList st)
              (λ acc r, do s <- of_option Dangling (sets st !! r); Ok (acc ++ [s])) )
    with (@nil (list item)) as (out & -> & _); [| done | by eauto].
  intros acc r Hr _.
  destruct (lookup_lt_is_Some_2 (sets st) r) as [s Hs].
  { unfold heap_ok in Hok. rewrite Forall_forall in Hok. by apply Hok. }
  rewrite Hs. simpl. eauto.
Qed.
End Termination.

(** * The accumulator of the mining driver *)

Lemma appended_only_refl preFix st : appended_only preFix st st.
Proof.
  exists []. rewrite !app_nil_r. split; [done|]. split; [done|].
  by intros k s ?.
Qed.

Lemma appended_only_trans preFix st st1 st2 :
  appended_only preFix st st1 → appended_only preFix st1 st2 →
  appended_only preFix st st2.
Proof.
  intros (n1 & Hs1 & Hf1 & Hn1) (n2 & Hs2 & Hf2 & Hn2).
  exists (n1 ++ n2). rewrite Hs2, Hs1, Hf2, Hf1, Hs1, <-!app_assoc, !length_app.
  split; [done|]. split; [by rewrite seq_app|].
  intros k s Hk. apply lookup_app_Some in Hk as [Hk|[Hge Hk]].
  - destruct (Hn1 k s Hk) as (r & p & x & ? & ? & Hr & ?).
    exists r, p, x. split_and!; try done.
    rewrite app_assoc, <-Hs1. by apply lookup_app_l_Some.
  - destruct (Hn2 _ s Hk) as (r & p & x & Hlt & Hor & Hr & ?).
    rewrite Hs1, length_app in Hlt, Hor.
    exists r, p, x. split_and!; [lia | | | done].
    + destruct Hor as [?|?]; [by left | right; lia].
    + by rewrite app_assoc, <-Hs1, <-Hs2.
Qed.

(** One iteration: a fresh copy of the prefix plus [x] is emitted, then the
    recursive call runs with that new set as its prefix. *)
Lemma appended_only_nest preFix s pre x st3 st' :
  sets s !! preFix = Some pre →
  sets st3 = sets s ++ [set_add pre x] →
  freqItemList st3 = freqItemList s ++ [length (sets s)] →
  appended_only (length (sets s)) st3 st' →
  appended_only preFix s st'.
Proof.
  intros Hpre Hs3 Hf3 (news & Hs' & Hf' & Hn').
  rewrite Hs3 in Hs'. rewrite Hf3, Hs3, length_app in Hf'. simpl in Hf'.
  rewrite Hs3, length_app in Hn'. simpl in Hn'.
  exists (set_add pre x :: news). split_and!.
  - by rewrite Hs', <-app_assoc.
  - rewrite Hf', <-app_assoc. simpl. do 3 f_equal. lia.
  - intros [|k] s0 Hk; simplify_eq/=.
    + exists preFix, pre, x. pose proof (lookup_lt_Some _ _ _ Hpre).
      split_and!; [lia | by left | | done].
      rewrite Hs', <-app_assoc. by apply lookup_app_l_Some.
    + destruct (Hn' k s0 Hk) as (r & p & y & Hlt & Hor & Hr & ->).
      exists r, p, y. split_and!; [lia | right; lia | done..].
Qed.

Section Accumulator.
Variable frozenset_of : list item → frozenset.

Lemma mineTree_appended_only depth : ∀ t minSup preFix st st',
  mineTree frozenset_of depth t minSup preFix st = Ok st' →
  appended_only preFix st st'.
Proof.
  induction depth as [|depth IH]; intros t minSup preFix st st';
    rewrite mineTree_unfold.
  all: apply for_each_post; [|apply appended_only_refl].
  all: intros s basePat s' _ Hs.
  all: intros (pre & Hpre%of_option_Ok & Hbody)%bind_Ok.
  all: cbv zeta in Hbody; cbn [sets freqItemList] in Hbody.
  all: rewrite lookup_app_r, Nat.sub_diag in Hbody by lia; simpl in Hbody.
  all: apply bind_Ok in Hbody as (cp & _ & Hbody).
  all: apply bind_Ok in Hbody as (ct & _ & Hbody).
  all: eapply appended_only_trans; [exact Hs|].
  all: eapply (appended_only_nest preFix s pre basePat); [done | | |].
  all: case_bool_decide; simplify_eq.
  all: try (eapply IH in Hbody).
  all: try exact Hbody.
  all: try apply appended_only_refl.
  all: simpl; try done.
  all: by rewrite insert_app_r_alt, Nat.sub_diag by lia.
Qed.
End Accumulator.

(** * Ties between items of equal count *)

Section KeyOrder.
Context {V : Type} (cnt : V → Z).






End KeyOrder.

Lemma FPTree_init_Ok transactions minSup t :
  FPTree_init transactions minSup = Ok t →
  wf t ∧ header_counts t = prune minSup (count_items transactions) ∧
  Forall (λ c, c ≠ []) (calls t).
Proof.
  intros Ht. destruct (FPTree_init_spec transactions minSup) as (t' & Ht' & H).
  congruence.
Qed.


Lemma frozenset_in_order_sub l x : x ∈ frozenset_in_order l → x ∈ l.
Proof. unfold frozenset_in_order. by rewrite elem_of_remove_dups. Qed.

(** * The counts of the nodes *)

Lemma for_each_prefix {A S} (I : list A → S → Prop) (l : list A)
    (body : S → A → result S) :
  (∀ done x rest st st', l = done ++ x :: rest →
     I done st → body st x = Ok st' → I (done ++ [x]) st') →
  ∀ st st', I [] st → for_each l body st = Ok st' → I l st'.
Proof.
  intros Hbody.
  assert (∀ rest done st st', l = done ++ rest → I done st →
            for_each rest body st = Ok st' → I l st') as Hgen.
  { induction rest as [|x rest IH]; intros done st st' Hl Hst; simpl.
    - intros [= <-]. by rewrite Hl, app_nil_r.
    - intros (st1 & H1 & H2)%bind_Ok.
      apply (IH (done ++ [x]) st1 st'); [by rewrite <-app_assoc | | done].
      by eapply Hbody. }
  intros st st' Hst Hrun. by apply (Hgen l [] st st').
Qed.

Lemma Zsum_app l1 l2 : Zsum (l1 ++ l2) = (Zsum l1 + Zsum l2)%Z.
Proof. induction l1 as [|x l1 IH]; simpl; [done|]. rewrite IH. lia. Qed.

Lemma Zsum_fmap_ext {A} (f g : A → Z) (l : list A) :
  (∀ x, x ∈ l → f x = g x) → Zsum (f <$> l) = Zsum (g <$> l).
Proof.
  induction l as [|x l IH]; intros Hfg; csimpl; [done|].
  rewrite Hfg, IH; [done | | left]. intros y Hy. apply Hfg. by right.
Qed.

(** A sum in which one index gets [v] more. *)
Lemma Zsum_fmap_bump (f g : ref → Z) (l : list ref) ch v :
  NoDup l →
  (∀ r, r ∈ l → g r = (f r + (if decide (r = ch) then v else 0))%Z) →
  Zsum (g <$> l) = (Zsum (f <$> l) + (if decide (ch ∈ l) then v else 0))%Z.
Proof.
  induction l as [|x l IH]; intros Hnd Hg; csimpl.
  - done.
  - apply NoDup_cons in Hnd as [Hx Hnd].
    rewrite Hg, IH by (try done; try left; intros r Hr; apply Hg; by right).
    destruct (decide (x = ch)) as [->|Hne].
    + rewrite (decide_False (P := ch ∈ l)) by done.
      rewrite (decide_True (P := ch ∈ ch :: l)) by left. lia.
    + destruct (decide (ch ∈ l)) as [Hin|Hin].
      * rewrite (decide_True (P := ch ∈ x :: l)) by by right. lia.
      * rewrite (decide_False (P := ch ∈ x :: l)); [lia|].
        intros [?|?]%elem_of_cons; congruence.
Qed.

Lemma labels_above_spec nms pts r l fuel :
  above_root nms pts r l → length l ≤ fuel → labels_above fuel nms pts r = l.
Proof.
  intros H. revert fuel. induction H as [r Hr | r p x l Hr Hx _ IH]; intros fuel Hlen.
  - destruct fuel; simpl; [done|]. by rewrite Hr.
  - destruct fuel as [|fuel]; simpl in *; [lia|]. rewrite Hr, Hx, IH by lia. done.
Qed.

Lemma weight_at_above t S r x anc :
  above_root (names (nodes t)) (parents (nodes t)) r (x :: anc) →
  length (x :: anc) ≤ length (nodes t) →
  weight_at (nodes t) S r =
  if decide (S ⊆ anc) then default 0%Z (counts (nodes t) !! r) else 0%Z.
Proof.
  intros Hr Hlen. unfold weight_at. by rewrite (labels_above_spec _ _ _ _ _ Hr Hlen).
Qed.

(** The path of a node other than the root, in a well-formed tree. *)
Lemma wf_above_node t r :
  wf t → 0 < r < length (nodes t) →
  ∃ x anc, above_root (names (nodes t)) (parents (nodes t)) r (x :: anc) ∧
           names (nodes t) !! r = Some x ∧ length (x :: anc) ≤ r.
Proof.
  intros Hwf Hr. destruct (wf_parent _ Hwf r Hr) as (p & Hp & Hlt).
  destruct (wf_above_root t p Hwf) as (anc & Hanc & Hlen); [lia|].
  destruct (lookup_lt_is_Some_2 (names (nodes t)) r) as [x Hx].
  { rewrite names_length. lia. }
  exists x, anc. split_and!; [by eapply above_root_step | done | simpl; lia].
Qed.

(** What [updateTree_first] does to the names, parents and counts. *)
Lemma updateTree_first_shape t inNode n i0 cnt t1 :
  nodes t !! inNode = Some n →
  updateTree_first i0 inNode cnt t n = Ok t1 →
  (∃ ch nc, dict_get item_eqb (children n) i0 = Some ch ∧
            nodes t !! ch = Some nc ∧
            names (nodes t1) = names (nodes t) ∧
            parents (nodes t1) = parents (nodes t) ∧
            counts (nodes t1) = <[ch := (count nc + cnt)%Z]> (counts (nodes t))) ∨
  (dict_get item_eqb (children n) i0 = None ∧
   names (nodes t1) = names (nodes t) ++ [i0] ∧
   parents (nodes t1) = parents (nodes t) ++ [Some inNode] ∧
   counts (nodes t1) = counts (nodes t) ++ [cnt]).
Proof.
  intros Hn. unfold updateTree_first.
  destruct (dict_get item_eqb (children n) i0) as [ch|] eqn:Hch.
  - intros (nc & Hnc%node_at_Ok & [= <-])%bind_Ok. left. exists ch, nc.
    split_and!; [done.. | | |]; simpl.
    + by eapply proj_insert.
    + by eapply proj_insert.
    + unfold counts. by rewrite list_fmap_insert.
  - intros (e & _ & Hrest)%bind_Ok. right. split; [done|].
    destruct (new_child_projs (nodes t) inNode n i0 cnt Hn) as (En & Ep & _ & _).
    set (ns2 := <[inNode := set_child n i0 (length (nodes t))]>
                  (nodes t ++ [TreeNode_init i0 cnt (Some inNode)])) in *.
    assert (counts ns2 = counts (nodes t) ++ [cnt]) as Ec.
    { unfold ns2, counts. rewrite (proj_insert count _ _ n); [| | done].
      - by rewrite fmap_app.
      - by apply lookup_app_l_Some. }
    destruct (e.2) as [hd|].
    + apply bind_Ok in Hrest as (ns3 & Hupd & [= <-]). unfold updateHeader in Hupd.
      apply bind_Ok in Hupd as (z & _ & Hupd).
      apply bind_Ok in Hupd as (nz & Hnz%node_at_Ok & [= <-]). simpl.
      rewrite <-En, <-Ep, <-Ec. split_and!; by eapply proj_insert.
    + injection Hrest as <-. done.
Qed.

Lemma wf_child_above t inNode n i0 ch pth :
  wf t → nodes t !! inNode = Some n →
  dict_get item_eqb (children n) i0 = Some ch →
  above_root (names (nodes t)) (parents (nodes t)) inNode pth →
  above_root (names (nodes t)) (parents (nodes t)) ch (i0 :: pth) ∧ ch ≠ 0.
Proof.
  intros Hwf Hn Hch Hpth.
  destruct (wf_children _ Hwf inNode (children n) i0 ch) as [Hcn Hcp];
    [apply lookup_proj; eauto | done |].
  split; [by eapply above_root_step|].
  intros ->. pose proof (wf_top _ Hwf). congruence.
Qed.

Lemma updateTree_first_weight t inNode n i0 cnt pth t1 :
  wf t → nodes t !! inNode = Some n →
  above_root (names (nodes t)) (parents (nodes t)) inNode pth → i0 ∉ pth →
  is_Some (dict_get item_eqb (headerTable t) i0) →
  updateTree_first i0 inNode cnt t n = Ok t1 →
  ∀ b S, weight (nodes t1) b S =
         (weight (nodes t) b S + (if decide (b = i0 ∧ S ⊆ pth) then cnt else 0))%Z.
Proof.
  intros Hwf Hn Hpth Hi0 Hkey Hrun b S.
  destruct (updateTree_first_wf t inNode n i0 cnt pth Hwf Hn Hpth Hi0 Hkey)
    as (t1' & Hrun' & Hwf1 & _).
  rewrite Hrun in Hrun'. injection Hrun' as <-.
  pose proof (lookup_lt_Some _ _ _ Hn) as HinNode.
  assert (length pth ≤ inNode) as Hpthlen.
  { destruct (wf_above_root t inNode Hwf HinNode) as (l & Hl & Hlen).
    by rewrite (above_root_functional _ _ _ _ _ Hpth Hl). }
  destruct (updateTree_first_shape t inNode n i0 cnt t1 Hn Hrun)
    as [(ch & nc & Hch & Hnc & En & Ep & Ec) | (Hch & En & Ep & Ec)].
  - (* the count of the child [ch] grows by [cnt] *)
    assert (length (nodes t1) = length (nodes t)) as Elen
      by by rewrite <-!names_length, En.
    destruct (wf_child_above t inNode n i0 ch pth Hwf Hn Hch Hpth) as [Hchp Hch0].
    pose proof (lookup_lt_Some _ _ _ Hnc) as Hchlt.
    unfold weight. rewrite En.
    rewrite (Zsum_fmap_bump (weight_at (nodes t) S) (weight_at (nodes t1) S) _ ch
               (if decide (S ⊆ pth) then cnt else 0)); [| apply labelled_NoDup |].
    + f_equal. destruct (decide (ch ∈ labelled (names (nodes t)) b)) as [Hin|Hin].
      * apply labelled_elem_of in Hin as [_ Hin].
        inversion Hchp as [|? ? ? ? _ Hx _]; subst.
        assert (b = i0) as -> by congruence.
        destruct (decide (S ⊆ pth)).
        -- by rewrite decide_True.
        -- rewrite decide_False; [done|]. by intros [_ ?].
      * rewrite decide_False; [done|]. intros [-> _]. apply Hin.
        apply labelled_elem_of. split; [done|].
        by inversion Hchp; subst.
    + intros r [Hr0 Hrb]%labelled_elem_of.
      pose proof (lookup_lt_Some _ _ _ Hrb) as Hrlt. rewrite names_length in Hrlt.
      destruct (wf_above_node t r Hwf) as (x & anc & Hr & _ & Hlen); [lia|].
      rewrite (weight_at_above t S r x anc) by (try done; lia).
      rewrite (weight_at_above t1 S r x anc) by (rewrite ?En, ?Ep, ?Elen; try done; lia).
      rewrite Ec. destruct (decide (r = ch)) as [->|Hne].
      * rewrite list_lookup_insert_eq by (unfold counts; rewrite length_fmap; lia).
        injection (above_root_functional _ _ _ _ _ Hr Hchp) as -> ->.
        unfold counts. rewrite list_lookup_fmap, Hnc. simpl.
        destruct (decide (S ⊆ pth)); lia.
      * rewrite list_lookup_insert_ne by done. lia.
  - (* a new node labelled [i0] of count [cnt] *)
    assert (length (nodes t1) = length (nodes t) + 1) as Elen.
    { rewrite <-!names_length, En, length_app. simpl. lia. }
    assert (names (nodes t) ≠ []) as Hne.
    { intros H0. rewrite <-names_length, H0 in HinNode. simpl in HinNode. lia. }
    assert (length (names (nodes t)) = length (parents (nodes t))) as Hnp
      by by rewrite names_length, parents_length.
    unfold weight. rewrite En at 1. rewrite labelled_snoc, fmap_app, Zsum_app by done.
    f_equal.
    + apply Zsum_fmap_ext. intros r [Hr0 Hrb]%labelled_elem_of.
      pose proof (lookup_lt_Some _ _ _ Hrb) as Hrlt. rewrite names_length in Hrlt.
      destruct (wf_above_node t r Hwf) as (x & anc & Hr & _ & Hlen); [lia|].
      rewrite (weight_at_above t S r x anc) by (try done; lia).
      rewrite (weight_at_above t1 S r x anc).
      * rewrite Ec, lookup_app_l; [done|]. unfold counts. rewrite length_fmap. lia.
      * rewrite En, Ep. by apply above_root_app.
      * lia.
    + assert (above_root (names (nodes t1)) (parents (nodes t1)) (length (nodes t))
                (i0 :: pth)) as Hnew.
      { rewrite En, Ep. eapply above_root_step.
        - by rewrite lookup_app_r, parents_length, Nat.sub_diag
            by (rewrite parents_length; lia).
        - by rewrite lookup_app_r, names_length, Nat.sub_diag
            by (rewrite names_length; lia).
        - by apply above_root_app. }
      destruct (decide (i0 = b)) as [->|Hib].
      * csimpl. rewrite names_length.
        rewrite (weight_at_above t1 S _ b pth Hnew) by (simpl; lia).
        rewrite Ec, lookup_app_r by (unfold counts; rewrite length_fmap; lia).
        unfold counts. rewrite length_fmap, Nat.sub_diag. simpl.
        destruct (decide (S ⊆ pth)).
        -- rewrite decide_True by done. lia.
        -- rewrite decide_False; [lia|]. by intros [_ ?].
      * rewrite decide_False; [done|]. by intros [-> _].
Qed.

Section CountsPreserved.
Variable P : Z → Prop.
Hypothesis P_add : ∀ a b, P a → P b → P (a + b)%Z.

Lemma updateTree_first_counts t inNode n i0 cnt t1 :
  nodes t !! inNode = Some n →
  updateTree_first i0 inNode cnt t n = Ok t1 →
  Forall P (counts (nodes t)) → P cnt → Forall P (counts (nodes t1)).
Proof.
  intros Hn Hrun Hall Hcnt.
  destruct (updateTree_first_shape t inNode n i0 cnt t1 Hn Hrun)
    as [(ch & nc & _ & Hnc & _ & _ & ->) | (_ & _ & _ & ->)].
  - apply Forall_insert; [done|]. apply P_add; [|done].
    rewrite Forall_forall in Hall. apply Hall.
    apply list_elem_of_fmap. exists nc. split; [done|].
    by eapply list_elem_of_lookup_2.
  - apply Forall_app. split; [done | by apply Forall_singleton].
Qed.
End CountsPreserved.

Lemma updateTree_weight items : ∀ inNode cnt t pth t',
  wf t →
  above_root (names (nodes t)) (parents (nodes t)) inNode pth →
  NoDup items →
  (∀ x, x ∈ items → is_Some (dict_get item_eqb (headerTable t) x) ∧ x ∉ pth) →
  updateTree items inNode cnt t = Ok t' →
  (∀ b S, weight (nodes t') b S =
          (weight (nodes t) b S + contribution cnt items pth b S)%Z) ∧
  (∀ P : Z → Prop, (∀ a b, P a → P b → P (a + b)%Z) →
     Forall P (counts (nodes t)) → P cnt → Forall P (counts (nodes t'))).
Proof.
  induction items as [|i0 rest IH]; intros inNode cnt t pth t' Hwf Hpth Hnd Hin;
    [done|].
  rewrite updateTree_unfold. cbv zeta.
  change (nodes (log_call t (i0 :: rest))) with (nodes t).
  intros (n & Hn%node_at_Ok & Hrun)%bind_Ok.
  apply bind_Ok in Hrun as (t1 & Hfirst & Hrun).
  destruct (Hin i0) as [Hkey Hfresh]; [left|].
  apply NoDup_cons in Hnd as [Hi0 Hnd].
  destruct (updateTree_first_wf (log_call t (i0 :: rest)) inNode n i0 cnt pth)
    as (t1' & Hfirst' & Hwf1 & Hhc & _ & n' & c & Hn' & Hc & Hpth');
    [by apply wf_log_call | done.. |].
  rewrite Hfirst in Hfirst'. injection Hfirst' as <-.
  pose proof (updateTree_first_weight (log_call t (i0 :: rest)) inNode n i0 cnt pth t1
                (wf_log_call _ _ Hwf) Hn Hpth Hfresh Hkey Hfirst) as Hw1.
  assert (∀ P : Z → Prop, (∀ a b, P a → P b → P (a + b)%Z) →
            Forall P (counts (nodes t)) → P cnt → Forall P (counts (nodes t1))) as Hc1.
  { intros P HP. by apply (updateTree_first_counts P HP (log_call t (i0 :: rest)) inNode n i0). }
  simpl in Hw1. destruct (1 <? length (i0 :: rest)) eqn:Hlen.
  - apply bind_Ok in Hrun as (n'' & Hn''%node_at_Ok & Hrun).
    apply bind_Ok in Hrun as (c' & Hc'%of_option_Ok & Hrun).
    assert (c' = c) as -> by congruence.
    destruct (IH c cnt t1 (i0 :: pth) t' Hwf1 Hpth' Hnd) as [Hw Hcs]; [|done|].
    { intros x Hx. destruct (Hin x) as [Hk Hp]; [by right|]. split.
      - by apply (header_counts_is_Some (log_call t (i0 :: rest))).
      - apply not_elem_of_cons. split; [|done]. intros ->. done. }
    split.
    + intros b S. rewrite Hw, Hw1. simpl. lia.
    + intros P HP Hall Hcnt. apply Hcs; [done | | done]. by apply Hc1.
  - injection Hrun as <-. apply Nat.ltb_ge in Hlen.
    destruct rest; [|simpl in Hlen; lia]. split.
    + intros b S. rewrite Hw1. simpl. lia.
    + done.
Qed.

(** ** The effect of one transaction, and of all of them *)

Lemma localD_of_keys t freqItemSet trans d :
  localD_of t freqItemSet trans = Ok d →
  ∀ x, x ∈ dict_keys d ↔ x ∈ trans ∧ x ∈ freqItemSet.
Proof.
  unfold localD_of. intros Hrun.
  eapply (for_each_prefix
            (λ done (d : list (item * Z)),
               ∀ x, x ∈ dict_keys d ↔ x ∈ done ∧ x ∈ freqItemSet));
    [| | exact Hrun].
  - intros done it rest d0 d1 _ Hd. unfold mem. case_bool_decide as Hit.
    + intros (e & _ & [= <-])%bind_Ok. intros x.
      rewrite dict_keys_set_elem, Hd, elem_of_app, list_elem_of_singleton.
      split; [|tauto]. intros [[? ?]| ->]; tauto.
    + intros [= <-] x. rewrite Hd, elem_of_app, list_elem_of_singleton.
      split; [tauto|]. intros [[?| ->] ?]; tauto.
  - intros x. split; [by intros ?%elem_of_nil | by intros [?%elem_of_nil _]].
Qed.

Lemma FPTree_init_built transactions minSup t :
  FPTree_init transactions minSup = Ok t →
  built_from (dict_keys (headerTable t)) transactions t ∧
  (∀ P : Z → Prop, (∀ a b, P a → P b → P (a + b)%Z) → P 1%Z →
     Forall (λ tc, P tc.2) transactions → Forall P (counts (nodes t))).
Proof.
  intros Hinit. pose proof (FPTree_init_Ok _ _ _ Hinit) as (_ & Hhc & _).
  revert Hinit. unfold FPTree_init.
  set (h := prune minSup (count_items transactions)) in *.
  destruct (length (dict_keys h) =? 0) eqn:Hlen.
  - intros [= <-]. simpl. split.
    + exists ((λ _, []) <$> transactions). split.
      * apply Forall2_fmap_r, Forall_Forall2_diag, Forall_forall.
        intros tc _. split; [constructor|].
        intros x. split; [by intros ?%elem_of_nil | by intros [_ ?%elem_of_nil]].
      * intros b S. unfold weight. simpl.
        clear. induction transactions as [|tc T IH]; csimpl; [done|].
        by rewrite <-IH.
    + intros P _ H1 _. by apply Forall_singleton.
  - set (t0 := mkFPTree _ _ _ _). intros Hrun.
    assert (dict_keys (headerTable t) = dict_keys h) as Hkeys
      by by rewrite header_counts_keys, Hhc.
    rewrite Hkeys.
    apply (for_each_prefix
             (λ done t, wf t ∧ header_counts t = h ∧
                built_from (dict_keys h) done t ∧
                (∀ P : Z → Prop, (∀ a b, P a → P b → P (a + b)%Z) → P 1%Z →
                   Forall (λ tc, P tc.2) done → Forall P (counts (nodes t)))))
      in Hrun; [tauto | |].
    + clear dependent t.
      intros done [trans cnt] rest t t' _ (Hwf & Hhc & (ords & Hords & Hw) & HP).
      intros (d & Hd & Hbody)%bind_Ok.
      pose proof (localD_of_keys _ _ _ _ Hd) as Hdk.
      assert (∀ x, x ∈ dict_keys h →
                is_Some (dict_get item_eqb (headerTable t) x)) as Hhead.
      { intros x Hx. apply dict_keys_is_Some. by rewrite header_counts_keys, Hhc. }
      destruct (localD_of_spec t (dict_keys h) trans Hhead) as (d' & Hd' & Hnd & _).
      rewrite Hd in Hd'. injection Hd' as <-.
      assert (NoDup (orderedItems_of d)) as Hnd' by by rewrite orderedItems_of_perm.
      assert (∀ x, x ∈ orderedItems_of d ↔ x ∈ trans ∧ x ∈ dict_keys h) as Hmem.
      { intros x. by rewrite orderedItems_of_perm. }
      assert (Forall2 (λ tc items, NoDup items ∧
                 ∀ x, x ∈ items ↔ x ∈ tc.1 ∧ x ∈ dict_keys h)
                (done ++ [(trans, cnt)]) (ords ++ [orderedItems_of d])) as Hords'.
      { apply Forall2_app; [done|]. by apply Forall2_cons. }
      pose proof (Forall2_length _ _ _ Hords) as Hlenords.
      destruct (0 <? length d) eqn:Hd0.
      * pose proof (updateTree_wf (orderedItems_of d) (root t) cnt t []) as Hwf'.
        destruct Hwf' as (t'' & Hrun' & Hwf' & Hhc' & _); [done | | done | | |].
        { rewrite (wf_root _ Hwf). apply above_root_top, Hwf. }
        { intros x Hx. split; [|apply not_elem_of_nil]. apply Hhead. by apply Hmem. }
        { intros E. apply Nat.ltb_lt in Hd0.
          pose proof (Permutation_length (orderedItems_of_perm d)) as Hl.
          rewrite E in Hl. unfold dict_keys in Hl. rewrite length_fmap in Hl.
          simpl in Hl. lia. }
        rewrite Hbody in Hrun'. injection Hrun' as <-.
        destruct (updateTree_weight (orderedItems_of d) (root t) cnt t [] t' Hwf)
          as [Hw' Hc']; [| done | | done |].
        { rewrite (wf_root _ Hwf). apply above_root_top, Hwf. }
        { intros x Hx. split; [|apply not_elem_of_nil]. apply Hhead. by apply Hmem. }
        split_and!; [done | congruence | |].
        -- exists (ords ++ [orderedItems_of d]). split; [done|]. intros b S.
           rewrite Hw', Hw, zip_with_app, Zsum_app by done. simpl. lia.
        -- intros P Hadd H1 [Hdone Hc]%Forall_app.
           apply Forall_cons in Hc as [Hc _].
           apply Hc'; [done | by apply HP | exact Hc].
      * injection Hbody as <-. split_and!; [done.. | |].
        -- exists (ords ++ [orderedItems_of d]). split; [done|]. intros b S.
           rewrite Hw, zip_with_app, Zsum_app by done. simpl.
           destruct d; [|done]. simpl. lia.
        -- intros P Hadd H1 [Hdone _]%Forall_app. by apply HP.
    + split_and!.
      * apply wf_initial; [done.. |]. by intros kv (? & -> & _)%list_elem_of_fmap.
      * unfold header_counts, t0. simpl. rewrite <-list_fmap_compose.
        rewrite <-(list_fmap_id h) at 2. apply list_fmap_ext. by intros _ [??] _.
      * exists []. split; [constructor | done].
      * intros P _ H1 _. by apply Forall_singleton.
Qed.

(** ** Contributions, aggregate counts and supports *)

Lemma contribution_chain cnt items pth b :
  NoDup items →
  contribution cnt items pth b [] = if decide (b ∈ items) then cnt else 0%Z.
Proof.
  revert pth. induction items as [|x rest IH]; intros pth Hnd; cbn [contribution].
  - by rewrite decide_False by apply not_elem_of_nil.
  - apply NoDup_cons in Hnd as [Hx Hnd]. rewrite IH by done.
    destruct (decide (b = x)) as [->|Hne].
    + rewrite (decide_True (P := x = x ∧ [] ⊆ pth)) by (split; [done|]; by intros ? ?%elem_of_nil).
      rewrite (decide_False (P := x ∈ rest)) by done.
      rewrite (decide_True (P := x ∈ x :: rest)) by left. lia.
    + rewrite (decide_False (P := b = x ∧ [] ⊆ pth)) by by intros [? _].
      destruct (decide (b ∈ rest)) as [Hin|Hin].
      * by rewrite (decide_True (P := b ∈ x :: rest)) by by right.
      * rewrite (decide_False (P := b ∈ x :: rest)); [done|].
        intros [?|?]%elem_of_cons; congruence.
Qed.

Lemma contribution_le cnt items pth b S :
  NoDup items → (0 ≤ cnt)%Z →
  (contribution cnt items pth b S ≤
   if decide (b ∈ items ∧ S ⊆ items ++ pth) then cnt else 0)%Z.
Proof.
  intros Hnd Hcnt. revert pth.
  induction items as [|x rest IH]; intros pth; cbn [contribution].
  - by destruct (decide _).
  - apply NoDup_cons in Hnd as [Hx Hnd]. specialize (IH Hnd (x :: pth)).
    assert (∀ y, y ∈ rest ++ x :: pth ↔ y ∈ x :: rest ++ pth) as Hperm.
    { intros y. rewrite !elem_of_app, !elem_of_cons, elem_of_app. tauto. }
    destruct (decide (b = x ∧ S ⊆ pth)) as [[-> HS]|Hno].
    + rewrite decide_False in IH by by intros [? _].
      rewrite decide_True; [lia|]. split; [left|].
      intros y Hy. right. apply elem_of_app. right. by apply HS.
    + destruct (decide (b ∈ rest ∧ S ⊆ rest ++ x :: pth)) as [[Hb HS]|Hno'].
      * rewrite decide_True; [lia|]. split; [by right|].
        intros y Hy. by apply Hperm, HS.
      * destruct (decide (b ∈ x :: rest ∧ S ⊆ (x :: rest) ++ pth)); lia.
Qed.

Lemma forallb_mem S l : forallb (λ x, mem x l) S = bool_decide (S ⊆ l).
Proof.
  induction S as [|x S IH]; cbn [forallb].
  - symmetry. apply bool_decide_eq_true. by intros ? ?%elem_of_nil.
  - rewrite IH. unfold mem. destruct (decide (x :: S ⊆ l)) as [H|H].
    + rewrite (bool_decide_eq_true_2 (x :: S ⊆ l)) by done.
      apply andb_true_iff. split; apply bool_decide_eq_true.
      * apply H. left.
      * intros y Hy. apply H. by right.
    + rewrite (bool_decide_eq_false_2 (x :: S ⊆ l)) by done.
      apply andb_false_iff. destruct (decide (x ∈ l)) as [Hx|Hx].
      * right. apply bool_decide_eq_false. intros HS. apply H.
        intros y [->|?]%elem_of_cons; [done | by apply HS].
      * left. by apply bool_decide_eq_false.
Qed.

Lemma support_cons tr c T S :
  support ((tr, c) :: T) S =
  ((if decide (S ⊆ tr) then c else 0) + support T S)%Z.
Proof.
  unfold support. simpl. rewrite forallb_mem.
  destruct (decide (S ⊆ tr)).
  - by rewrite bool_decide_eq_true_2.
  - by rewrite bool_decide_eq_false_2.
Qed.

Lemma support_ext T S S' : (∀ x, x ∈ S ↔ x ∈ S') → support T S = support T S'.
Proof.
  intros HS. induction T as [|[tr c] T IH]; [done|].
  rewrite !support_cons, IH. f_equal.
  destruct (decide (S ⊆ tr)) as [H|H], (decide (S' ⊆ tr)) as [H'|H']; try done.
  - destruct H'. intros x Hx. by apply H, HS.
  - destruct H. intros x Hx. by apply H', HS.
Qed.

Lemma aggregate_support T x : aggregate T x = support T [x].
Proof.
  induction T as [|[tr c] T IH]; [done|].
  rewrite support_cons, <-IH. simpl. unfold mem.
  destruct (decide ([x] ⊆ tr)) as [H|H].
  - rewrite bool_decide_eq_true_2; [done|]. apply H. left.
  - rewrite bool_decide_eq_false_2; [done|]. intros Hx. apply H.
    by intros y ->%list_elem_of_singleton.
Qed.

(** The chain of a header item weighs what the item weighs in the
    transactions. *)
Lemma built_chain_total freqItemSet T t b :
  built_from freqItemSet T t → b ∈ freqItemSet →
  weight (nodes t) b [] = aggregate T b.
Proof.
  intros (ords & Hords & Hw) Hb. rewrite Hw. clear Hw.
  induction Hords as [|[tr c] items T ords [Hnd Hmem] _ IH]; [done|].
  csimpl. rewrite IH, contribution_chain by done. unfold mem.
  destruct (decide (b ∈ items)) as [Hin|Hin].
  - rewrite bool_decide_eq_true_2; [done|]. by apply Hmem in Hin as [? _].
  - rewrite bool_decide_eq_false_2; [done|]. intros Htr. by apply Hin, Hmem.
Qed.

Lemma built_weight_le freqItemSet T t b S :
  built_from freqItemSet T t → Forall (λ tc, (0 ≤ tc.2)%Z) T →
  (weight (nodes t) b S ≤ support T (b :: S))%Z.
Proof.
  intros (ords & Hords & Hw) Hpos. rewrite Hw. clear Hw.
  induction Hords as [|[tr c] items T ords [Hnd Hmem] _ IH]; [done|].
  apply Forall_cons in Hpos as [Hc Hpos]. simpl in Hc.
  rewrite support_cons. csimpl. specialize (IH Hpos).
  pose proof (contribution_le c items [] b S Hnd Hc) as Hle.
  destruct (decide (b ∈ items ∧ S ⊆ items ++ [])) as [[Hb HS]|Hno].
  - rewrite decide_True; [lia|].
    intros y [->|Hy]%elem_of_cons; [by apply Hmem in Hb as [? _]|].
    apply HS in Hy. rewrite app_nil_r in Hy. by apply Hmem in Hy as [? _].
  - destruct (decide (b :: S ⊆ tr)); lia.
Qed.

(** ** The support of a conditional pattern base *)

Lemma fs_eqb_true a b : fs_eqb a b = true ↔ a ⊆ b ∧ b ⊆ a.
Proof.
  unfold fs_eqb. rewrite andb_true_iff, !forallb_mem, !bool_decide_eq_true. done.
Qed.

Lemma dict_set_Forall {K V} (eqb : K → K → bool) (P : V → Prop)
    (d : list (K * V)) k v :
  Forall (λ kv, P kv.2) d → P v → Forall (λ kv, P kv.2) (dict_set eqb d k v).
Proof.
  intros Hd Hv. induction d as [|[k' v'] d IH]; simpl.
  - by apply Forall_singleton.
  - apply Forall_cons in Hd as [? Hd]. destruct (eqb k' k).
    + by apply Forall_cons.
    + apply Forall_cons. split; [done | by apply IH].
Qed.

Lemma support_dict_set cp K v S :
  Forall (λ kv, (0 ≤ kv.2)%Z) cp → (0 ≤ v)%Z →
  (support (dict_set fs_eqb cp K v) S ≤
   support cp S + (if decide (S ⊆ K) then v else 0))%Z.
Proof.
  intros Hcp Hv. induction cp as [|[k' v'] cp IH]; cbn [dict_set].
  - rewrite support_cons. unfold support. simpl. lia.
  - apply Forall_cons in Hcp as [Hv' Hcp]. simpl in Hv'. specialize (IH Hcp).
    destruct (fs_eqb k' K) eqn:E.
    + apply fs_eqb_true in E as [E1 E2]. rewrite !support_cons.
      destruct (decide (S ⊆ k')) as [H|H], (decide (S ⊆ K)) as [H'|H']; try lia.
      destruct H'. by etrans.
    + rewrite !support_cons. lia.
Qed.

Section ConditionalBase.
Variable frozenset_of : list item → frozenset.
Hypothesis frozenset_of_sub : ∀ l x, x ∈ frozenset_of l → x ∈ l.

(** The chain of [basePat], its steps and what each step does. *)
Lemma findPrefixPath_run t basePat cp :
  wf t → findPrefixPath frozenset_of t basePat = Ok cp →
  for_each (labelled (names (nodes t)) basePat)
    (λ cp r, findPrefixPath_step frozenset_of (nodes t) r cp) [] = Ok cp.
Proof.
  intros Hwf. unfold findPrefixPath.
  intros (e & He%of_option_Ok & Hloop)%bind_Ok.
  pose proof (wf_chain _ Hwf _ _ He) as Hchain.
  rewrite (findPrefixPath_loop_chain _ _ _ _ _ _ Hchain) in Hloop; [done|].
  pose proof (labelled_length (names (nodes t)) basePat).
  rewrite names_length in *. lia.
Qed.

Lemma findPrefixPath_support t basePat cp :
  wf t → Forall (λ c, (0 ≤ c)%Z) (counts (nodes t)) →
  findPrefixPath frozenset_of t basePat = Ok cp →
  Forall (λ kv, (0 ≤ kv.2)%Z) cp ∧
  ∀ S, (support cp S ≤ weight (nodes t) basePat S)%Z.
Proof.
  intros Hwf Hpos Hrun%findPrefixPath_run; [|done].
  eapply (for_each_prefix
            (λ done (cp : list (frozenset * Z)),
               Forall (λ kv, (0 ≤ kv.2)%Z) cp ∧
               ∀ S, (support cp S ≤ Zsum (weight_at (nodes t) S <$> done))%Z));
    [| | exact Hrun].
  - intros done r rest cp0 cp1 Hl [Hcp0 Hsup].
    assert (r ∈ labelled (names (nodes t)) basePat) as [Hr0 Hrx]%labelled_elem_of.
    { rewrite Hl. apply elem_of_app. right. left. }
    pose proof (lookup_lt_Some _ _ _ Hrx) as Hrlt. rewrite names_length in Hrlt.
    destruct (findPrefixPath_step_spec frozenset_of t r cp0 Hwf)
      as (n & p & anc & Hn & Hp & Hanc & Hpath & ->); [lia|].
    intros [= <-].
    assert ((0 ≤ count n)%Z) as Hcn.
    { rewrite Forall_forall in Hpos. apply Hpos, list_elem_of_fmap.
      exists n. split; [done | by eapply list_elem_of_lookup_2]. }
    assert (∀ S, weight_at (nodes t) S r =
                 if decide (S ⊆ anc) then count n else 0%Z) as Hwat.
    { intros S. rewrite (weight_at_above t S r (name n) anc Hpath).
      - unfold counts. by rewrite list_lookup_fmap, Hn.
      - destruct (wf_above_node t r Hwf) as (x & anc' & Hr' & _ & Hlen); [lia|].
        rewrite (above_root_functional _ _ _ _ _ Hpath Hr'). lia. }
    destruct (decide (anc = [])) as [|Hne].
    + split; [done|]. intros S. rewrite fmap_app, Zsum_app. csimpl.
      rewrite Hwat. specialize (Hsup S). destruct (decide (S ⊆ anc)); lia.
    + split; [by apply dict_set_Forall|]. intros S.
      rewrite fmap_app, Zsum_app. csimpl. rewrite Hwat.
      pose proof (support_dict_set cp0 (frozenset_of anc) (count n) S Hcp0 Hcn).
      specialize (Hsup S).
      destruct (decide (S ⊆ frozenset_of anc)) as [HS|HS].
      * rewrite decide_True; [lia|]. intros x Hx. by apply frozenset_of_sub, HS.
      * destruct (decide (S ⊆ anc)); lia.
  - split; [constructor | done].
Qed.
End ConditionalBase.

(** * Every emitted itemset is frequent *)

Lemma set_add_elem_of s y x : x ∈ set_add s y ↔ x ∈ s ∨ x = y.
Proof.
  unfold set_add, mem. case_bool_decide as Hy.
  - split; [by left | by intros [?| ->]].
  - by rewrite elem_of_app, list_elem_of_singleton.
Qed.

Lemma set_add_NoDup s y : NoDup s → NoDup (set_add s y).
Proof.
  intros Hs. unfold set_add, mem. case_bool_decide as Hy; [done|].
  apply NoDup_app. split_and!; [done | | apply NoDup_singleton].
  by intros x Hx ->%list_elem_of_singleton.
Qed.

Lemma head_keys_in_header T minSup t x :
  FPTree_init T minSup = Ok t → Forall (λ tc, NoDup tc.1) T →
  x ∈ dict_keys (headerTable t) → (minSup ≤ aggregate T x)%Z.
Proof.
  intros (_ & Hhc & _)%FPTree_init_Ok HT. rewrite header_counts_keys, Hhc.
  change (x ∈ dict_keys (prune minSup (count_items T)) → (minSup ≤ aggregate T x)%Z).
  rewrite header_entry_frequent by done. by intros [_ ?].
Qed.

Section Soundness.
Variable frozenset_of : list item → frozenset.
Hypothesis frozenset_of_sub : ∀ l x, x ∈ frozenset_of l → x ∈ l.
Hypothesis frozenset_of_NoDup : ∀ l, NoDup (frozenset_of l).
Variable transactions0 : list (frozenset * Z).
Variable minSup : Z.

Lemma findPrefixPath_dupfree t basePat cp :
  wf t → findPrefixPath frozenset_of t basePat = Ok cp →
  Forall (λ tc, NoDup tc.1) cp.
Proof.
  intros Hwf Hrun.
  assert (is_Some (dict_get item_eqb (headerTable t) basePat)) as Hbase.
  { unfold findPrefixPath in Hrun.
    apply bind_Ok in Hrun as (e & He%of_option_Ok & _). eauto. }
  destruct (findPrefixPath_spec frozenset_of t basePat Hwf Hbase) as (cp' & Hcp' & Hkeys).
  rewrite Hrun in Hcp'. injection Hcp' as <-.
  apply Forall_forall. intros [k v] Hin.
  destruct (Hkeys k) as (r & p & anc & _ & _ & _ & _ & ->).
  { apply list_elem_of_fmap. by exists (k, v). }
  apply frozenset_of_NoDup.
Qed.

Lemma mineTree_sound depth : ∀ T t preFix st st' pre,
  FPTree_init T minSup = Ok t →
  Forall (λ tc, NoDup tc.1) T → Forall (λ tc, (0 ≤ tc.2)%Z) T →
  sets st !! preFix = Some pre →
  (∀ S, (support T S ≤ support transactions0 (S ++ pre))%Z) →
  mineTree frozenset_of depth t minSup preFix st = Ok st' →
  ∃ news, sets st' = sets st ++ news ∧
          Forall (λ s, (minSup ≤ support transactions0 s)%Z) news.
Proof.
  induction depth as [|depth IH];
    intros T t preFix st st' pre Hinit Hdup Hpos Hpre Hinv;
    rewrite mineTree_unfold.
  all: pose proof (FPTree_init_Ok _ _ _ Hinit) as (Hwf & Hhc & _).
  all: destruct (FPTree_init_built _ _ _ Hinit) as [Hbuilt Hcounts].
  all: assert (Forall (λ c, (0 ≤ c)%Z) (counts (nodes t))) as Hnodes
         by (apply Hcounts; [lia | lia | done]).
  all: apply (for_each_post
                (λ s, ∃ news, sets s = sets st ++ news ∧
                   Forall (λ s, (minSup ≤ support transactions0 s)%Z) news));
    [|exists []; by rewrite app_nil_r].
  all: intros s basePat s' Hbase%bigL_of_keys (news & Hs & Hnews).
  all: intros (pre' & Hpre'%of_option_Ok & Hbody)%bind_Ok.
  all: assert (pre' = pre) as ->
         by (rewrite Hs in Hpre'; erewrite lookup_app_l_Some in Hpre' by done;
             congruence).
  all: cbv zeta in Hbody; cbn [sets freqItemList] in Hbody.
  all: rewrite lookup_app_r, Nat.sub_diag in Hbody by lia; simpl in Hbody.
  all: apply bind_Ok in Hbody as (cp & Hcp & Hbody).
  all: apply bind_Ok in Hbody as (ct & Hct & Hbody).
  all: rewrite insert_app_r_alt, Nat.sub_diag in Hbody by lia; simpl in Hbody.
  all: assert ((minSup ≤ support transactions0 (set_add pre basePat))%Z) as Hnew.
  1,3: pose proof (head_keys_in_header T minSup t basePat Hinit Hdup Hbase) as Hfreq;
       rewrite aggregate_support in Hfreq; specialize (Hinv [basePat]);
       rewrite (support_ext _ (set_add pre basePat) ([basePat] ++ pre));
       [lia | intros x; rewrite set_add_elem_of, elem_of_app, list_elem_of_singleton;
              tauto].
  all: case_bool_decide as Hne; simplify_eq.
  all: try (exists (news ++ [set_add pre basePat]); simpl; rewrite Hs, <-app_assoc;
            split; [done | apply Forall_app; split; [done | by apply Forall_singleton]]).
  destruct (findPrefixPath_support frozenset_of frozenset_of_sub t basePat cp Hwf Hnodes Hcp)
    as [Hcppos Hcpsup].
  eapply (IH cp ct _ _ s' (set_add pre basePat)) in Hbody; [| done | | done | | ].
  - destruct Hbody as (news' & Hs' & Hnews'). simpl in Hs'.
    exists (news ++ [set_add pre basePat] ++ news').
    rewrite Hs', Hs, <-!app_assoc. split; [done|].
    apply Forall_app. split; [done|]. apply Forall_app. split; [|done].
    by apply Forall_singleton.
  - by eapply findPrefixPath_dupfree.
  - simpl. by rewrite lookup_app_r, Nat.sub_diag by lia.
  - intros S. etrans; [apply Hcpsup|].
    etrans; [by eapply built_weight_le|].
    etrans; [apply Hinv|].
    rewrite (support_ext _ ((basePat :: S) ++ pre) (S ++ set_add pre basePat)); [lia|].
    intros x. rewrite !elem_of_app, elem_of_cons, set_add_elem_of. tauto.
Qed.

Lemma collect_sets (sts : list (list item)) (fl : list ref) out :
  for_each fl
    (λ acc r, do s <- of_option Dangling (sts !! r); Ok (acc ++ [s])) [] = Ok out →
  ∀ s, s ∈ out → ∃ r, r ∈ fl ∧ sts !! r = Some s.
Proof.
  intros Hrun.
  eapply (for_each_prefix
            (λ done (acc : list (list item)),
               ∀ s, s ∈ acc → ∃ r, r ∈ done ∧ sts !! r = Some s));
    [| | exact Hrun].
  - intros done r rest acc acc' _ Hacc (s0 & Hs0%of_option_Ok & [= <-])%bind_Ok.
    intros s [Hs| ->%list_elem_of_singleton]%elem_of_app.
    + destruct (Hacc s Hs) as (r' & ? & ?). exists r'. split; [|done].
      apply elem_of_app. by left.
    + exists r. split; [|done]. apply elem_of_app. right. left.
  - by intros s ?%elem_of_nil.
Qed.

Lemma mine_sound depth out :
  Forall (λ tc, NoDup tc.1) transactions0 →
  Forall (λ tc, (0 ≤ tc.2)%Z) transactions0 →
  mine frozenset_of depth transactions0 minSup = Ok out →
  Forall (λ s, (minSup ≤ support transactions0 s)%Z) out.
Proof.
  intros Hdup Hpos. unfold mine.
  intros (t & Hinit & Hrun)%bind_Ok.
  apply bind_Ok in Hrun as (st & Hmine & Hout).
  pose proof (mineTree_appended_only _ _ _ _ _ _ _ Hmine) as (news' & Hs' & Hf' & _).
  eapply (mineTree_sound depth transactions0 t 0 _ st []) in Hmine;
    [| done.. | | ].
  - destruct Hmine as (news & Hs & Hnews). simpl in *.
    apply Forall_forall. intros s Hin.
    destruct (collect_sets _ _ _ Hout s Hin) as (r & Hr & Hrs).
    rewrite Hf' in Hr. apply elem_of_seq in Hr as [Hr1 _].
    rewrite Hs in Hrs. destruct r as [|r]; [lia|]. simpl in Hrs.
    rewrite Forall_forall in Hnews. apply Hnews.
    by eapply list_elem_of_lookup_2.
  - done.
  - intros S. by rewrite app_nil_r.
Qed.
End Soundness.

(** * What the driver emits for the items of the header *)

Lemma collect_sets_complete (sts : list (list item)) (fl : list ref) out :
  for_each fl
    (λ acc r, do s <- of_option Dangling (sts !! r); Ok (acc ++ [s])) [] = Ok out →
  ∀ r s, r ∈ fl → sts !! r = Some s → s ∈ out.
Proof.
  intros Hrun.
  eapply (for_each_prefix
            (λ done (acc : list (list item)),
               ∀ r s, r ∈ done → sts !! r = Some s → s ∈ acc));
    [| | exact Hrun].
  - intros done r rest acc acc' _ Hacc (s0 & Hs0%of_option_Ok & [= <-])%bind_Ok.
    intros r' s [Hr'| ->%list_elem_of_singleton]%elem_of_app Hs.
    + apply elem_of_app. left. by eapply Hacc.
    + apply elem_of_app. right. simplify_eq. left.
  - by intros r s ?%elem_of_nil.
Qed.

(** A set that was emitted stays emitted, with the same contents. *)
Lemma appended_only_keeps preFix st st' r s :
  appended_only preFix st st' →
  r ∈ freqItemList st → sets st !! r = Some s →
  r ∈ freqItemList st' ∧ sets st' !! r = Some s.
Proof.
  intros (news & -> & -> & _) Hr Hs. split.
  - apply elem_of_app. by left.
  - by apply lookup_app_l_Some.
Qed.

Section Emitted.
Variable frozenset_of : list item → frozenset.

(** One iteration of the loop of [mineTree]. *)
Lemma mineTree_iteration depth t minSup preFix pre s basePat s' :
  sets s !! preFix = Some pre →
  (do pre <- of_option Dangling (sets s !! preFix);
   let newFreqSet := length (sets s) in
   let st1 := mkMineState (sets s ++ [pre]) (freqItemList s) in
   do s0 <- of_option Dangling (sets st1 !! newFreqSet);
   let st2 := mkMineState (<[newFreqSet := set_add s0 basePat]> (sets st1))
                          (freqItemList st1) in
   let st3 := mkMineState (sets st2) (freqItemList st2 ++ [newFreqSet]) in
   do condPattBases <- findPrefixPath frozenset_of t basePat;
   do myCondTree <- FPTree_init condPattBases minSup;
   if bool_decide (headerTable myCondTree ≠ []) then
     match depth with
     | O => Raise RecursionError
     | S depth' => mineTree frozenset_of depth' myCondTree minSup newFreqSet st3
     end
   else Ok st3) = Ok s' →
  appended_only (length (sets s))
    (mkMineState (sets s ++ [set_add pre basePat])
                 (freqItemList s ++ [length (sets s)])) s'.
Proof.
  intros Hpre. rewrite Hpre. simpl.
  rewrite lookup_app_r, Nat.sub_diag by lia. simpl.
  rewrite insert_app_r_alt, Nat.sub_diag by lia. simpl.
  intros (cp & _ & Hbody)%bind_Ok.
  apply bind_Ok in Hbody as (ct & _ & Hbody).
  case_bool_decide.
  - destruct depth; [done|]. by eapply mineTree_appended_only.
  - injection Hbody as <-. apply appended_only_refl.
Qed.

Lemma mineTree_emits_header_items depth t minSup preFix pre st st' x :
  sets st !! preFix = Some pre →
  mineTree frozenset_of depth t minSup preFix st = Ok st' →
  x ∈ dict_keys (headerTable t) →
  ∃ r, r ∈ freqItemList st' ∧ sets st' !! r = Some (set_add pre x).
Proof.
  intros Hpre Hrun Hx%bigL_of_keys. rewrite mineTree_unfold in Hrun.
  eapply (for_each_prefix
            (λ done s,
               appended_only preFix st s ∧
               ∀ x, x ∈ done →
                 ∃ r, r ∈ freqItemList s ∧ sets s !! r = Some (set_add pre x)))
    in Hrun.
  - destruct Hrun as [_ Hall]. by apply Hall.
  - clear Hrun Hx x. intros done basePat rest s s' _ [Happ Hdone] Hbody.
    assert (sets s !! preFix = Some pre) as Hpre'.
    { destruct Happ as (news & -> & _). by apply lookup_app_l_Some. }
    pose proof (mineTree_iteration depth t minSup preFix pre s basePat s' Hpre' Hbody)
      as Hiter.
    assert (appended_only preFix s s') as Hstep.
    { eapply (appended_only_nest preFix s pre basePat); [done | | | exact Hiter]; done. }
    split; [by eapply appended_only_trans|].
    intros x [Hx| ->%list_elem_of_singleton]%elem_of_app.
    + destruct (Hdone x Hx) as (r & Hr & Hrs).
      exists r. by eapply appended_only_keeps.
    + exists (length (sets s)).
      eapply (appended_only_keeps _ _ _ _ _ Hiter); simpl.
      * apply elem_of_app. right. left.
      * by rewrite lookup_app_r, Nat.sub_diag by lia.
  - split; [apply appended_only_refl | by intros ? ?%elem_of_nil].
Qed.

Lemma mine_emits_frequent_items depth T minSup out x :
  Forall (λ tc, NoDup tc.1) T →
  mine frozenset_of depth T minSup = Ok out →
  occurs T x → (minSup ≤ aggregate T x)%Z → [x] ∈ out.
Proof.
  intros Hdup. unfold mine. intros (t & Hinit & Hrun)%bind_Ok Hocc Hsup.
  apply bind_Ok in Hrun as (st & Hmine & Hout).
  pose proof (FPTree_init_Ok _ _ _ Hinit) as (_ & Hhc & _).
  destruct (mineTree_emits_header_items depth t minSup 0 []
              (mkMineState [[]] []) st x eq_refl Hmine) as (r & Hr & Hrs).
  { rewrite header_counts_keys, Hhc. by apply header_entry_frequent. }
  by eapply collect_sets_complete.
Qed.

Lemma mine_nothing_frequent depth T minSup :
  Forall (λ tc, NoDup tc.1) T →
  (∀ x, occurs T x → (aggregate T x < minSup)%Z) →
  FPTree_init T minSup = Ok (mkFPTree [] 0 [TreeNode_init (Str "Null") 1 None] []) ∧
  mine frozenset_of depth T minSup = Ok [].
Proof.
  intros Hdup Hnone.
  assert (prune minSup (count_items T) = []) as Hh.
  { destruct (prune minSup (count_items T)) as [|[k v] h] eqn:E; [done|].
    assert (k ∈ dict_keys (prune minSup (count_items T))) as Hk
      by (rewrite E; left).
    apply header_entry_frequent in Hk as [Hocc Hsup]; [|done].
    specialize (Hnone k Hocc). lia. }
  assert (FPTree_init T minSup =
          Ok (mkFPTree [] 0 [TreeNode_init (Str "Null") 1 None] [])) as Hinit.
  { unfold FPTree_init. by rewrite Hh. }
  split; [done|]. unfold mine. rewrite Hinit. simpl.
  rewrite mineTree_unfold. done.
Qed.

Lemma findPrefixPath_KeyError T minSup t basePat :
  FPTree_init T minSup = Ok t →
  findPrefixPath frozenset_of t basePat = Raise KeyError ↔
  dict_get item_eqb (headerTable t) basePat = None.
Proof.
  intros (Hwf & _)%FPTree_init_Ok. split.
  - intros Hrun. destruct (dict_get item_eqb (headerTable t) basePat) eqn:E; [|done].
    destruct (findPrefixPath_spec frozenset_of t basePat Hwf) as (cp & Hcp & _);
      [by rewrite E|]. congruence.
  - intros E. unfold findPrefixPath. by rewrite E.
Qed.
End Emitted.

(** * Conditional pattern bases are transaction multisets *)

Lemma distinct_sets_snoc ks k :
  distinct_sets ks → (∀ a, a ∈ ks → fs_eqb a k = false) →
  distinct_sets (ks ++ [k]).
Proof.
  intros Hks Hk i j a b Hij Ha Hb.
  apply lookup_app_Some in Hb as [Hb|[Hge Hb]].
  - pose proof (lookup_lt_Some _ _ _ Hb).
    rewrite lookup_app_l in Ha by lia. by apply (Hks i j).
  - apply list_lookup_singleton_Some in Hb as [Hj <-].
    rewrite lookup_app_l in Ha by lia. apply Hk. by eapply list_elem_of_lookup_2.
Qed.

Lemma dict_set_keys {K V} (eqb : K → K → bool) (d : list (K * V)) k v :
  dict_keys (dict_set eqb d k v) = dict_keys d ∨
  (dict_keys (dict_set eqb d k v) = dict_keys d ++ [k] ∧
   ∀ a, a ∈ dict_keys d → eqb a k = false).
Proof.
  induction d as [|[k' v'] d IH]; simpl.
  - right. split; [done | by intros ? ?%elem_of_nil].
  - destruct (eqb k' k) eqn:E; [by left|].
    destruct IH as [IH|[IH Hall]]; simpl.
    + left. by rewrite IH.
    + right. rewrite IH. split; [done|].
      intros a [->|?]%elem_of_cons; [done | by apply Hall].
Qed.

Lemma dict_set_distinct {V} (d : list (frozenset * V)) k v :
  distinct_sets (dict_keys d) → distinct_sets (dict_keys (dict_set fs_eqb d k v)).
Proof.
  intros Hd. destruct (dict_set_keys fs_eqb d k v) as [->|[-> Hall]]; [done|].
  by apply distinct_sets_snoc.
Qed.

Section ConditionalMultiset.
Variable frozenset_of : list item → frozenset.
Hypothesis frozenset_of_elem : ∀ l x, x ∈ frozenset_of l ↔ x ∈ l.
Hypothesis frozenset_of_NoDup : ∀ l, NoDup (frozenset_of l).

Lemma findPrefixPath_multiset t basePat cp :
  wf t → Forall (λ c, (0 < c)%Z) (counts (nodes t)) →
  findPrefixPath frozenset_of t basePat = Ok cp →
  is_multiset cp ∧
  ∀ k x, k ∈ dict_keys cp → x ∈ k →
         x ≠ basePat ∧ x ∈ dict_keys (headerTable t).
Proof.
  intros Hwf Hpos Hrun.
  assert (is_Some (dict_get item_eqb (headerTable t) basePat)) as Hbase.
  { unfold findPrefixPath in Hrun.
    apply bind_Ok in Hrun as (e & He%of_option_Ok & _). eauto. }
  destruct (findPrefixPath_spec frozenset_of t basePat Hwf Hbase) as (cp' & Hcp' & Hkeys).
  rewrite Hrun in Hcp'. injection Hcp' as <-.
  apply findPrefixPath_run in Hrun; [|done].
  assert (Forall (λ kv, (0 < kv.2)%Z) cp ∧ distinct_sets (dict_keys cp)) as [Hval Hdist].
  { revert Hrun.
    apply (for_each_post
             (λ cp : list (frozenset * Z),
                Forall (λ kv, (0 < kv.2)%Z) cp ∧ distinct_sets (dict_keys cp))).
    - intros cp0 r cp1 [Hr0 Hrx]%labelled_elem_of [Hv Hd].
      pose proof (lookup_lt_Some _ _ _ Hrx) as Hrlt. rewrite names_length in Hrlt.
      destruct (findPrefixPath_step_spec frozenset_of t r cp0 Hwf)
        as (n & p & anc & Hn & _ & _ & _ & ->); [lia|].
      intros [= <-]. destruct (decide (anc = [])); [done|]. split.
      + apply dict_set_Forall; [done|].
        rewrite Forall_forall in Hpos. apply Hpos, list_elem_of_fmap.
        exists n. split; [done | by eapply list_elem_of_lookup_2].
      + by apply dict_set_distinct.
    - split; [constructor | by intros ???? _ ?]. }
  split; [split; [|done]|].
  - apply Forall_forall. intros [k v] Hin.
    destruct (Hkeys k) as (r & p & anc & _ & _ & _ & Hne & ->).
    { apply list_elem_of_fmap. by exists (k, v). }
    rewrite Forall_forall in Hval. split_and!; [apply frozenset_of_NoDup | | by apply (Hval (_, v))].
    simpl. destruct anc as [|a anc]; [done|]. intros E.
    assert (a ∈ frozenset_of (a :: anc)) as Ha by (apply frozenset_of_elem; left).
    rewrite E in Ha. by apply elem_of_nil in Ha.
  - intros k x Hk Hx. destruct (Hkeys k Hk) as (r & p & anc & Hr & Hp & Hanc & _ & ->).
    apply (proj1 (frozenset_of_elem _ _)) in Hx.
    apply labelled_elem_of in Hr as [Hr0 Hr].
    assert (NoDup (basePat :: anc)) as [Hb _]%NoDup_cons.
    { eapply wf_path; [done|]. by eapply above_root_step. }
    split; [intros E; apply Hb; by rewrite <-E|].
    destruct (above_root_labels _ _ _ _ x (wf_top _ Hwf) Hanc Hx) as (i & Hi & Hix).
    apply dict_keys_is_Some. by eapply wf_name.
Qed.
End ConditionalMultiset.

(** * [createInitSet] and [writePatterns] *)

Lemma fs_eqb_refl a : fs_eqb a a = true.
Proof. by apply fs_eqb_true. Qed.

Lemma fs_eqb_trans_l a b c : fs_eqb a b = true → fs_eqb a c = fs_eqb b c.
Proof.
  intros [Hab Hba]%fs_eqb_true.
  destruct (fs_eqb b c) eqn:E.
  - apply fs_eqb_true in E as [Hbc Hcb]. apply fs_eqb_true.
    split; by etrans.
  - destruct (fs_eqb a c) eqn:E'; [|done].
    apply fs_eqb_true in E' as [Hac Hca].
    rewrite <-E. symmetry. apply fs_eqb_true. split; by etrans.
Qed.

Lemma fs_eqb_trans_r a b c : fs_eqb a b = true → fs_eqb c a = fs_eqb c b.
Proof.
  intros [Hab Hba]%fs_eqb_true.
  destruct (fs_eqb c b) eqn:E.
  - apply fs_eqb_true in E as [Hbc Hcb]. apply fs_eqb_true.
    split; by etrans.
  - destruct (fs_eqb c a) eqn:E'; [|done].
    apply fs_eqb_true in E' as [Hac Hca].
    rewrite <-E. symmetry. apply fs_eqb_true. split; by etrans.
Qed.

Lemma dict_get_Some_any {K V} (eqb : K → K → bool) (d : list (K * V)) k v :
  dict_get eqb d k = Some v → ∃ k', (k', v) ∈ d.
Proof.
  induction d as [|[k' v'] d IH]; [done|]. simpl.
  destruct (eqb k' k).
  - intros [= ->]. exists k'. left.
  - intros (k'' & ?)%IH. exists k''. by right.
Qed.

(** Lookup respects equality of sets. *)
Lemma dict_get_fs_eqb {V} (d : list (frozenset * V)) k K :
  fs_eqb k K = true → dict_get fs_eqb d k = dict_get fs_eqb d K.
Proof.
  intros E. induction d as [|[k' v'] d IH]; [done|]. simpl.
  by rewrite (fs_eqb_trans_r k K k' E), IH.
Qed.

(** Lookup after a store. *)
Lemma dict_get_set_fs {V} (d : list (frozenset * V)) k v K :
  dict_get fs_eqb (dict_set fs_eqb d k v) K =
  if fs_eqb k K then Some v else dict_get fs_eqb d K.
Proof.
  induction d as [|[k' v'] d IH]; simpl.
  - done.
  - destruct (fs_eqb k' k) eqn:E; simpl.
    + rewrite <-(fs_eqb_trans_l k' k K E). by destruct (fs_eqb k' K).
    + rewrite IH. destruct (fs_eqb k' K) eqn:E'; [|done].
      destruct (fs_eqb k K) eqn:E''; [|done].
      rewrite (fs_eqb_trans_r k K k' E''), E' in E. done.
Qed.

Lemma support_count_step d k S :
  support (dict_set fs_eqb d k (default 0 (dict_get fs_eqb d k) + 1)%Z) S =
  (support d S + (if decide (S ⊆ k) then 1 else 0))%Z.
Proof.
  induction d as [|[k' v'] d IH]; cbn [dict_set dict_get].
  - rewrite support_cons. change (support [] S) with 0%Z. simpl default.
    destruct (decide (S ⊆ k)); lia.
  - destruct (fs_eqb k' k) eqn:E.
    + apply fs_eqb_true in E as [E1 E2]. rewrite !support_cons. simpl default.
      destruct (decide (S ⊆ k')) as [H|H], (decide (S ⊆ k)) as [H'|H']; try lia.
      * destruct H'. by etrans.
      * destruct H. by etrans.
    + rewrite !support_cons, IH. lia.
Qed.

Lemma count_lines_cons line dataSet S :
  count_lines (line :: dataSet) S =
  ((if decide (S ⊆ line) then 1 else 0) + count_lines dataSet S)%Z.
Proof.
  unfold count_lines. rewrite filter_cons.
  destruct (decide (S ⊆ line)); simpl length; lia.
Qed.

Lemma count_lines_nil dataSet : count_lines dataSet [] = Z.of_nat (length dataSet).
Proof.
  induction dataSet as [|line dataSet IH]; [done|].
  rewrite count_lines_cons, IH, decide_True by (by intros ? ?%elem_of_nil).
  simpl length. lia.
Qed.

(** When no two keys are equal as sets, the sum that [writePatterns]
    forms is the weighted support. *)
Lemma supportCount_support initSet S :
  distinct_sets (dict_keys initSet) → supportCount initSet S = support initSet S.
Proof.
  unfold supportCount. induction initSet as [|[k v] d IH]; intros Hd; [done|].
  rewrite support_cons, <-IH.
  2:{ intros i j a b Hij Ha Hb. by apply (Hd (i + 1) (j + 1));
        [lia | rewrite Nat.add_1_r..]. }
  assert (∀ a, a ∈ dict_keys d → fs_eqb k a = false) as Hk.
  { intros a (j & Hj)%list_elem_of_lookup_1.
    by apply (Hd 0 (j + 1)); [lia | | rewrite Nat.add_1_r]. }
  change (dict_keys ((k, v) :: d)) with (k :: dict_keys d).
  assert (foldr Z.add 0%Z
            ((λ item, default 0%Z (dict_get fs_eqb ((k, v) :: d) item)) <$>
               filter (λ item, S ⊆ item) (dict_keys d)) =
          foldr Z.add 0%Z
            ((λ item, default 0%Z (dict_get fs_eqb d item)) <$>
               filter (λ item, S ⊆ item) (dict_keys d))) as Hrest.
  { apply (Zsum_fmap_ext _ _ _). intros a [_ Ha]%list_elem_of_filter.
    simpl. by rewrite (Hk a Ha). }
  destruct (decide (S ⊆ k)).
  - rewrite filter_cons_True by done. csimpl. rewrite fs_eqb_refl. simpl.
    f_equal. apply Hrest.
  - rewrite filter_cons_False by done. etrans; [exact Hrest | lia].
Qed.

Lemma count_equal_cons line dataSet K :
  count_equal (line :: dataSet) K =
  ((if decide (line ⊆ K ∧ K ⊆ line) then 1 else 0) + count_equal dataSet K)%Z.
Proof.
  unfold count_equal. rewrite filter_cons.
  destruct (decide (line ⊆ K ∧ K ⊆ line)); simpl length; lia.
Qed.

Section CollaboratorFacts.
Variable frozenset_of : list item → frozenset.
Hypothesis frozenset_of_elem : ∀ l x, x ∈ frozenset_of l ↔ x ∈ l.

Lemma frozenset_of_subseteq S l : S ⊆ frozenset_of l ↔ S ⊆ l.
Proof.
  split; intros H x Hx; apply H in Hx; by apply frozenset_of_elem.
Qed.

Lemma fs_eqb_frozenset_of line K :
  fs_eqb (frozenset_of line) K = true ↔ line ⊆ K ∧ K ⊆ line.
Proof.
  rewrite fs_eqb_true, frozenset_of_subseteq. split.
  - intros [H ?]. split; [|done]. intros x Hx. by apply H, frozenset_of_elem.
  - intros [H ?]. split; [|done]. intros x Hx. by apply H, frozenset_of_elem.
Qed.

(** The loop of [createInitSet], from a given dictionary onwards. *)
Lemma createInitSet_loop dataSet : ∀ d,
  let d' := fold_left
    (fun retDict trans =>
       dict_set fs_eqb retDict (frozenset_of trans)
         (default 0 (dict_get fs_eqb retDict (frozenset_of trans)) + 1)%Z)
    dataSet d in
  (∀ S, support d' S = (support d S + count_lines dataSet S)%Z) ∧
  (∀ K, default 0%Z (dict_get fs_eqb d' K) =
        (default 0%Z (dict_get fs_eqb d K) + count_equal dataSet K)%Z) ∧
  ((∀ l, NoDup (frozenset_of l)) →
   Forall (λ tc, NoDup tc.1 ∧ (0 < tc.2)%Z) d →
   Forall (λ tc, NoDup tc.1 ∧ (0 < tc.2)%Z) d') ∧
  (distinct_sets (dict_keys d) → distinct_sets (dict_keys d')).
Proof.
  induction dataSet as [|line dataSet IH]; intros d; cbn zeta.
  - split_and!; try done.
    + intros S. unfold count_lines. simpl. lia.
    + intros K. unfold count_equal. simpl. lia.
  - cbn [fold_left].
    destruct (IH (dict_set fs_eqb d (frozenset_of line)
                    (default 0 (dict_get fs_eqb d (frozenset_of line)) + 1)%Z))
      as (IH1 & IH2 & IH3 & IH4).
    cbn zeta in *. split_and!.
    + intros S. rewrite IH1, support_count_step, count_lines_cons.
      destruct (decide (S ⊆ frozenset_of line)) as [H|H],
               (decide (S ⊆ line)) as [H'|H']; try lia.
      * destruct H'. by apply frozenset_of_subseteq.
      * destruct H. by apply frozenset_of_subseteq.
    + intros K. rewrite IH2, dict_get_set_fs, count_equal_cons.
      destruct (fs_eqb (frozenset_of line) K) eqn:E.
      * rewrite decide_True by (by apply fs_eqb_frozenset_of).
        rewrite (dict_get_fs_eqb d _ K E).
        destruct (dict_get fs_eqb d K); cbn [from_option id]; lia.
      * rewrite decide_False; [lia|].
        intros H%fs_eqb_frozenset_of. congruence.
    + intros frozenset_of_NoDup Hd. apply IH3; [done|]. clear IH1 IH2 IH3 IH4.
      assert (Forall (λ tc : frozenset * Z, (0 ≤ tc.2)%Z) d) as Hnn.
      { eapply Forall_impl; [exact Hd|]. intros [? ?] [_ ?]. simpl in *. lia. }
      apply Forall_forall. intros [k v] Hin.
      apply dict_set_elem_of in Hin as [Hin|[-> Hk]].
      * rewrite Forall_forall in Hd. by apply (Hd (k, v)).
      * simpl. split.
        -- destruct Hk as [->|(kv & -> & Hkv)%list_elem_of_fmap]; [done|].
           rewrite Forall_forall in Hd. by apply Hd.
        -- destruct (dict_get fs_eqb d (frozenset_of line)) as [v|] eqn:Eg;
             simpl; [|lia].
           apply dict_get_Some_any in Eg as (k' & Hin).
           rewrite Forall_forall in Hnn. specialize (Hnn _ Hin). simpl in Hnn. lia.
    + intros Hd. by apply IH4, dict_set_distinct.
Qed.
End CollaboratorFacts.

Lemma support_nil T : support T [] = Zsum T.*2.
Proof.
  induction T as [|[tr c] T IH]; [done|].
  rewrite support_cons, IH.
  rewrite decide_True; [done|]. by intros ? ?%elem_of_nil.
Qed.

(** ** Dictionaries keyed by strings *)

Lemma dict_set_str_elem_of {V} (d : list (string * V)) k0 v0 k v :
  (k, v) ∈ dict_set String.eqb d k0 v0 → (k, v) ∈ d ∨ (k = k0 ∧ v = v0).
Proof.
  induction d as [|[k' v'] d IH]; simpl.
  - intros [= -> ->]%list_elem_of_singleton. by right.
  - destruct (String.eqb k' k0) eqn:E.
    + apply String.eqb_eq in E as ->.
      intros [[= -> ->]|Hin]%elem_of_cons; [by right|]. left. by right.
    + intros [[= -> ->]|Hin]%elem_of_cons; [left; left|].
      destruct (IH Hin) as [?|?]; [|by right]. left. by right.
Qed.

Lemma dict_set_str_keys {V} (d : list (string * V)) k v p :
  p ∈ dict_keys (dict_set String.eqb d k v) ↔ p ∈ dict_keys d ∨ p = k.
Proof.
  induction d as [|[k' v'] d IH]; simpl.
  - rewrite list_elem_of_singleton. split; [by right | by intros [?%elem_of_nil|]].
  - destruct (String.eqb k' k) eqn:E; simpl.
    + apply String.eqb_eq in E as ->. rewrite elem_of_cons. tauto.
    + rewrite !elem_of_cons, IH. tauto.
Qed.

Lemma dict_set_str_NoDup {V} (d : list (string * V)) k v :
  NoDup (dict_keys d) → NoDup (dict_keys (dict_set String.eqb d k v)).
Proof.
  intros Hd. destruct (dict_set_keys String.eqb d k v) as [->|[-> Hall]]; [done|].
  apply NoDup_app. split_and!; [done| |apply NoDup_singleton].
  intros a Ha ->%list_elem_of_singleton.
  specialize (Hall _ Ha). by rewrite String.eqb_refl in Hall.
Qed.

Lemma dict_get_set_str {V} (d : list (string * V)) k v k' :
  dict_get String.eqb (dict_set String.eqb d k v) k' =
  if String.eqb k k' then Some v else dict_get String.eqb d k'.
Proof.
  induction d as [|[k0 v0] d IH]; simpl; [done|].
  destruct (String.eqb k0 k) eqn:E; simpl.
  - apply String.eqb_eq in E as ->. by destruct (String.eqb k k').
  - rewrite IH. destruct (String.eqb k0 k') eqn:E'; [|done].
    destruct (String.eqb k k') eqn:E''; [|done].
    apply String.eqb_eq in E' as ->. apply String.eqb_eq in E'' as ->.
    by rewrite String.eqb_refl in E.
Qed.

Lemma dict_get_str_elem_of {V} (d : list (string * V)) k v :
  dict_get String.eqb d k = Some v → (k, v) ∈ d.
Proof.
  induction d as [|[k0 v0] d IH]; simpl; [done|].
  destruct (String.eqb k0 k) eqn:E.
  - apply String.eqb_eq in E as ->. intros [= ->]. left.
  - intros ?%IH. by right.
Qed.

(** ** The loop of [writePatterns] *)

Section WritePatterns.
Variable set_order : list item → list item.
Variable int_of : item → option Z.

Lemma pattern_terms_spec vocab dflt items :
  Forall (λ it, is_Some (int_of it)) items →
  pattern_terms int_of vocab dflt items =
    Some (omap (λ it, int_of it ≫= dict_get Z.eqb vocab) items).
Proof.
  induction 1 as [|it items [i Hi] _ IH]; [done|].
  cbn [pattern_terms omap list_omap]. rewrite Hi. csimpl. rewrite IH.
  destruct (dict_get Z.eqb vocab i) as [w|] eqn:E.
  - by rewrite bool_decide_eq_true_2 by eauto.
  - rewrite bool_decide_eq_false_2; [done|]. by intros [? ?].
Qed.

Lemma pattern_terms_None vocab dflt items :
  pattern_terms int_of vocab dflt items = None ↔
  Exists (λ it, int_of it = None) items.
Proof.
  induction items as [|it items IH].
  - split; [done | by intros ?%Exists_nil].
  - rewrite Exists_cons, <-IH. cbn [pattern_terms].
    destruct (int_of it) as [i|] eqn:Hi; csimpl; [|by split; [left|]].
    case_bool_decide.
    + destruct (pattern_terms int_of vocab dflt items); csimpl.
      * split; [done | by intros [?|?]].
      * split; [by right | done].
    + split; [by right | by intros [?|?]].
Qed.

Lemma pattern_of_None vocab itemset :
  pattern_of set_order int_of vocab itemset = None ↔
  Exists (λ it, int_of it = None) (set_order itemset).
Proof.
  unfold pattern_of. rewrite <-(pattern_terms_None vocab "UNKNOWN").
  by destruct (pattern_terms int_of vocab "UNKNOWN" (set_order itemset)).
Qed.

Lemma patternDict_of_None vocab initSet freqItems : ∀ patternDict,
  patternDict_of set_order int_of vocab initSet freqItems patternDict = None ↔
  Exists (λ itemset, Exists (λ it, int_of it = None) (set_order itemset)) freqItems.
Proof.
  induction freqItems as [|s freqItems IH]; intros pd; cbn [patternDict_of].
  - split; [done | by intros ?%Exists_nil].
  - rewrite Exists_cons, <-(pattern_of_None vocab).
    destruct (pattern_of set_order int_of vocab s) as [p|]; csimpl.
    + rewrite IH. split; [by right | by intros [?|?]].
    + split; [by left | done].
Qed.

Lemma patternDict_of_spec vocab initSet freqItems : ∀ patternDict patternDict',
  patternDict_of set_order int_of vocab initSet freqItems patternDict
    = Some patternDict' →
  (∀ p c, (p, c) ∈ patternDict' →
     (p, c) ∈ patternDict ∨
     ∃ s, s ∈ freqItems ∧ pattern_of set_order int_of vocab s = Some p ∧
          c = supportCount initSet s) ∧
  (∀ p, p ∈ dict_keys patternDict' ↔
        p ∈ dict_keys patternDict ∨
        ∃ s, s ∈ freqItems ∧ pattern_of set_order int_of vocab s = Some p) ∧
  (NoDup (dict_keys patternDict) → NoDup (dict_keys patternDict')).
Proof.
  induction freqItems as [|s freqItems IH]; intros pd pd'; cbn [patternDict_of].
  - intros [= <-]. split_and!; [by left | | done].
    intros p. split; [by left|]. by intros [?|(? & ?%elem_of_nil & _)].
  - destruct (pattern_of set_order int_of vocab s) as [p0|] eqn:Hp0; csimpl; [|done].
    intros (IH1 & IH2 & IH3)%IH. split_and!.
    + intros p c [Hin|(s' & Hs' & Hp & ->)]%IH1.
      * apply dict_set_str_elem_of in Hin as [?|[-> ->]]; [by left|].
        right. exists s. split_and!; [left | done..].
      * right. exists s'. split_and!; [by right | done..].
    + intros p. rewrite IH2, dict_set_str_keys. split.
      * intros [[?| ->]|(s' & Hs' & Hp)]; [by left | |].
        -- right. exists s. split; [left | done].
        -- right. exists s'. split; [by right | done].
      * intros [?|(s' & [->|Hs']%elem_of_cons & Hp)].
        -- left. by left.
        -- left. right. congruence.
        -- right. eauto.
    + intros Hd. by apply IH3, dict_set_str_NoDup.
Qed.
Lemma patternDict_of_keeps vocab initSet post p : ∀ patternDict patternDict',
  Forall (λ s, pattern_of set_order int_of vocab s ≠ Some p) post →
  patternDict_of set_order int_of vocab initSet post patternDict
    = Some patternDict' →
  dict_get String.eqb patternDict' p = dict_get String.eqb patternDict p.
Proof.
  induction post as [|s post IH]; intros pd pd' Hpost; cbn [patternDict_of].
  - by intros [= <-].
  - apply Forall_cons in Hpost as [Hs Hpost].
    destruct (pattern_of set_order int_of vocab s) as [p0|] eqn:Hp0; csimpl; [|done].
    intros Hrun. rewrite (IH _ _ Hpost Hrun), dict_get_set_str.
    destruct (String.eqb p0 p) eqn:E; [|done].
    apply String.eqb_eq in E as ->. done.
Qed.

Lemma patternDict_of_last vocab initSet pre s post p : ∀ patternDict patternDict',
  pattern_of set_order int_of vocab s = Some p →
  Forall (λ s, pattern_of set_order int_of vocab s ≠ Some p) post →
  patternDict_of set_order int_of vocab initSet (pre ++ s :: post) patternDict
    = Some patternDict' →
  dict_get String.eqb patternDict' p = Some (supportCount initSet s).
Proof.
  induction pre as [|s0 pre IH]; intros pd pd' Hs Hpost; cbn [patternDict_of app].
  - rewrite Hs. csimpl. intros Hrun.
    rewrite (patternDict_of_keeps _ _ _ _ _ _ Hpost Hrun), dict_get_set_str.
    by rewrite String.eqb_refl.
  - destruct (pattern_of set_order int_of vocab s0) as [p0|]; csimpl; [|done].
    by apply IH.
Qed.

Lemma writePatterns_spec freqItems vocab initSet lines :
  writePatterns set_order int_of freqItems vocab initSet = Some lines →
  descending snd lines ∧ NoDup lines.*1 ∧
  (∀ p c, (p, c) ∈ lines →
     ∃ s, s ∈ freqItems ∧ pattern_of set_order int_of vocab s = Some p ∧
          c = supportCount initSet s) ∧
  (∀ s p, s ∈ freqItems → pattern_of set_order int_of vocab s = Some p →
     ∃ c, (p, c) ∈ lines).
Proof.
  unfold writePatterns.
  destruct (patternDict_of set_order int_of vocab initSet freqItems [])
    as [pd|] eqn:Hpd; csimpl; [|done].
  intros [= <-].
  apply patternDict_of_spec in Hpd as (Hin & Hkeys & Hnd).
  pose proof (sorted_rev_perm snd pd) as Hperm. split_and!.
  - apply sorted_rev_descending.
  - rewrite Hperm. apply Hnd. constructor.
  - intros p c Hpc. rewrite Hperm in Hpc.
    destruct (Hin p c Hpc) as [?%elem_of_nil|?]; done.
  - intros s p Hs Hp.
    assert (p ∈ dict_keys pd) as (pc & -> & Hpc)%list_elem_of_fmap.
    { apply Hkeys. right. eauto. }
    exists pc.2. rewrite Hperm. by destruct pc.
Qed.
End WritePatterns.

(** ** Header counts and chains *)

Lemma header_entry_count T minSup t x e :
  Forall (λ tc, NoDup tc.1) T → FPTree_init T minSup = Ok t →
  dict_get item_eqb (headerTable t) x = Some e → e.1 = aggregate T x.
Proof.
  intros HT (Hwf & Hhc & _)%FPTree_init_Ok He.
  apply dict_get_elem_of in He.
  assert ((x, e.1) ∈ header_counts t) as Hin.
  { unfold header_counts. apply list_elem_of_fmap. by exists (x, e). }
  rewrite Hhc in Hin. apply list_elem_of_filter in Hin as [_ Hin].
  apply dict_elem_of_get in Hin; [|apply count_items_NoDup].
  pose proof (count_from_value T [] x HT) as Hv.
  rewrite <-count_items_eq, Hin in Hv. simpl in Hv. lia.
Qed.

Lemma weight_chain ns b :
  weight ns b [] =
  Zsum ((λ r, default 0%Z (counts ns !! r)) <$> labelled (names ns) b).
Proof.
  unfold weight. apply Zsum_fmap_ext. intros r _. unfold weight_at.
  rewrite decide_True; [done|]. by intros ? ?%elem_of_nil.
Qed.

(** ** The emitted sets *)

Lemma appended_only_new_sets preFix st st' :
  appended_only preFix st st' → Forall NoDup (sets st) →
  ∀ r s, length (sets st) ≤ r → sets st' !! r = Some s → s ≠ [] ∧ NoDup s.
Proof.
  intros (news & Hs & _ & Hnew) Hold.
  assert (∀ k s, news !! k = Some s → s ≠ [] ∧ NoDup s) as Hall.
  { intros k. induction k as [k IH] using lt_wf_ind. intros s Hk.
    destruct (Hnew k s Hk) as (r & p & x & Hr & _ & Hp & ->). split.
    - intros Hnil. assert (x ∈ set_add p x) as Hx by (apply set_add_elem_of; by right).
      rewrite Hnil in Hx. by apply elem_of_nil in Hx.
    - apply set_add_NoDup. rewrite Hs in Hp.
      apply lookup_app_Some in Hp as [Hp|[Hge Hp]].
      + rewrite Forall_forall in Hold. apply Hold. by eapply list_elem_of_lookup_2.
      + eapply (IH (r - length (sets st))); [lia | exact Hp]. }
  intros r s Hr Hrs. rewrite Hs, lookup_app_r in Hrs by done. by eapply Hall.
Qed.

(** * The entries of a conditional pattern base *)

Lemma dict_set_elem_of_eqb {K V} (eqb : K → K → bool) (d : list (K * V)) k0 v0 k v :
  (k, v) ∈ dict_set eqb d k0 v0 →
  (k, v) ∈ d ∨ (v = v0 ∧ (k = k0 ∨ (k ∈ dict_keys d ∧ eqb k k0 = true))).
Proof.
  induction d as [|[k' v'] d IH]; simpl.
  - intros [= -> ->]%list_elem_of_singleton. right. by split; [|left].
  - destruct (eqb k' k0) eqn:E.
    + intros [[= -> ->]|Hin]%elem_of_cons.
      * right. split; [done|]. right. split; [left | done].
      * left. by right.
    + intros [[= -> ->]|Hin]%elem_of_cons; [left; left|].
      destruct (IH Hin) as [?|[-> [->|[? ?]]]].
      * left. by right.
      * right. by split; [|left].
      * right. split; [done|]. right. split; [by right | done].
Qed.

Lemma dict_set_keeps_keys {K V} (eqb : K → K → bool) (d : list (K * V)) k0 v0 k :
  k ∈ dict_keys d → k ∈ dict_keys (dict_set eqb d k0 v0).
Proof.
  intros Hk. destruct (dict_set_keys eqb d k0 v0) as [->|[-> _]]; [done|].
  apply elem_of_app. by left.
Qed.

Lemma dict_set_fs_has_key {V} (d : list (frozenset * V)) K v :
  ∃ k, k ∈ dict_keys (dict_set fs_eqb d K v) ∧ fs_eqb k K = true.
Proof.
  induction d as [|[k' v'] d IH]; simpl.
  - exists K. split; [left | apply fs_eqb_refl].
  - destruct (fs_eqb k' K) eqn:E; simpl.
    + exists k'. split; [left | done].
    + destruct IH as (k & Hk & Hkk). exists k. split; [by right | done].
Qed.

Section ConditionalEntries.
Variable frozenset_of : list item → frozenset.

(** Every chain node with labels above its parent has an entry for the set
    of these labels, and every entry carries the count of such a node. *)
Lemma findPrefixPath_entries t basePat cp :
  wf t → findPrefixPath frozenset_of t basePat = Ok cp →
  (∀ r p anc, r ∈ labelled (names (nodes t)) basePat →
     parents (nodes t) !! r = Some (Some p) →
     above_root (names (nodes t)) (parents (nodes t)) p anc → anc ≠ [] →
     ∃ k, k ∈ dict_keys cp ∧ fs_eqb k (frozenset_of anc) = true) ∧
  (∀ k v, (k, v) ∈ cp →
     ∃ r p anc, r ∈ labelled (names (nodes t)) basePat ∧
       parents (nodes t) !! r = Some (Some p) ∧
       above_root (names (nodes t)) (parents (nodes t)) p anc ∧ anc ≠ [] ∧
       fs_eqb k (frozenset_of anc) = true ∧
       count <$> nodes t !! r = Some v).
Proof.
  intros Hwf Hrun.
  assert (for_each (labelled (names (nodes t)) basePat)
            (λ cp r, findPrefixPath_step frozenset_of (nodes t) r cp) [] = Ok cp)
    as Hloop.
  { revert Hrun. unfold findPrefixPath.
    intros (e & He%of_option_Ok & Hloop)%bind_Ok.
    pose proof (wf_chain _ Hwf _ _ He) as Hchain.
    rewrite (findPrefixPath_loop_chain _ _ _ _ _ _ Hchain) in Hloop; [done|].
    pose proof (labelled_length (names (nodes t)) basePat).
    rewrite names_length in *. lia. }
  clear Hrun.
  eapply (for_each_prefix
    (λ done (cp : list (frozenset * Z)),
       (∀ r p anc, r ∈ done →
          parents (nodes t) !! r = Some (Some p) →
          above_root (names (nodes t)) (parents (nodes t)) p anc → anc ≠ [] →
          ∃ k, k ∈ dict_keys cp ∧ fs_eqb k (frozenset_of anc) = true) ∧
       (∀ k v, (k, v) ∈ cp →
          ∃ r p anc, r ∈ done ∧
            parents (nodes t) !! r = Some (Some p) ∧
            above_root (names (nodes t)) (parents (nodes t)) p anc ∧ anc ≠ [] ∧
            fs_eqb k (frozenset_of anc) = true ∧
            count <$> nodes t !! r = Some v)));
    [| | exact Hloop].
  - intros done r rest cp0 cp1 Hl [Hall Hent] Hstep.
    assert (r ∈ labelled (names (nodes t)) basePat) as Hr
      by (rewrite Hl, elem_of_app, elem_of_cons; auto).
    pose proof Hr as [Hr0 Hrx]%labelled_elem_of.
    pose proof (lookup_lt_Some _ _ _ Hrx) as Hrlt. rewrite names_length in Hrlt.
    destruct (findPrefixPath_step_spec frozenset_of t r cp0 Hwf)
      as (n & p & anc & Hn & Hp & Hanc & _ & Hres); [lia|].
    rewrite Hres in Hstep. injection Hstep as <-.
    assert (parents (nodes t) !! r = Some (Some p)) as Hp'
      by (apply lookup_proj; eauto).
    split.
    + intros r' p' anc' [Hr'| ->%list_elem_of_singleton]%elem_of_app Hp'' Hanc' Hne.
      * destruct (Hall r' p' anc' Hr' Hp'' Hanc' Hne) as (k & Hk & Hkk).
        exists k. split; [|done].
        destruct (decide (anc = [])); [done|]. by apply dict_set_keeps_keys.
      * rewrite Hp' in Hp''. injection Hp'' as <-.
        rewrite (above_root_functional _ _ _ _ _ Hanc' Hanc) in *.
        rewrite decide_False by done. apply dict_set_fs_has_key.
    + intros k v Hin.
      assert ((k, v) ∈ cp0 ∨
              (anc ≠ [] ∧ v = count n ∧ fs_eqb k (frozenset_of anc) = true))
        as [Hold|(Hne & -> & Hk)].
      { destruct (decide (anc = [])); [by left|].
        apply dict_set_elem_of_eqb in Hin as [?|[-> [->|[_ ?]]]]; [by left|..].
        - right. split_and!; [done..|apply fs_eqb_refl].
        - by right. }
      * destruct (Hent k v Hold) as (r' & p' & anc' & Hr' & H).
        exists r', p', anc'. split; [|done]. apply elem_of_app. by left.
      * exists r, p, anc. split_and!; try done.
        -- apply elem_of_app. right. left.
        -- by rewrite Hn.
  - split; [by intros r p anc ?%elem_of_nil | by intros k v ?%elem_of_nil].
Qed.
End ConditionalEntries.

(** * The order of emission *)



Section EmissionOrder.
Variable frozenset_of : list item → frozenset.


End EmissionOrder.

(** * The order of the header table and of insertion *)















(** * The properties *)

(** C1 (completeness of mining), refuted on [tied] at threshold 2: the run
    emits {2}, {8}, {1} and {1,8} only, although {1,2} is contained in two
    transactions and so has support 2; {2,8} and {1,2,8} are missed in the
    same way.  The two nodes labelled 2 have the same ancestor set {1,8},
    and [findPrefixPath] keeps the count of the last one only. *)
Theorem mine_misses_frequent_itemsets :
  mine frozenset_in_order (length (vocabulary tied)) tied 2 =
    Ok [[Int 2]; [Int 8]; [Int 1]; [Int 1; Int 8]] ∧
  support tied [Int 1; Int 2] = 2%Z ∧
  support tied [Int 2; Int 8] = 2%Z ∧
  support tied [Int 1; Int 2; Int 8] = 2%Z ∧
  emitted [[Int 2]; [Int 8]; [Int 1]; [Int 1; Int 8]] [Int 1; Int 2] = false.
Proof. vm_compute. done. Qed.

(** C2 (weights of a recurring ancestor set are added), refuted on the tree
    of [tied] at threshold 2 and the item 2: its chain has the nodes 3 and
    6, each of count 1, below the paths 8,1 and 1,8; the conditional pattern
    base maps the set {1,8} to 1, the count of node 6 alone, and not to 2. *)
Theorem findPrefixPath_overwrites_recurring_ancestor_set :
  ∃ t hd,
    FPTree_init tied 2 = Ok t ∧
    dict_get item_eqb (headerTable t) (Int 2) = Some (2%Z, hd) ∧
    follow_chain (length (nodes t)) (nodes t) hd = Ok [3; 6] ∧
    ascendTree (length (nodes t)) (nodes t) 3 [] = Ok [Int 2; Int 1; Int 8] ∧
    ascendTree (length (nodes t)) (nodes t) 6 [] = Ok [Int 2; Int 8; Int 1] ∧
    count <$> nodes t !! 3 = Some 1%Z ∧
    count <$> nodes t !! 6 = Some 1%Z ∧
    findPrefixPath frozenset_in_order t (Int 2) = Ok [([Int 1; Int 8], 1%Z)].
Proof. do 2 eexists. vm_compute. done. Qed.

(** C3 as stated fails: with threshold -5, a transaction of count -1 and
    an empty transaction, the constructor returns a tree, whose one node
    has count -1. *)
Lemma FPTree_init_builds_from_malformed_input :
  malformed [([Int 1], (-1)%Z); ([], 3%Z)] (-5) ∧
  FPTree_init [([Int 1], (-1)%Z); ([], 3%Z)] (-5) =
    Ok {| headerTable := [(Int 1, ((-1)%Z, Some 1))];
          root := 0;
          nodes := [ mkTreeNode (Str "Null") 1 None None [(Int 1, 1)];
                     mkTreeNode (Int 1) (-1) None (Some 0) [] ];
          calls := [[Int 1]] |}.
Proof. split; [left; lia | vm_compute; done]. Qed.

(** C3, amended: tree construction validates nothing.  On every input
    whose item sets are duplicate-free, also one with a threshold <= 0, with
    a transaction of non-positive count or with an empty transaction, it
    returns a well-formed tree and raises no error; the header of that tree
    has an entry exactly for the items that occur in some transaction and
    whose counts, summed over the transactions that contain them, are not
    below the threshold, and the entry holds that sum. *)
Theorem FPTree_init_never_rejects transactions minSup :
  Forall (λ tc, NoDup tc.1) transactions →
  ∃ t, FPTree_init transactions minSup = Ok t ∧ wf t ∧
       (∀ x, is_Some (dict_get item_eqb (headerTable t) x) ↔
             occurs transactions x ∧ (minSup ≤ aggregate transactions x)%Z) ∧
       (∀ x e, dict_get item_eqb (headerTable t) x = Some e →
               e.1 = aggregate transactions x).
Proof.
  intros HT.
  destruct (FPTree_init_spec transactions minSup) as (t & Ht & Hwf & Hhc & _).
  exists t. split_and!; [done..| |].
  - intros x. rewrite <-dict_keys_is_Some, header_counts_keys, Hhc.
    apply (header_entry_frequent transactions minSup x HT).
  - intros x e. by apply (header_entry_count transactions minSup t).
Qed.

Lemma FPTree_init_never_rejects_witness :
  malformed [([Int 1], (-1)%Z); ([], 3%Z); ([Int 1; Int 2], 2%Z)] (-5) ∧
  ∃ t, FPTree_init [([Int 1], (-1)%Z); ([], 3%Z); ([Int 1; Int 2], 2%Z)] (-5) = Ok t ∧
       wf t ∧
       (∀ x, is_Some (dict_get item_eqb (headerTable t) x) ↔
             occurs [([Int 1], (-1)%Z); ([], 3%Z); ([Int 1; Int 2], 2%Z)] x ∧
             (-5 ≤ aggregate [([Int 1], (-1)%Z); ([], 3%Z); ([Int 1; Int 2], 2%Z)] x)%Z) ∧
       (∀ x e, dict_get item_eqb (headerTable t) x = Some e →
               e.1 = aggregate [([Int 1], (-1)%Z); ([], 3%Z); ([Int 1; Int 2], 2%Z)] x).
Proof.
  split; [left; lia|].
  apply (FPTree_init_never_rejects
           [([Int 1], (-1)%Z); ([], 3%Z); ([Int 1; Int 2], 2%Z)] (-5)).
  apply (bool_decide_unpack _). vm_compute. exact I.
Defined.




(** C5: in the tree built from a multiset, an item has a header entry if
    and only if the counts of the transactions that contain it sum to at
    least the threshold.  (An item that occurs in no transaction has no
    entry; its sum is 0, so for it the equivalence needs a threshold
    above 0.) *)
Theorem headerTable_entry_iff_frequent transactions minSup x :
  Forall (λ tc, NoDup tc.1) transactions →
  (0 < minSup)%Z ∨ occurs transactions x →
  ∃ t, FPTree_init transactions minSup = Ok t ∧
       (is_Some (dict_get item_eqb (headerTable t) x) ↔
        (minSup ≤ aggregate transactions x)%Z).
Proof.
  intros HT Hdom.
  destruct (FPTree_init_spec transactions minSup) as (t & Ht & _ & Hhc & _).
  exists t. split; [done|].
  rewrite <-dict_keys_is_Some, header_counts_keys, Hhc.
  change (x ∈ dict_keys (prune minSup (count_items transactions)) ↔
          (minSup ≤ aggregate transactions x)%Z).
  rewrite header_entry_frequent by done. split; [by intros [_ ?]|].
  intros Hsup. split; [|done]. destruct Hdom as [Hpos|?]; [|done].
  apply aggregate_nonzero_occurs. lia.
Qed.

Lemma headerTable_entry_iff_frequent_witness :
  ∃ t, FPTree_init tied 2 = Ok t ∧
       (is_Some (dict_get item_eqb (headerTable t) (Int 16)) ↔
        (2 ≤ aggregate tied (Int 16))%Z).
Proof.
  apply (headerTable_entry_iff_frequent tied 2 (Int 16)).
  - apply (bool_decide_unpack _). vm_compute. exact I.
  - left. lia.
Defined.

(** C6: mining the tree built from a multiset terminates, and its
    recursion never nests deeper than the number of distinct items of the
    multiset: run with that number as its budget of nested recursive calls,
    or with any larger one, the driver returns its list and raises neither
    [RecursionError] nor any other exception.  The only thing assumed of the
    interpreter is that [frozenset(l)] has no element that [l] lacks. *)
Theorem mine_recursion_bounded_by_vocabulary
    (frozenset_of : list item → frozenset) transactions minSup depth :
  (∀ l x, x ∈ frozenset_of l → x ∈ l) →
  length (vocabulary transactions) ≤ depth →
  ∃ out, mine frozenset_of depth transactions minSup = Ok out.
Proof.
  intros Hsub Hdepth. apply mine_total; [done | lia].
Qed.

Lemma mine_recursion_bounded_by_vocabulary_witness :
  ∃ out, mine frozenset_in_order 3 scenario 2 = Ok out.
Proof.
  apply (mine_recursion_bounded_by_vocabulary frozenset_in_order scenario 2 3).
  - exact frozenset_in_order_sub.
  - vm_compute. lia.
Defined.

(** C7: on the tree built from a multiset and for an item with a header
    entry, [findPrefixPath] returns, and the entries of its result are the
    ancestor sets of the chain nodes.  Every key is the frozenset of the
    labels met from the parent of some node of the chain of [basePat] up to
    the root, the root excluded, and these labels are not empty; every
    chain node that has such labels has an entry whose key is equal, as a
    set, to their frozenset; every entry carries the count of a chain node
    with that ancestor set, and the label [basePat] of the node itself is
    not among them.  A chain node whose parent is the root leaves the
    pattern base as it is. *)
Theorem findPrefixPath_entries_are_ancestor_sets
    (frozenset_of : list item → frozenset) transactions minSup t basePat :
  FPTree_init transactions minSup = Ok t →
  is_Some (dict_get item_eqb (headerTable t) basePat) →
  (∃ condPats, findPrefixPath frozenset_of t basePat = Ok condPats ∧
     (∀ k v, (k, v) ∈ condPats → from_chain_node frozenset_of t basePat k) ∧
     (∀ r anc, ancestors_of t basePat r anc → anc ≠ [] →
        ∃ k, k ∈ dict_keys condPats ∧ fs_eqb k (frozenset_of anc) = true) ∧
     (∀ k v, (k, v) ∈ condPats →
        ∃ r anc, ancestors_of t basePat r anc ∧ anc ≠ [] ∧ (basePat ∉ anc) ∧
                 fs_eqb k (frozenset_of anc) = true ∧
                 count <$> nodes t !! r = Some v)) ∧
  (∀ r condPats, r ∈ labelled (names (nodes t)) basePat →
     parents (nodes t) !! r = Some (Some (root t)) →
     findPrefixPath_step frozenset_of (nodes t) r condPats = Ok condPats).
Proof.
  intros (Hwf & _)%FPTree_init_Ok Hbase. split.
  - destruct (findPrefixPath_spec frozenset_of t basePat Hwf Hbase) as (cp & Hcp & Hkeys).
    destruct (findPrefixPath_entries frozenset_of t basePat cp Hwf Hcp)
      as [Hall Hent].
    exists cp. split_and!; [done| | |].
    + intros k v Hin. apply Hkeys.
      apply list_elem_of_fmap. by exists (k, v).
    + intros r anc (Hr & p & Hp & Hanc) Hne. by eapply Hall.
    + intros k v Hin.
      destruct (Hent k v Hin) as (r & p & anc & Hr & Hp & Hanc & Hne & Hk & Hv).
      exists r, anc. split_and!; [|done| |done..].
      * split; [done|]. eauto.
      * pose proof Hr as [_ Hrx]%labelled_elem_of.
        assert (above_root (names (nodes t)) (parents (nodes t)) r (basePat :: anc))
          as Hpath by (by eapply above_root_step).
        apply (wf_path _ Hwf) in Hpath. by apply NoDup_cons in Hpath as [? _].
  - intros r cp [Hr0 Hrx]%labelled_elem_of Hparent.
    apply lookup_lt_Some in Hrx. rewrite names_length in Hrx.
    destruct (findPrefixPath_step_spec frozenset_of t r cp Hwf)
      as (n & p & anc & Hn & Hp & Hanc & _ & ->); [lia|].
    assert (parents (nodes t) !! r = Some (Some p)) as Hp'
      by (apply lookup_proj; eauto).
    rewrite Hparent in Hp'. injection Hp' as <-.
    rewrite (wf_root _ Hwf) in Hanc.
    rewrite (above_root_functional _ _ _ _ _ Hanc
               (above_root_top _ _ _ (wf_top _ Hwf))).
    done.
Qed.

Lemma findPrefixPath_entries_are_ancestor_sets_witness :
  (∃ condPats, findPrefixPath frozenset_in_order tied_tree (Int 1) = Ok condPats ∧
     (∀ k v, (k, v) ∈ condPats →
        from_chain_node frozenset_in_order tied_tree (Int 1) k) ∧
     (∀ r anc, ancestors_of tied_tree (Int 1) r anc → anc ≠ [] →
        ∃ k, k ∈ dict_keys condPats ∧
             fs_eqb k (frozenset_in_order anc) = true) ∧
     (∀ k v, (k, v) ∈ condPats →
        ∃ r anc, ancestors_of tied_tree (Int 1) r anc ∧ anc ≠ [] ∧
                 (Int 1 ∉ anc) ∧
                 fs_eqb k (frozenset_in_order anc) = true ∧
                 count <$> nodes tied_tree !! r = Some v)) ∧
  (∀ r condPats, r ∈ labelled (names (nodes tied_tree)) (Int 1) →
     parents (nodes tied_tree) !! r = Some (Some (root tied_tree)) →
     findPrefixPath_step frozenset_in_order (nodes tied_tree) r condPats =
     Ok condPats).
Proof.
  apply (findPrefixPath_entries_are_ancestor_sets
           frozenset_in_order tied 2 tied_tree (Int 1)).
  - vm_compute. reflexivity.
  - vm_compute. eauto.
Defined.

(** C8: in the tree built from a multiset, the chain of every item of the
    header table, followed from its head along [nodeLink], visits the nodes
    labelled with that item, the root sentinel apart: all of them, each
    once, and by increasing address, that is in the order in which they
    were created. *)
Theorem chain_visits_labelled_nodes_in_creation_order transactions minSup :
  ∃ t, FPTree_init transactions minSup = Ok t ∧
       ∀ x e, dict_get item_eqb (headerTable t) x = Some e →
         ∃ chain,
           follow_chain (length (nodes t)) (nodes t) e.2 = Ok chain ∧
           chain = labelled (names (nodes t)) x ∧
           (∀ r, r ∈ chain ↔ r ≠ root t ∧ name <$> nodes t !! r = Some x) ∧
           NoDup chain ∧ increasing chain.
Proof.
  destruct (FPTree_init_spec transactions minSup) as (t & Ht & Hwf & _).
  exists t. split; [done|]. intros x e He.
  exists (labelled (names (nodes t)) x). split_and!.
  - apply follow_chain_spec; [by eapply wf_chain|].
    pose proof (labelled_length (names (nodes t)) x) as Hlen.
    rewrite names_length in Hlen. lia.
  - done.
  - intros r. rewrite labelled_elem_of, (wf_root _ Hwf).
    unfold names. by rewrite list_lookup_fmap.
  - apply labelled_NoDup.
  - apply labelled_increasing.
Qed.

(** C9: a call of [mineTree] leaves every set that existed before it as
    it was, the prefix and the sets already emitted included; it only
    appends to [freqItemList], and what it appends are the addresses of the
    sets it allocated, each of them the contents of the prefix or of a set
    emitted earlier in the call plus one item. *)
Theorem mineTree_accumulator_append_only
    (frozenset_of : list item → frozenset) depth t minSup preFix st st' :
  mineTree frozenset_of depth t minSup preFix st = Ok st' →
  appended_only preFix st st'.
Proof. apply mineTree_appended_only. Qed.

Lemma mineTree_accumulator_append_only_witness :
  appended_only 0 (mkMineState [[]] []) scenario_mined.
Proof.
  apply (mineTree_accumulator_append_only
           frozenset_in_order 3 scenario_tree 2 0 (mkMineState [[]] []) scenario_mined).
  vm_compute. reflexivity.
Defined.

(** C10: tree construction never raises, and every invocation of
    [updateTree] that it makes, the recursive ones included, receives a list
    of items that is not empty. *)
Theorem updateTree_called_with_nonempty_items transactions minSup :
  ∃ t, FPTree_init transactions minSup = Ok t ∧
       Forall (λ items, items ≠ []) (calls t).
Proof.
  destruct (FPTree_init_spec transactions minSup) as (t & Ht & _ & _ & Hcalls).
  eauto.
Qed.

(** * Further properties of the tree, of mining and of the collaborators *)

(** X1: in the tree built from transactions with duplicate-free item sets,
    the count kept in the header table for an item is the sum of the counts
    of the nodes on the item's chain, and it is the sum of the counts of the
    transactions that contain the item. *)
Theorem chain_counts_sum_to_header_count transactions minSup :
  Forall (λ tc, NoDup tc.1) transactions →
  ∃ t, FPTree_init transactions minSup = Ok t ∧
    ∀ x e, dict_get item_eqb (headerTable t) x = Some e →
      ∃ chain,
        follow_chain (length (nodes t)) (nodes t) e.2 = Ok chain ∧
        Zsum ((λ r, default 0%Z (counts (nodes t) !! r)) <$> chain) = e.1 ∧
        e.1 = aggregate transactions x.
Proof.
  intros HT.
  destruct (FPTree_init_spec transactions minSup) as (t & Ht & Hwf & _).
  exists t. split; [done|]. intros x e He.
  exists (labelled (names (nodes t)) x).
  pose proof (header_entry_count _ _ _ _ _ HT Ht He) as Hagg.
  split_and!; [| |done].
  - apply follow_chain_spec; [by eapply wf_chain|].
    pose proof (labelled_length (names (nodes t)) x) as Hlen.
    rewrite names_length in Hlen. lia.
  - rewrite <-weight_chain, Hagg.
    apply FPTree_init_built in Ht as [Hbuilt _].
    eapply built_chain_total; [exact Hbuilt|].
    apply dict_keys_is_Some. by rewrite He.
Qed.

Lemma chain_counts_sum_to_header_count_witness :
  ∃ t, FPTree_init tied 2 = Ok t ∧
    ∀ x e, dict_get item_eqb (headerTable t) x = Some e →
      ∃ chain,
        follow_chain (length (nodes t)) (nodes t) e.2 = Ok chain ∧
        Zsum ((λ r, default 0%Z (counts (nodes t) !! r)) <$> chain) = e.1 ∧
        e.1 = aggregate tied x.
Proof.
  apply (chain_counts_sum_to_header_count tied 2).
  apply (bool_decide_unpack _). vm_compute. exact I.
Defined.

(** X2: mining emits frequent itemsets only.  For transactions with
    duplicate-free item sets and counts that are not negative, every itemset
    that the driver emits is contained in transactions whose counts sum to
    at least the threshold.  Assumed of the interpreter: [frozenset(l)] has
    no element that [l] lacks and no element twice. *)
Theorem mine_emits_only_frequent_itemsets
    (frozenset_of : list item → frozenset) transactions minSup depth out :
  (∀ l x, x ∈ frozenset_of l → x ∈ l) →
  (∀ l, NoDup (frozenset_of l)) →
  Forall (λ tc, NoDup tc.1 ∧ (0 ≤ tc.2)%Z) transactions →
  mine frozenset_of depth transactions minSup = Ok out →
  Forall (λ s, (minSup ≤ support transactions s)%Z) out.
Proof.
  intros Hsub Hnd HT Hrun.
  eapply (mine_sound frozenset_of Hsub Hnd transactions minSup depth out);
    [| |done].
  - eapply Forall_impl; [exact HT|]. by intros ? [? _].
  - eapply Forall_impl; [exact HT|]. by intros ? [_ ?].
Qed.

Lemma mine_emits_only_frequent_itemsets_witness :
  Forall (λ s, (2 ≤ support tied s)%Z) [[Int 2]; [Int 8]; [Int 1]; [Int 1; Int 8]].
Proof.
  apply (mine_emits_only_frequent_itemsets frozenset_in_order tied 2 5).
  - exact frozenset_in_order_sub.
  - intros l. apply NoDup_remove_dups.
  - apply (bool_decide_unpack _). vm_compute. exact I.
  - vm_compute. reflexivity.
Defined.

(** X3: every item that occurs in the transactions and whose counts sum to
    at least the threshold is emitted as a one-element itemset. *)
Theorem mine_emits_every_frequent_item
    (frozenset_of : list item → frozenset) transactions minSup depth out x :
  Forall (λ tc, NoDup tc.1) transactions →
  mine frozenset_of depth transactions minSup = Ok out →
  occurs transactions x → (minSup ≤ aggregate transactions x)%Z →
  [x] ∈ out.
Proof. apply mine_emits_frequent_items. Qed.

Lemma mine_emits_every_frequent_item_witness :
  [Int 8] ∈ [[Int 2]; [Int 8]; [Int 1]; [Int 1; Int 8]].
Proof.
  apply (mine_emits_every_frequent_item frozenset_in_order tied 2 5 _ (Int 8)).
  - apply (bool_decide_unpack _). vm_compute. exact I.
  - vm_compute. reflexivity.
  - exists ([Int 8; Int 1], 1%Z). split; [right; right; left | left].
  - vm_compute. discriminate.
Defined.

(** X4: when no item reaches the threshold, the tree is the root alone,
    with an empty header table, and mining emits nothing. *)
Theorem mine_without_frequent_items
    (frozenset_of : list item → frozenset) transactions minSup depth :
  Forall (λ tc, NoDup tc.1) transactions →
  (∀ x, occurs transactions x → (aggregate transactions x < minSup)%Z) →
  FPTree_init transactions minSup =
    Ok (mkFPTree [] 0 [TreeNode_init (Str "Null") 1 None] []) ∧
  mine frozenset_of depth transactions minSup = Ok [].
Proof. apply mine_nothing_frequent. Qed.

Lemma mine_without_frequent_items_witness :
  FPTree_init [([Int 1; Int 2], 1%Z)] 2 =
    Ok (mkFPTree [] 0 [TreeNode_init (Str "Null") 1 None] []) ∧
  mine frozenset_in_order 0 [([Int 1; Int 2], 1%Z)] 2 = Ok [].
Proof.
  apply (mine_without_frequent_items frozenset_in_order [([Int 1; Int 2], 1%Z)] 2 0).
  - apply (bool_decide_unpack _). vm_compute. exact I.
  - intros x (tc & ->%list_elem_of_singleton & Hx). simpl in Hx.
    apply elem_of_cons in Hx as [->|Hx]; [vm_compute; reflexivity|].
    apply list_elem_of_singleton in Hx as ->. vm_compute. reflexivity.
Defined.

(** X5: on a built tree, [findPrefixPath] raises [KeyError] exactly for the
    items that have no entry in the header table. *)
Theorem findPrefixPath_raises_KeyError_iff_no_entry
    (frozenset_of : list item → frozenset) transactions minSup t basePat :
  FPTree_init transactions minSup = Ok t →
  findPrefixPath frozenset_of t basePat = Raise KeyError ↔
  dict_get item_eqb (headerTable t) basePat = None.
Proof. apply findPrefixPath_KeyError. Qed.

Lemma findPrefixPath_raises_KeyError_iff_no_entry_witness :
  findPrefixPath frozenset_in_order scenario_tree (Int 9) = Raise KeyError ↔
  dict_get item_eqb (headerTable scenario_tree) (Int 9) = None.
Proof.
  apply (findPrefixPath_raises_KeyError_iff_no_entry
           frozenset_in_order scenario 2 scenario_tree (Int 9)).
  vm_compute. reflexivity.
Defined.

(** X6: the conditional pattern base of an item, taken from the tree of
    transactions with positive counts, is itself a transaction multiset: its
    keys are non-empty, duplicate-free and pairwise different as sets, its
    counts are positive; no key holds the item itself, and every item of a
    key has an entry in the header table.  Assumed of the interpreter:
    [frozenset(l)] has the elements of [l], each once. *)
Theorem findPrefixPath_returns_transaction_multiset
    (frozenset_of : list item → frozenset) transactions minSup t basePat condPats :
  (∀ l x, x ∈ frozenset_of l ↔ x ∈ l) →
  (∀ l, NoDup (frozenset_of l)) →
  Forall (λ tc, (0 < tc.2)%Z) transactions →
  FPTree_init transactions minSup = Ok t →
  findPrefixPath frozenset_of t basePat = Ok condPats →
  is_multiset condPats ∧
  ∀ k x, k ∈ dict_keys condPats → x ∈ k →
         x ≠ basePat ∧ x ∈ dict_keys (headerTable t).
Proof.
  intros Helem Hnd Hpos Hinit Hrun.
  pose proof (FPTree_init_Ok _ _ _ Hinit) as (Hwf & _).
  apply FPTree_init_built in Hinit as [_ Hcounts].
  eapply (findPrefixPath_multiset frozenset_of Helem Hnd); [done| |done].
  apply (Hcounts (λ c, (0 < c)%Z)); [intros; lia | lia | done].
Qed.

Lemma findPrefixPath_returns_transaction_multiset_witness :
  is_multiset scenario_condPats ∧
  ∀ k x, k ∈ dict_keys scenario_condPats → x ∈ k →
         x ≠ Int 3 ∧ x ∈ dict_keys (headerTable scenario_tree).
Proof.
  apply (findPrefixPath_returns_transaction_multiset
           frozenset_in_order scenario 2 scenario_tree (Int 3) scenario_condPats).
  - intros l x. apply elem_of_remove_dups.
  - intros l. apply NoDup_remove_dups.
  - apply (bool_decide_unpack _). vm_compute. exact I.
  - vm_compute. reflexivity.
  - vm_compute. reflexivity.
Defined.

(** X7: a conditional pattern base never counts more than the
    transactions do: the counts of the entries that contain an itemset [S]
    sum to at most the counts of the transactions that contain [S] and the
    base item.  (They can sum to less: an entry keeps the count of the last
    chain node with its ancestor set.) *)
Theorem conditional_support_at_most_support
    (frozenset_of : list item → frozenset) transactions minSup t basePat condPats S :
  (∀ l x, x ∈ frozenset_of l → x ∈ l) →
  Forall (λ tc, NoDup tc.1 ∧ (0 ≤ tc.2)%Z) transactions →
  FPTree_init transactions minSup = Ok t →
  findPrefixPath frozenset_of t basePat = Ok condPats →
  (support condPats S ≤ support transactions (basePat :: S))%Z.
Proof.
  intros Hsub HT Hinit Hrun.
  pose proof (FPTree_init_Ok _ _ _ Hinit) as (Hwf & _).
  assert (Forall (λ tc : frozenset * Z, (0 ≤ tc.2)%Z) transactions) as Hnn.
  { eapply Forall_impl; [exact HT|]. by intros ? [_ ?]. }
  apply FPTree_init_built in Hinit as [Hbuilt Hcounts].
  destruct (findPrefixPath_support frozenset_of Hsub t basePat condPats Hwf)
    as [_ Hle]; [|done|].
  - apply (Hcounts (λ c, (0 ≤ c)%Z)); [intros; lia | lia | done].
  - etrans; [apply Hle|]. by eapply built_weight_le.
Qed.

Lemma conditional_support_at_most_support_witness :
  (support [([Int 1; Int 8], 1%Z)] [Int 1] ≤ support tied [Int 2; Int 1])%Z.
Proof.
  apply (conditional_support_at_most_support
           frozenset_in_order tied 2
           (match FPTree_init tied 2 with Ok t => t | Raise _ => scenario_tree end)
           (Int 2) [([Int 1; Int 8], 1%Z)] [Int 1]).
  - exact frozenset_in_order_sub.
  - apply (bool_decide_unpack _). vm_compute. exact I.
  - vm_compute. reflexivity.
  - vm_compute. reflexivity.
Defined.

(** X8: the tree of transactions with positive counts has positive counts
    on all of its nodes. *)
Theorem node_counts_positive transactions minSup :
  Forall (λ tc, (0 < tc.2)%Z) transactions →
  ∃ t, FPTree_init transactions minSup = Ok t ∧
       Forall (λ n, (0 < count n)%Z) (nodes t).
Proof.
  intros Hpos.
  destruct (FPTree_init_spec transactions minSup) as (t & Ht & _).
  exists t. split; [done|].
  apply FPTree_init_built in Ht as [_ Hcounts].
  assert (Forall (λ c, (0 < c)%Z) (counts (nodes t))) as H
    by (apply Hcounts; [intros; lia | lia | done]).
  unfold counts in H. rewrite Forall_fmap in H. exact H.
Qed.

Lemma node_counts_positive_witness :
  ∃ t, FPTree_init scenario 2 = Ok t ∧ Forall (λ n, (0 < count n)%Z) (nodes t).
Proof.
  apply (node_counts_positive scenario 2).
  apply (bool_decide_unpack _). vm_compute. exact I.
Defined.

(** X9: [createInitSet] counts the transactions: looking a set up in its
    result, with 0 for a set that is no key, gives the number of the
    transactions of the data set that are equal to it as sets.  Assumed of
    the interpreter: [frozenset(l)] has the elements of [l]. *)
Theorem createInitSet_counts_equal_transactions
    (frozenset_of : list item → frozenset) dataSet K :
  (∀ l x, x ∈ frozenset_of l ↔ x ∈ l) →
  default 0%Z (dict_get fs_eqb (createInitSet frozenset_of dataSet) K) =
  count_equal dataSet K.
Proof.
  intros Helem.
  destruct (createInitSet_loop frozenset_of Helem dataSet []) as (_ & Hget & _).
  cbn zeta in Hget. unfold createInitSet. rewrite Hget. simpl. lia.
Qed.

Lemma createInitSet_counts_equal_transactions_witness :
  default 0%Z (dict_get fs_eqb (createInitSet frozenset_in_order baskets)
                 [Str "2"; Str "1"]) =
  count_equal baskets [Str "2"; Str "1"].
Proof.
  apply (createInitSet_counts_equal_transactions
           frozenset_in_order baskets [Str "2"; Str "1"]).
  intros l x. apply elem_of_remove_dups.
Defined.

(** X10: the result of [createInitSet] has duplicate-free keys that are
    pairwise different as sets, its counts are positive and they sum to the
    number of transactions of the data set.  (A transaction without items,
    as an empty line gives, is a key like any other.)  Assumed of the
    interpreter: [frozenset(l)] has the elements of [l], each once. *)
Theorem createInitSet_partitions_transactions
    (frozenset_of : list item → frozenset) dataSet :
  (∀ l x, x ∈ frozenset_of l ↔ x ∈ l) →
  (∀ l, NoDup (frozenset_of l)) →
  Forall (λ tc, NoDup tc.1 ∧ (0 < tc.2)%Z) (createInitSet frozenset_of dataSet) ∧
  distinct_sets (dict_keys (createInitSet frozenset_of dataSet)) ∧
  Zsum (createInitSet frozenset_of dataSet).*2 = Z.of_nat (length dataSet).
Proof.
  intros Helem Hnd.
  destruct (createInitSet_loop frozenset_of Helem dataSet [])
    as (Hsup & _ & Hall & Hdist).
  cbn zeta in *. unfold createInitSet. split_and!.
  - by apply Hall.
  - apply Hdist. by intros i j a b _ ?.
  - rewrite <-support_nil, Hsup, count_lines_nil. change (support [] []) with 0%Z. lia.
Qed.

Lemma createInitSet_partitions_transactions_witness :
  Forall (λ tc, NoDup tc.1 ∧ (0 < tc.2)%Z) (createInitSet frozenset_in_order baskets) ∧
  distinct_sets (dict_keys (createInitSet frozenset_in_order baskets)) ∧
  Zsum (createInitSet frozenset_in_order baskets).*2 = Z.of_nat (length baskets).
Proof.
  apply (createInitSet_partitions_transactions frozenset_in_order baskets).
  - intros l x. apply elem_of_remove_dups.
  - intros l. apply NoDup_remove_dups.
Defined.

(** X11: the support count that [writePatterns] computes for an itemset
    from the result of [createInitSet] is the number of the transactions of
    the data set that hold every item of the itemset.  Assumed of the
    interpreter: [frozenset(l)] has the elements of [l]. *)
Theorem supportCount_counts_containing_transactions
    (frozenset_of : list item → frozenset) dataSet itemset :
  (∀ l x, x ∈ frozenset_of l ↔ x ∈ l) →
  supportCount (createInitSet frozenset_of dataSet) itemset =
  count_lines dataSet itemset.
Proof.
  intros Helem.
  destruct (createInitSet_loop frozenset_of Helem dataSet [])
    as (Hsup & _ & _ & Hdist).
  cbn zeta in *. unfold createInitSet.
  rewrite supportCount_support, Hsup; [done|].
  apply Hdist. by intros i j a b _ ?.
Qed.

Lemma supportCount_counts_containing_transactions_witness :
  supportCount (createInitSet frozenset_in_order baskets) [Str "2"] =
  count_lines baskets [Str "2"].
Proof.
  apply (supportCount_counts_containing_transactions
           frozenset_in_order baskets [Str "2"]).
  intros l x. apply elem_of_remove_dups.
Defined.

(** X12: when [int] accepts every item of an itemset, its pattern is the
    words that the vocabulary has for its items, in the order in which the
    set is iterated over and joined by single spaces; an item that the
    vocabulary lacks is left out, and the default ['UNKNOWN'] is never
    used. *)
Theorem pattern_joins_vocabulary_words
    (set_order : list item → list item) (int_of : item → option Z) vocab itemset :
  Forall (λ it, is_Some (int_of it)) (set_order itemset) →
  pattern_of set_order int_of vocab itemset =
  Some (String.concat " "
          (omap (λ it, int_of it ≫= dict_get Z.eqb vocab) (set_order itemset))).
Proof.
  intros Hint. unfold pattern_of. by rewrite pattern_terms_spec.
Qed.

Lemma pattern_joins_vocabulary_words_witness :
  pattern_of id int_of_ascii words [Str "2"; Str "7"; Str "1"] =
  Some (String.concat " "
          (omap (λ it, int_of_ascii it ≫= dict_get Z.eqb words)
                (id [Str "2"; Str "7"; Str "1"]))).
Proof.
  apply (pattern_joins_vocabulary_words id int_of_ascii words
           [Str "2"; Str "7"; Str "1"]).
  repeat constructor; vm_compute; eauto.
Defined.

(** X13: [writePatterns] fails, with the [ValueError] of [int], exactly
    when some item of some frequent itemset is rejected by [int], whether or
    not the vocabulary would have a word for it. *)
Theorem writePatterns_fails_iff_item_not_int
    (set_order : list item → list item) (int_of : item → option Z)
    freqItems vocab initSet :
  writePatterns set_order int_of freqItems vocab initSet = None ↔
  Exists (λ itemset, Exists (λ it, int_of it = None) (set_order itemset)) freqItems.
Proof.
  unfold writePatterns.
  rewrite <-(patternDict_of_None set_order int_of vocab initSet freqItems []).
  by destruct (patternDict_of set_order int_of vocab initSet freqItems []).
Qed.

(** X14: the lines that [writePatterns] writes are in descending order of
    their counts, no pattern is written twice, every line has the pattern
    and the support count of one of the frequent itemsets, and the pattern
    of every frequent itemset is written. *)
Theorem writePatterns_lines
    (set_order : list item → list item) (int_of : item → option Z)
    freqItems vocab initSet lines :
  writePatterns set_order int_of freqItems vocab initSet = Some lines →
  descending snd lines ∧ NoDup lines.*1 ∧
  (∀ p c, (p, c) ∈ lines →
     ∃ s, s ∈ freqItems ∧ pattern_of set_order int_of vocab s = Some p ∧
          c = supportCount initSet s) ∧
  (∀ s p, s ∈ freqItems → pattern_of set_order int_of vocab s = Some p →
     ∃ c, (p, c) ∈ lines).
Proof. apply writePatterns_spec. Qed.

Lemma writePatterns_lines_witness :
  descending snd [("tea", 2%Z); ("milk", 1%Z)] ∧
  NoDup [("tea", 2%Z); ("milk", 1%Z)].*1 ∧
  (∀ p c, (p, c) ∈ [("tea", 2%Z); ("milk", 1%Z)] →
     ∃ s, s ∈ [[Str "1"]; [Str "2"]; [Str "2"; Str "3"]] ∧
          pattern_of id int_of_ascii words s = Some p ∧
          c = supportCount [([Str "1"; Str "2"], 2%Z); ([Str "2"; Str "3"], 1%Z)] s) ∧
  (∀ s p, s ∈ [[Str "1"]; [Str "2"]; [Str "2"; Str "3"]] →
     pattern_of id int_of_ascii words s = Some p →
     ∃ c, (p, c) ∈ [("tea", 2%Z); ("milk", 1%Z)]).
Proof.
  apply (writePatterns_lines id int_of_ascii
           [[Str "1"]; [Str "2"]; [Str "2"; Str "3"]] words
           [([Str "1"; Str "2"], 2%Z); ([Str "2"; Str "3"], 1%Z)]).
  vm_compute. reflexivity.
Defined.

(** X15: one round of [main], from the data set to the lines written:
    the lines are in descending order of their counts, and every line has
    the pattern of an itemset together with the number of the transactions
    of the data set that hold every item of that itemset, which is 400 at
    least.  Assumed of the interpreter: [frozenset(l)] has the elements of
    [l], each once. *)
Theorem main_round_writes_frequent_patterns
    (frozenset_of : list item → frozenset) (set_order : list item → list item)
    (int_of : item → option Z) depth dataSet vocab lines :
  (∀ l x, x ∈ frozenset_of l ↔ x ∈ l) →
  (∀ l, NoDup (frozenset_of l)) →
  main_round frozenset_of set_order int_of depth dataSet vocab = Ok (Some lines) →
  descending snd lines ∧
  ∀ p c, (p, c) ∈ lines →
    (400 ≤ c)%Z ∧
    ∃ s, pattern_of set_order int_of vocab s = Some p ∧ c = count_lines dataSet s.
Proof.
  intros Helem Hnd. unfold main_round.
  intros (freqItems & Hmine & [= Hwrite])%bind_Ok.
  destruct (createInitSet_loop frozenset_of Helem dataSet [])
    as (Hsup & _ & Hall & Hdist).
  cbn zeta in *. fold (createInitSet frozenset_of dataSet) in *.
  specialize (Hall Hnd (Forall_nil_2 _)).
  assert (distinct_sets (dict_keys (createInitSet frozenset_of dataSet))) as Hd.
  { apply Hdist. by intros i j a b _ ?. }
  apply writePatterns_spec in Hwrite as (Hdesc & _ & Hlines & _).
  split; [done|]. intros p c (s & Hs & Hp & ->)%Hlines.
  rewrite supportCount_support by done. split.
  - eapply (mine_sound frozenset_of) in Hmine.
    + rewrite Forall_forall in Hmine. by apply Hmine.
    + intros l x. apply Helem.
    + done.
    + eapply Forall_impl; [exact Hall|]. by intros ? [? _].
    + eapply Forall_impl; [exact Hall|]. intros [? ?] [_ ?]. simpl in *. lia.
  - exists s. split; [done|]. rewrite Hsup. done.
Qed.

Lemma main_round_writes_frequent_patterns_witness :
  descending snd baskets_lines ∧
  ∀ p c, (p, c) ∈ baskets_lines →
    (400 ≤ c)%Z ∧
    ∃ s, pattern_of id int_of_ascii words s = Some p ∧ c = count_lines baskets s.
Proof.
  apply (main_round_writes_frequent_patterns
           frozenset_in_order id int_of_ascii 2 baskets words baskets_lines).
  - intros l x. apply elem_of_remove_dups.
  - intros l. apply NoDup_remove_dups.
  - vm_compute. reflexivity.
Defined.

(** X16: no emitted itemset is empty, and none holds an item twice. *)
Theorem mine_emits_nonempty_duplicate_free_itemsets
    (frozenset_of : list item → frozenset) transactions minSup depth out :
  mine frozenset_of depth transactions minSup = Ok out →
  Forall (λ s, s ≠ [] ∧ NoDup s) out.
Proof.
  unfold mine. intros (t & _ & Hrun)%bind_Ok.
  apply bind_Ok in Hrun as (st & Hmine & Hout).
  pose proof (mineTree_appended_only _ _ _ _ _ _ _ Hmine) as Happ.
  pose proof Happ as (news & _ & Hf & _). simpl in Hf.
  apply Forall_forall. intros s Hin.
  destruct (collect_sets _ _ _ Hout s Hin) as (r & Hr & Hrs).
  rewrite Hf in Hr. apply elem_of_seq in Hr as [Hr _].
  eapply (appended_only_new_sets _ _ _ Happ); [|exact Hr|exact Hrs].
  simpl. apply Forall_singleton. constructor.
Qed.

Lemma mine_emits_nonempty_duplicate_free_itemsets_witness :
  Forall (λ s, s ≠ [] ∧ NoDup s) scenario_out.
Proof.
  apply (mine_emits_nonempty_duplicate_free_itemsets frozenset_in_order scenario 2 3).
  vm_compute. reflexivity.
Defined.

(** X17: when several frequent itemsets have one pattern, as happens when
    they differ in items that the vocabulary lacks, the line of that pattern
    carries the support count of the itemset that comes last in
    [freqItems]; the counts of the earlier ones are overwritten. *)
Theorem writePatterns_keeps_last_count
    (set_order : list item → list item) (int_of : item → option Z)
    pre s post vocab initSet lines p :
  writePatterns set_order int_of (pre ++ s :: post) vocab initSet = Some lines →
  pattern_of set_order int_of vocab s = Some p →
  Forall (λ s', pattern_of set_order int_of vocab s' ≠ Some p) post →
  (p, supportCount initSet s) ∈ lines.
Proof.
  unfold writePatterns. intros Hrun Hs Hpost.
  destruct (patternDict_of set_order int_of vocab initSet (pre ++ s :: post) [])
    as [pd|] eqn:Hpd; csimpl in *; [|done].
  injection Hrun as <-.
  rewrite (sorted_rev_perm snd pd).
  apply dict_get_str_elem_of.
  by eapply patternDict_of_last.
Qed.

Lemma writePatterns_keeps_last_count_witness :
  ("milk", supportCount [([Str "1"; Str "2"], 2%Z); ([Str "2"; Str "3"], 1%Z)]
             [Str "2"; Str "3"])
  ∈ [("tea", 2%Z); ("milk", 1%Z)].
Proof.
  apply (writePatterns_keeps_last_count id int_of_ascii
           [[Str "2"]] [Str "2"; Str "3"] [[Str "1"]] words
           [([Str "1"; Str "2"], 2%Z); ([Str "2"; Str "3"], 1%Z)]
           [("tea", 2%Z); ("milk", 1%Z)] "milk").
  - vm_compute. reflexivity.
  - vm_compute. reflexivity.
  - apply Forall_singleton. vm_compute. discriminate.
Defined.

(** X18: [updateTree], called on a well-formed tree below the node
    [inNode] with a non-empty list of distinct items that have header
    entries and do not label [inNode] or a node above it, returns a
    well-formed tree with the header counts as they were; the total count of
    the nodes that carry an item has grown by [count] for each item of the
    list and is as it was for every other item. *)
Theorem updateTree_adds_count_to_inserted_items items inNode cnt t pth :
  wf t →
  above_root (names (nodes t)) (parents (nodes t)) inNode pth →
  NoDup items →
  (∀ x, x ∈ items → is_Some (dict_get item_eqb (headerTable t) x) ∧ x ∉ pth) →
  items ≠ [] →
  ∃ t', updateTree items inNode cnt t = Ok t' ∧ wf t' ∧
        header_counts t' = header_counts t ∧
        ∀ b, chain_total (nodes t') b =
             (chain_total (nodes t) b + (if decide (b ∈ items) then cnt else 0))%Z.
Proof.
  intros Hwf Hpth Hnd Hin Hne.
  destruct (updateTree_wf items inNode cnt t pth Hwf Hpth Hnd Hin Hne)
    as (t' & Hrun & Hwf' & Hhc & _).
  exists t'. split_and!; [done..|]. intros b.
  destruct (updateTree_weight items inNode cnt t pth t' Hwf Hpth Hnd Hin Hrun)
    as [Hw _].
  specialize (Hw b []). rewrite !weight_chain, contribution_chain in Hw by done.
  exact Hw.
Qed.

Lemma updateTree_adds_count_to_inserted_items_witness :
  ∃ t', updateTree [Int 3; Int 2] 0 5 scenario_tree = Ok t' ∧ wf t' ∧
        header_counts t' = header_counts scenario_tree ∧
        ∀ b, chain_total (nodes t') b =
             (chain_total (nodes scenario_tree) b +
              (if decide (b ∈ [Int 3; Int 2]) then 5 else 0))%Z.
Proof.
  apply (updateTree_adds_count_to_inserted_items [Int 3; Int 2] 0 5 scenario_tree []).
  - apply (FPTree_init_Ok scenario 2). vm_compute. reflexivity.
  - apply above_root_top. vm_compute. reflexivity.
  - apply (bool_decide_unpack _). vm_compute. exact I.
  - intros x Hx. split; [|apply not_elem_of_nil].
    apply elem_of_cons in Hx as [->|Hx]; [vm_compute; eauto|].
    apply list_elem_of_singleton in Hx as ->. vm_compute. eauto.
  - discriminate.
Defined.
